(** * Supermarket queueing simulation (simulator.py)

    A shallow embedding of [simulator.py]: the [Supermarket] model, the part
    of the simpy kernel it runs on (event heap, processes, [Resource],
    [Timeout], [AnyOf] conditions) and the Monte Carlo aggregation of
    [simulate].

    Conventions of the embedding
    - simulated time, money and the configuration's numbers are rationals
      ([Q]); the numpy aggregation works on real numbers extended with a
      not-a-number value; the arithmetic is exact: rounding, the overflow of
      a float to an infinity and the [OverflowError] of an int beyond the
      range of doubles are not part of it, and a statement that depends on
      them bounds its numbers by [in_double_range];
    - [np.random.exponential(scale)] is [scale * x] where [x] is the next
      standard exponential variate of the global generator; the variates are
      a stream [draws : nat -> Q] and the state counts how many were used;
    - a generator is cut at its [yield]s: one definition per segment. *)

From Stdlib Require Import List Bool Arith ZArith QArith Reals Qreals Lia Lra.
From Stdlib Require Lqa.
Import ListNotations.

Local Open Scope Q_scope.

(** * The model *)

(** ** Data *)

(** The resource a customer is sent to: [self.cashiers[i]] or
    [self.extra_cashier]. *)
Inductive res_id : Type :=
| Regular (i : nat)
| Extra.

(** Exceptions that the program can raise. *)
Inductive exn : Type :=
| IndexError
| ZeroDivisionError
| ValueError
| RuntimeError.

(** The events of a run.  A customer is named by the index [cid] of its
    [Request] object in the table of requests. *)
Inductive event : Type :=
| Initialize_arrival                       (* start of customer_arrival *)
| Initialize_customer (arrival_time : Q)   (* start of customer_process *)
| Initialize_overflow                      (* start of open_extra_cashier_process *)
| Timeout_arrival                          (* env.timeout(arrival_interval) *)
| Timeout_patience (cid : nat)             (* env.timeout(1) *)
| Timeout_service (cid : nat)              (* env.timeout(service_time) *)
| Timeout_overflow                         (* env.timeout(2) *)
| Request (cid : nat)                      (* cashier.request(), once granted *)
| Release (r : res_id)                     (* resource.release(request) *)
| Condition (cid : nat)                    (* request | env.timeout(1) *)
| Process_ok                               (* a generator that returned *)
| Process_failed (e : exn)                 (* a generator that raised *)
| Until.                                   (* env.run(until=200) *)

Definition URGENT : nat := 0.
Definition NORMAL : nat := 1.

(** An entry of [Environment._queue]: [(time, priority, eid, event)]. *)
Record entry : Type := Entry {
  at_time : Q;
  priority : nat;
  eid : nat;
  ev : event
}.

(** [simpy.Resource] with capacity 1: the requests that hold the slot and
    the pending ones ([Resource.queue] is [put_queue]). *)
Record resource : Type := Resource {
  users : list nat;
  put_queue : list nat
}.

(** What the program can observe of a customer's [Request] and of the
    condition it waits on, with the two locals of its generator frame. *)
Record customer : Type := Customer {
  arrival_time : Q;
  cashier : res_id;
  triggered : bool;        (* request.triggered *)
  processed : bool;        (* request.callbacks is None *)
  cond_triggered : bool    (* condition._value is not PENDING *)
}.

(** Keyword arguments of [Supermarket.__init__]. *)
Record params : Type := Params {
  num_cashiers : Z;
  extra_cashier_policy : Z;
  lambda_rate : Q;
  C : Q
}.

(** Default arguments of [Supermarket.__init__]. *)
Definition default_params : params := Params 4 4 4 3.

Record state : Type := State {
  (* simpy.Environment *)
  now : Q;
  queue : list entry;
  next_eid : nat;
  history : list entry;    (* events dispatched so far, latest first *)
  (* numpy's global generator *)
  rng : nat;
  (* Supermarket *)
  cashiers : list resource;
  extra_cashier : resource;
  open_extra_cashier : bool;
  lost_customers : nat;
  profit : Q;
  waiting_times : list Q;
  (* the Request objects created so far *)
  customers : list customer
}.

Definition set_now (t : Q) (s : state) : state :=
  State t (queue s) (next_eid s) (history s) (rng s) (cashiers s)
    (extra_cashier s) (open_extra_cashier s) (lost_customers s) (profit s)
    (waiting_times s) (customers s).

Definition set_queue (q : list entry) (n : nat) (s : state) : state :=
  State (now s) q n (history s) (rng s) (cashiers s)
    (extra_cashier s) (open_extra_cashier s) (lost_customers s) (profit s)
    (waiting_times s) (customers s).

Definition set_history (h : list entry) (s : state) : state :=
  State (now s) (queue s) (next_eid s) h (rng s) (cashiers s)
    (extra_cashier s) (open_extra_cashier s) (lost_customers s) (profit s)
    (waiting_times s) (customers s).

Definition set_rng (n : nat) (s : state) : state :=
  State (now s) (queue s) (next_eid s) (history s) n (cashiers s)
    (extra_cashier s) (open_extra_cashier s) (lost_customers s) (profit s)
    (waiting_times s) (customers s).

Definition set_cashiers (l : list resource) (s : state) : state :=
  State (now s) (queue s) (next_eid s) (history s) (rng s) l
    (extra_cashier s) (open_extra_cashier s) (lost_customers s) (profit s)
    (waiting_times s) (customers s).

Definition set_extra_cashier (r : resource) (s : state) : state :=
  State (now s) (queue s) (next_eid s) (history s) (rng s) (cashiers s)
    r (open_extra_cashier s) (lost_customers s) (profit s)
    (waiting_times s) (customers s).

Definition set_open_extra_cashier (b : bool) (s : state) : state :=
  State (now s) (queue s) (next_eid s) (history s) (rng s) (cashiers s)
    (extra_cashier s) b (lost_customers s) (profit s)
    (waiting_times s) (customers s).

Definition set_lost_customers (n : nat) (s : state) : state :=
  State (now s) (queue s) (next_eid s) (history s) (rng s) (cashiers s)
    (extra_cashier s) (open_extra_cashier s) n (profit s)
    (waiting_times s) (customers s).

Definition set_profit (p : Q) (s : state) : state :=
  State (now s) (queue s) (next_eid s) (history s) (rng s) (cashiers s)
    (extra_cashier s) (open_extra_cashier s) (lost_customers s) p
    (waiting_times s) (customers s).

Definition set_waiting_times (w : list Q) (s : state) : state :=
  State (now s) (queue s) (next_eid s) (history s) (rng s) (cashiers s)
    (extra_cashier s) (open_extra_cashier s) (lost_customers s) (profit s)
    w (customers s).

Definition set_customers (c : list customer) (s : state) : state :=
  State (now s) (queue s) (next_eid s) (history s) (rng s) (cashiers s)
    (extra_cashier s) (open_extra_cashier s) (lost_customers s) (profit s)
    (waiting_times s) c.

(** ** Lists as Python uses them *)

(** [l[i] = x]; the program only writes at indices it has read. *)
Fixpoint list_set {A : Type} (i : nat) (x : A) (l : list A) {struct l} : list A :=
  match l with
  | [] => []
  | h :: t =>
      match i with
      | O => x :: t
      | S j => h :: list_set j x t
      end
  end.

(** [l.remove(x)]: drops the first occurrence, [None] for the [ValueError]
    of an absent element. *)
Fixpoint list_remove (x : nat) (l : list nat) : option (list nat) :=
  match l with
  | [] => None
  | y :: t =>
      if Nat.eqb x y then Some t
      else match list_remove x t with
           | Some t' => Some (y :: t')
           | None => None
           end
  end.

(** [list.sort(key=...)] is stable; a stable insertion sort on the keys
    gives the same list.  The elements are [(len(c.queue), c)], the cashier
    given by its index. *)
Fixpoint insert_by_key (x : nat * nat) (l : list (nat * nat)) : list (nat * nat) :=
  match l with
  | [] => [x]
  | y :: t =>
      if Nat.leb (fst x) (fst y) then x :: y :: t
      else y :: insert_by_key x t
  end.

Fixpoint sort_by_key (l : list (nat * nat)) : list (nat * nat) :=
  match l with
  | [] => []
  | x :: t => insert_by_key x (sort_by_key t)
  end.

(** ** The event heap *)

Definition Qltb (a b : Q) : bool := negb (Qle_bool b a).

(** Tuple comparison on [(time, priority, eid)]; [eid]s are distinct, so the
    events themselves are never compared. *)
Definition entry_ltb (a b : entry) : bool :=
  Qltb (at_time a) (at_time b)
  || (Qeq_bool (at_time a) (at_time b)
      && (Nat.ltb (priority a) (priority b)
          || (Nat.eqb (priority a) (priority b) && Nat.ltb (eid a) (eid b)))).

(** [heappush]: the heap is kept as the sorted list of its entries, so that
    [heappop] takes the head. *)
Fixpoint heappush (x : entry) (q : list entry) : list entry :=
  match q with
  | [] => [x]
  | y :: t => if entry_ltb x y then x :: y :: t else y :: heappush x t
  end.

(** ** Processes: state and exceptions *)

(** A piece of generator code: it changes the state and returns a value or
    raises; what it did before raising stays done. *)
Definition M (A : Type) : Type := state -> state * (exn + A).

Definition ret {A : Type} (a : A) : M A := fun s => (s, inr a).

Definition bind {A B : Type} (m : M A) (f : A -> M B) : M B :=
  fun s =>
    match m s with
    | (s', inr a) => f a s'
    | (s', inl e) => (s', inl e)
    end.

Definition raise {A : Type} (e : exn) : M A := fun s => (s, inl e).

Definition gets {A : Type} (f : state -> A) : M A := fun s => (s, inr (f s)).

Definition modify (f : state -> state) : M unit := fun s => (f s, inr tt).

Declare Scope sim_scope.
Delimit Scope sim_scope with sim.
Notation "x <- m ;; k" := (bind m (fun x => k))
  (at level 61, m at next level, right associativity) : sim_scope.
Notation "m ;; k" := (bind m (fun _ => k))
  (at level 61, right associativity) : sim_scope.

(** How a generator segment ends. *)
Inductive status : Type :=
| Suspended    (* at a yield *)
| Returned.    (* StopIteration *)

(** ** simpy *)

(** [Environment.schedule(event, priority, delay)]. *)
Definition schedule (e : event) (prio : nat) (delay : Q) (s : state) : state :=
  set_queue (heappush (Entry (now s + delay) prio (next_eid s) e) (queue s))
            (S (next_eid s)) s.

(** [env.timeout(delay)]: [Timeout.__init__] refuses a negative delay. *)
Definition timeout (delay : Q) (e : event) : M unit :=
  if Qltb delay 0 then raise ValueError
  else modify (schedule e NORMAL delay).

(** [env.process(generator)]: [Initialize] is scheduled as urgent. *)
Definition process (e : event) : M unit :=
  modify (schedule e URGENT 0).

(** [Process._resume]: runs a segment; a generator that returns or raises
    schedules its own process event. *)
Definition resume (body : M status) (s : state) : state :=
  match body s with
  | (s', inr Suspended) => s'
  | (s', inr Returned) => schedule Process_ok NORMAL 0 s'
  | (s', inl e) => schedule (Process_failed e) NORMAL 0 s'
  end.

Definition get_resource (r : res_id) (s : state) : option resource :=
  match r with
  | Regular i => nth_error (cashiers s) i
  | Extra => Some (extra_cashier s)
  end.

Definition set_resource (r : res_id) (x : resource) (s : state) : state :=
  match r with
  | Regular i => set_cashiers (list_set i x (cashiers s)) s
  | Extra => set_extra_cashier x s
  end.

Definition update_customer (cid : nat) (f : customer -> customer) (s : state) : state :=
  match nth_error (customers s) cid with
  | Some c => set_customers (list_set cid (f c) (customers s)) s
  | None => s
  end.

Definition set_triggered (c : customer) : customer :=
  Customer (arrival_time c) (cashier c) true (processed c) (cond_triggered c).

Definition set_processed (c : customer) : customer :=
  Customer (arrival_time c) (cashier c) (triggered c) true (cond_triggered c).

Definition set_cond_triggered (c : customer) : customer :=
  Customer (arrival_time c) (cashier c) (triggered c) (processed c) true.

(** [BaseResource._trigger_put] with [Resource._do_put]: the head of the
    queue gets the slot when it is free ([_do_put] returns [None], so the
    loop stops after the head). *)
Definition trigger_put (r : res_id) (s : state) : state :=
  match get_resource r s with
  | Some (Resource us (cid :: pending)) =>
      if Nat.ltb (length us) 1 then
        schedule (Request cid) NORMAL 0
          (update_customer cid set_triggered
             (set_resource r (Resource (us ++ [cid]) pending) s))
      else s
  | _ => s
  end.

(** [resource.request()] by the request [cid]: [Put.__init__]. *)
Definition request (r : res_id) (cid : nat) (s : state) : state :=
  match get_resource r s with
  | Some (Resource us pending) =>
      trigger_put r (set_resource r (Resource us (pending ++ [cid])) s)
  | None => s
  end.

(** [resource.release(request)]: [Release.__init__] with [_do_get]; the
    request leaves [users] if it is there, and the release event is
    scheduled. *)
Definition release (r : res_id) (cid : nat) (s : state) : state :=
  match get_resource r s with
  | Some (Resource us pending) =>
      let us' := match list_remove cid us with Some l => l | None => us end in
      schedule (Release r) NORMAL 0 (set_resource r (Resource us' pending) s)
  | None => s
  end.

(** [Put.cancel]: a request not yet triggered leaves the queue. *)
Definition cancel (r : res_id) (cid : nat) (c : customer) : M unit :=
  fun s =>
    if triggered c then (s, inr tt)
    else match get_resource r s with
         | Some (Resource us pending) =>
             match list_remove cid pending with
             | Some pending' => (set_resource r (Resource us pending') s, inr tt)
             | None => (s, inl ValueError)
             end
         | None => (s, inr tt)
         end.

(** [Request.__exit__]: cancel, then release. *)
Definition request_exit (cid : nat) : M unit :=
  fun s =>
    match nth_error (customers s) cid with
    | Some c =>
        match cancel (cashier c) cid c s with
        | (s', inr _) => (release (cashier c) cid s', inr tt)
        | (s', inl e) => (s', inl e)
        end
    | None => (s, inr tt)
    end.

(** The [with] statement around a segment: [__exit__] runs when the block is
    left, by its end or by an exception, not at a yield. *)
Definition with_request (cid : nat) (body : M status) : M status :=
  fun s =>
    match body s with
    | (s', inr Suspended) => (s', inr Suspended)
    | (s', inr Returned) =>
        match request_exit cid s' with
        | (s'', inr _) => (s'', inr Returned)
        | (s'', inl e) => (s'', inl e)
        end
    | (s', inl e) =>
        match request_exit cid s' with
        | (s'', inr _) => (s'', inl e)
        | (s'', inl e') => (s'', inl e')
        end
    end.

(** [Condition._check] of [request | timeout]: the first of the two events
    to be processed triggers the condition. *)
Definition condition_check (cid : nat) (s : state) : state :=
  match nth_error (customers s) cid with
  | Some c =>
      if cond_triggered c then s
      else schedule (Condition cid) NORMAL 0
             (update_customer cid set_cond_triggered s)
  | None => s
  end.

(** ** Supermarket *)

Section Supermarket.

Variable P : params.
Variable draws : nat -> Q.

Local Open Scope sim_scope.

(** [Supermarket.__init__], in a fresh [simpy.Environment]; the generator
    keeps its position [n] from one replication to the next. *)
Definition Supermarket (n : nat) : state :=
  State 0 [] 0 [] n
    (repeat (Resource [] []) (Z.to_nat (num_cashiers P)))
    (Resource [] []) false 0%nat 0 [] [].

(** [np.random.exponential(scale)]: a negative scale is refused before
    anything is drawn. *)
Definition exponential (scale : Q) : M Q :=
  fun s =>
    if Qltb scale 0 then (s, inl ValueError)
    else (set_rng (S (rng s)) s, inr (scale * draws (rng s))).

(** [a / b] on Python's ints and floats, for a divisor in the range of
    doubles: beyond it an int divisor raises [OverflowError], which is not
    modelled, and the zero of a numpy type divides to an infinity. *)
Definition py_div (a b : Q) : M Q :=
  if Qeq_bool b 0 then raise ZeroDivisionError else ret (a / b).

(** [customer_arrival], one turn of the loop up to its [yield]. *)
Definition customer_arrival : M status :=
  scale <- py_div 1 (lambda_rate P) ;;
  arrival_interval <- exponential scale ;;
  timeout arrival_interval Timeout_arrival ;;
  ret Suspended.

(** [customer_arrival] after its [yield]: the customer is spawned and the
    loop turns again. *)
Definition customer_arrival_resumed : M status :=
  arrival_time <- gets now ;;
  process (Initialize_customer arrival_time) ;;
  customer_arrival.

(** [open_extra_cashier_process] up to its [yield]. *)
Definition open_extra_cashier_process : M status :=
  is_open <- gets open_extra_cashier ;;
  if negb is_open then
    modify (set_open_extra_cashier true) ;;
    timeout 2 Timeout_overflow ;;
    ret Suspended
  else ret Returned.

(** [open_extra_cashier_process] after its [yield]. *)
Definition open_extra_cashier_process_resumed : M status :=
  modify (set_open_extra_cashier false) ;;
  modify (fun s => set_profit (profit s - 2 * C P) s) ;;
  ret Returned.

(** The list [queues] of [choose_cashier], sorted. *)
Definition sorted_queues (s : state) : list (nat * nat) :=
  sort_by_key
    (combine (map (fun c => length (put_queue c)) (cashiers s))
             (seq 0 (length (cashiers s)))).

(** [choose_cashier]: the resource to join, [None] for Python's [None]. *)
Definition choose_cashier : M (option res_id) :=
  queues <- gets sorted_queues ;;
  match queues with
  | [] => raise IndexError
  | (min_queue, min_cashier) :: _ =>
      is_open <- gets open_extra_cashier ;;
      if is_open then ret (Some Extra)
      else
        (if negb is_open && (extra_cashier_policy P <=? Z.of_nat min_queue)%Z
         then process Initialize_overflow
         else ret tt) ;;
        ret (if Nat.ltb min_queue 5 then Some (Regular min_cashier) else None)
  end.

(** [cashier.request()]: a new [Request], appended to the queue. *)
Definition new_request (arrival : Q) (r : res_id) : M nat :=
  fun s =>
    let cid := length (customers s) in
    (request r cid
       (set_customers (customers s ++ [Customer arrival r false false false]) s),
     inr cid).

(** [customer_process] up to its [yield]. *)
Definition customer_process (arrival : Q) : M status :=
  chosen <- choose_cashier ;;
  match chosen with
  | Some r =>
      cid <- new_request arrival r ;;
      with_request cid
        (timeout 1 (Timeout_patience cid) ;;
         ret Suspended)
  | None =>
      modify (fun s => set_lost_customers (S (lost_customers s)) s) ;;
      ret Returned
  end.

(** [customer_process] after the race: [request in result] holds when the
    request event was processed before the condition. *)
Definition customer_process_resumed (cid : nat) : M status :=
  fun s =>
    match nth_error (customers s) cid with
    | Some c =>
        with_request cid
          (if processed c then
             service_start_time <- gets now ;;
             modify (fun s => set_waiting_times
                        (waiting_times s ++ [service_start_time - arrival_time c]) s) ;;
             service_time <- exponential 1 ;;
             timeout service_time (Timeout_service cid) ;;
             ret Suspended
           else
             modify (fun s => set_lost_customers (S (lost_customers s)) s) ;;
             ret Returned) s
    | None => (s, inr Returned)
    end.

(** [customer_process] after the service. *)
Definition customer_process_served (cid : nat) : M status :=
  with_request cid
    (modify (fun s => set_profit (profit s + 10) s) ;;
     ret Returned).

(** The callbacks of a dispatched event. *)
Definition dispatch (e : event) (s : state) : state :=
  match e with
  | Initialize_arrival => resume customer_arrival s
  | Timeout_arrival => resume customer_arrival_resumed s
  | Initialize_customer arrival => resume (customer_process arrival) s
  | Initialize_overflow => resume open_extra_cashier_process s
  | Timeout_overflow => resume open_extra_cashier_process_resumed s
  | Timeout_patience cid => condition_check cid s
  | Request cid => condition_check cid (update_customer cid set_processed s)
  | Condition cid => resume (customer_process_resumed cid) s
  | Timeout_service cid => resume (customer_process_served cid) s
  | Release r => trigger_put r s
  | Process_ok | Process_failed _ | Until => s
  end.

(** What [Environment.step] can do. *)
Inductive outcome : Type :=
| Next (s : state)          (* the event was processed *)
| Stop (s : state)          (* StopSimulation: the until event *)
| Raise (e : exn) (s : state)   (* a failed process *)
| EmptySchedule.

(** [Environment.step]. *)
Definition step (s : state) : outcome :=
  match queue s with
  | [] => EmptySchedule
  | e :: q =>
      let s1 := set_history (e :: history s)
                  (set_now (at_time e) (set_queue q (next_eid s) s)) in
      match ev e with
      | Until => Stop s1
      | Process_failed x => Raise x s1
      | x => Next (dispatch x s1)
      end
  end.

(** The result of [env.run(until=200)], when [fuel] events are enough. *)
Inductive run_result : Type :=
| Finished (s : state)
| Raised (e : exn)
| OutOfFuel.

Fixpoint run (fuel : nat) (s : state) : run_result :=
  match fuel with
  | O => OutOfFuel
  | S fuel' =>
      match step s with
      | Next s' => run fuel' s'
      | Stop s' => Finished s'
      | Raise e _ => Raised e
      | EmptySchedule => Raised RuntimeError
      end
  end.

(** The body of the loop of [simulate] up to [env.run]. *)
Definition start (n : nat) : state :=
  schedule Until URGENT 200 (schedule Initialize_arrival URGENT 0 (Supermarket n)).

Definition replication (fuel n : nat) : run_result := run fuel (start n).

End Supermarket.

(** ** Runs *)

Section Runs.

Variable P : params.
Variable draws : nat -> Q.

(** The state after [k] more events, when none of them ends the run. *)
Fixpoint steps (k : nat) (s : state) : option state :=
  match k with
  | O => Some s
  | S k' =>
      match step P draws s with
      | Next s' => steps k' s'
      | _ => None
      end
  end.

(** The states of a replication. *)
Inductive reachable : state -> Prop :=
| reachable_start (n : nat) : reachable (start P n)
| reachable_step (s s' : state) :
    reachable s -> step P draws s = Next s' -> reachable s'.

End Runs.

(** ** Aggregation: [simulate]

    numpy's float arithmetic is taken on the real numbers, extended with
    the not-a-number value that an undefined operation gives and that every
    operation hands on.  In [simulate] a division by zero only happens with
    a zero or not-a-number numerator, so infinities are left out: this is
    numpy's arithmetic, up to rounding, as long as the profits stay in the
    range of doubles.  A profit beyond it would make a sum an infinity, or
    make [np.mean] raise [OverflowError] on an int. *)

Local Open Scope R_scope.

Inductive npfloat : Type :=
| NaN
| Val (x : R).

Definition np_lift2 (f : R -> R -> R) (a b : npfloat) : npfloat :=
  match a, b with
  | Val x, Val y => Val (f x y)
  | _, _ => NaN
  end.

Definition np_add : npfloat -> npfloat -> npfloat := np_lift2 Rplus.
Definition np_sub : npfloat -> npfloat -> npfloat := np_lift2 Rminus.
Definition np_mul : npfloat -> npfloat -> npfloat := np_lift2 Rmult.

Definition np_div (a b : npfloat) : npfloat :=
  match a, b with
  | Val x, Val y => if Req_dec_T y 0 then NaN else Val (x / y)
  | _, _ => NaN
  end.

Definition np_abs (a : npfloat) : npfloat :=
  match a with
  | Val x => Val (Rabs x)
  | NaN => NaN
  end.

Definition np_sqrt (a : npfloat) : npfloat :=
  match a with
  | Val x => if Rlt_dec x 0 then NaN else Val (sqrt x)
  | NaN => NaN
  end.

Definition np_sum (l : list npfloat) : npfloat := fold_right np_add (Val 0) l.

(** [np.mean(l)]: the sum over the length, not-a-number for an empty list. *)
Definition np_mean (l : list npfloat) : npfloat :=
  np_div (np_sum l) (Val (INR (length l))).

(** [np.std(l)] with its default [ddof=0]:
    [sqrt(mean(abs(l - mean(l))**2))]. *)
Definition np_std (l : list npfloat) : npfloat :=
  let m := np_mean l in
  np_sqrt (np_mean (map (fun x => let d := np_abs (np_sub x m) in np_mul d d) l)).

(** The statistics [simulate] returns:
    [(mean_profit, ci_profit), (mean_waiting_time, ci_waiting_time)]. *)
Definition statistics : Type := (npfloat * npfloat) * (npfloat * npfloat).

(** The half-width [1.96 * np.std(l) / np.sqrt(num_runs)]. *)
Definition half_width (num_runs : nat) (l : list npfloat) : npfloat :=
  np_div (np_mul (Val (196 / 100)) (np_std l)) (np_sqrt (Val (INR num_runs))).

(** [simulate] after its loop, on the three lists the loop filled. *)
Definition aggregate (num_runs : nat)
    (profits avg_waiting_times : list npfloat) (lost_customers : list nat)
  : statistics :=
  let mean_profit := np_mean profits in
  let ci_profit := half_width num_runs profits in
  let mean_waiting_time := np_mean avg_waiting_times in
  let ci_waiting_time := half_width num_runs avg_waiting_times in
  ((mean_profit, ci_profit), (mean_waiting_time, ci_waiting_time)).

(** A number of the run as numpy reads it, in the range of doubles. *)
Definition of_Q (q : Q) : npfloat := Val (Q2R q).

(** What the loop appends to the three lists for the replications that
    ended in the states [runs]. *)
Definition summarize (num_runs : nat) (runs : list state) : statistics :=
  aggregate num_runs
    (map (fun s => of_Q (profit s)) runs)
    (map (fun s => np_mean (map of_Q (waiting_times s))) runs)
    (map lost_customers runs).

(** The outcome of a call. *)
Inductive result (A : Type) : Type :=
| Returns (a : A)
| Raises (e : exn)
| Unfinished.

Arguments Returns {A} a.
Arguments Raises {A} e.
Arguments Unfinished {A}.

Section Simulate.

Variable P : params.
Variable draws : nat -> Q.
Variable fuel : nat.

(** The loop of [simulate]: the final states of [num_runs] replications,
    the first one drawing from position [n] of the generator. *)
Fixpoint replications (num_runs n : nat) : result (list state) :=
  match num_runs with
  | O => Returns []
  | S k =>
      match replication P draws fuel n with
      | Finished s =>
          match replications k (rng s) with
          | Returns l => Returns (s :: l)
          | Raises e => Raises e
          | Unfinished => Unfinished
          end
      | Raised e => Raises e
      | OutOfFuel => Unfinished
      end
  end.

(** [simulate(supermarket_params, num_runs)]. *)
Definition simulate (num_runs : nat) : result statistics :=
  match replications num_runs 0 with
  | Returns runs => Returns (summarize num_runs runs)
  | Raises e => Raises e
  | Unfinished => Unfinished
  end.

End Simulate.

(** ** Standard deviations on the real numbers *)

Definition Rsum (l : list R) : R := fold_right Rplus 0 l.

Definition Rmean (l : list R) : R := Rsum l / INR (length l).

(** The sum of the squared deviations from the mean. *)
Definition sum_sq_dev (l : list R) : R :=
  Rsum (map (fun x => (x - Rmean l) * (x - Rmean l)) l).

(** The sample standard deviation: divisor [n - 1]. *)
Definition sample_std (l : list R) : R :=
  sqrt (sum_sq_dev l / (INR (length l) - 1)).

(** The population standard deviation: divisor [n]. *)
Definition population_std (l : list R) : R :=
  sqrt (sum_sq_dev l / INR (length l)).

(** The half-width as the specification words it: 1.96 times the sample
    standard deviation over the square root of the number of runs. *)
Definition spec_half_width (l : list R) : R :=
  196 / 100 * sample_std l / sqrt (INR (length l)).

Local Close Scope R_scope.

(** ** The script: the sweep over policies, rates and costs

    [results] is a Python dict keyed by [(policy, lambda_rate)]; it is kept
    as the list of its items in insertion order.  numpy's generator is
    global, so each call of [simulate] draws from where the call before
    stopped. *)

Definition key : Type := (Z * Q)%type.

Definition key_eqb (a b : key) : bool :=
  Z.eqb (fst a) (fst b) && Qeq_bool (snd a) (snd b).

Definition table : Type := list (key * statistics).

(** [results[k]]: [None] for [KeyError]. *)
Fixpoint dict_get (k : key) (d : table) : option statistics :=
  match d with
  | [] => None
  | (k', v) :: t => if key_eqb k k' then Some v else dict_get k t
  end.

(** [results[k] = v]: a key already there keeps its place. *)
Fixpoint dict_set (k : key) (v : statistics) (d : table) : table :=
  match d with
  | [] => [(k, v)]
  | (k', v') :: t =>
      if key_eqb k k' then (k', v) :: t else (k', v') :: dict_set k v t
  end.

Definition policies : list Z := [0; 2; 4; 6]%Z.

(** [np.arange(1, 10, 1)]. *)
Definition lambda_rates : list Q := map inject_Z [1; 2; 3; 4; 5; 6; 7; 8; 9]%Z.


(** [Supermarket(env, **params)] with the keys the script gives:
    [num_cashiers] keeps its default. *)
Definition script_params (policy : Z) (lambda_rate C : Q) : params :=
  Params 4 policy lambda_rate C.

Section Script.

Variable draws : nat -> Q.

Variable fuel : nat.

(** The position of the generator after the replications [runs]. *)
Definition end_rng (n : nat) (runs : list state) : nat := last (map rng runs) n.

(** [simulate(params)] called when the generator is at position [n]: the
    statistics and the position it leaves the generator at. *)
Definition simulate_from (P : params) (num_runs n : nat) : result (statistics * nat) :=
  match replications P draws fuel num_runs n with
  | Returns runs => Returns (summarize num_runs runs, end_rng n runs)
  | Raises e => Raises e
  | Unfinished => Unfinished
  end.

(** The loop over [lambda_rates]. *)
Fixpoint sweep_rates (C : Q) (policy : Z) (rates : list Q) (n : nat) (results : table)
  : result (table * nat) :=
  match rates with
  | [] => Returns (results, n)
  | lambda_rate :: rest =>
      match simulate_from (script_params policy lambda_rate C) 30 n with
      | Returns (st, n') =>
          sweep_rates C policy rest n' (dict_set (policy, lambda_rate) st results)
      | Raises e => Raises e
      | Unfinished => Unfinished
      end
  end.

(** The loop over [policies]. *)
Fixpoint sweep_policies (C : Q) (ps : list Z) (n : nat) (results : table)
  : result (table * nat) :=
  match ps with
  | [] => Returns (results, n)
  | policy :: rest =>
      match sweep_rates C policy lambda_rates n results with
      | Returns (results', n') => sweep_policies C rest n' results'
      | Raises e => Raises e
      | Unfinished => Unfinished
      end
  end.

(** The body of the loop over [C_values] up to the plot. *)
Definition sweep (C : Q) (n : nat) : result (table * nat) :=
  sweep_policies C policies n [].

(** [[results[(policy, lr)] for lr in lambda_rates]]. *)
Fixpoint lookups (policy : Z) (rates : list Q) (results : table)
  : option (list statistics) :=
  match rates with
  | [] => Some []
  | lr :: rest =>
      match dict_get (policy, lr) results with
      | Some st =>
          match lookups policy rest results with
          | Some l => Some (st :: l)
          | None => None
          end
      | None => None
      end
  end.

(** The two lists [plt.errorbar] is given for one policy. *)
Definition curve (policy : Z) (results : table)
  : option (list npfloat * list npfloat) :=
  match lookups policy lambda_rates results with
  | Some l => Some (map (fun st => fst (fst st)) l, map (fun st => snd (fst st)) l)
  | None => None
  end.


End Script.

(** * Properties *)

Definition is_service_done (e : entry) : bool :=
  match ev e with Timeout_service _ => true | _ => false end.

Definition is_overflow_timeout (e : entry) : bool :=
  match ev e with Timeout_overflow => true | _ => false end.


(** Customers whose service completed: the service timeouts dispatched. *)
Definition served_count (s : state) : nat :=
  length (filter is_service_done (history s)).

(** Activation windows charged: the overflow timeouts dispatched. *)
Definition activation_count (s : state) : nat :=
  length (filter is_overflow_timeout (history s)).

Definition Qnat (n : nat) : Q := inject_Z (Z.of_nat n).

Definition accounted (P : params) (s : state) : Prop :=
  profit s == 10 * Qnat (served_count s) - 2 * C P * Qnat (activation_count s).

Definition short_queue (c : resource) : Prop := (length (put_queue c) <= 5)%nat.

Definition bounded (s : state) : Prop := Forall short_queue (cashiers s).




Definition res_id_eq_dec (r r' : res_id) : {r = r'} + {r <> r'}.
Proof. decide equality. apply Nat.eq_dec. Defined.




(** What the time of a pending event says about the customer it is for. *)
Definition entry_ok (cs : list customer) (x : entry) : Prop :=
  match ev x with
  | Initialize_customer a => at_time x == a
  | Timeout_patience cid =>
      exists c, nth_error cs cid = Some c /\ at_time x == arrival_time c + 1
  | Condition cid =>
      exists c, nth_error cs cid = Some c /\
        (processed c = true \/ at_time x == arrival_time c + 1)
  | _ => True
  end.

(** Every pending event is at the time its customer's arrival gives it. *)
Definition timed (s : state) : Prop := Forall (entry_ok (customers s)) (queue s).

(** The table of requests only grows, arrival times stay, and a processed
    request stays processed. *)
Definition grows (cs cs' : list customer) : Prop :=
  forall cid c, nth_error cs cid = Some c ->
    exists c', nth_error cs' cid = Some c' /\
      arrival_time c' = arrival_time c /\
      (processed c = true -> processed c' = true).

(** From [s] to [s'] the table grew and the new pending events are timed. *)
Definition ext (s s' : state) : Prop :=
  grows (customers s) (customers s') /\
  now s' = now s /\
  forall x, In x (queue s') -> In x (queue s) \/ entry_ok (customers s') x.

(** The heap as a list is in time order. *)
Fixpoint sorted (q : list entry) : Prop :=
  match q with
  | [] => True
  | x :: t => Forall (fun y => at_time x <= at_time y) t /\ sorted t
  end.

(** The heap is in time order, nothing pending is in the past, and the
    until event is at the horizon. *)
Definition causal (s : state) : Prop :=
  sorted (queue s) /\
  Forall (fun x => now s <= at_time x) (queue s) /\
  Forall (fun x => ev x = Until -> at_time x == 200) (queue s).

(** [q'] is [q] after pushes of entries that are not before [t], none of
    them the until event. *)
Inductive later (t : Q) (q : list entry) : list entry -> Prop :=
| later_refl : later t q q
| later_push (x : entry) (q' : list entry) :
    later t q q' -> t <= at_time x -> ev x <> Until ->
    later t q (heappush x q').

(** Without a regular cashier the overflow process is never started. *)
Definition never_opened (s : state) : Prop :=
  cashiers s = [] ->
  open_extra_cashier s = false /\
  forall x, In x (queue s) -> ev x <> Initialize_overflow.

(** The mean lost-customer count of the replications. *)
Definition mean_lost (runs : list state) : npfloat :=
  np_mean (map (fun s => Val (INR (lost_customers s))) runs).

(** The same keyword arguments with another [C]. *)
Definition with_C (P : params) (c : Q) : params :=
  Params (num_cashiers P) (extra_cashier_policy P) (lambda_rate P) c.

(** What the profit becomes when an event is dispatched, with cost [c]. *)
Definition profit_after (c : Q) (e : event) (p : Q) : Q :=
  match e with
  | Timeout_service _ => p + 10
  | Timeout_overflow => p - 2 * c
  | _ => p
  end.

(** The numbers that an int64 and a double both hold exactly: at most
    [2^53] in absolute value.  Beyond the range of doubles an int raises
    [OverflowError] when numpy or a division converts it, and a float sum
    overflows to an infinity. *)
Definition in_double_range (x : Q) : Prop :=
  - inject_Z (2 ^ 53) <= x /\ x <= inject_Z (2 ^ 53).

(** A piece of code that neither reads nor writes the profit runs the same
    whatever the profit is. *)
Definition blind {A : Type} (m : M A) : Prop :=
  forall s p, m (set_profit p s) = (set_profit p (fst (m s)), snd (m s)).

(** The pool keeps the size [Supermarket.__init__] gave it. *)
Definition pool_size (P : params) (s : state) : Prop :=
  length (cashiers s) = Z.to_nat (num_cashiers P).

(** The number of pending or dispatched events of one kind. *)
Definition count_events (p : event -> bool) (l : list entry) : nat :=
  length (filter (fun x => p (ev x)) l).


Definition is_arrival (e : event) : bool :=
  match e with Timeout_arrival => true | _ => false end.

Definition is_customer_start (e : event) : bool :=
  match e with Initialize_customer _ => true | _ => false end.

Definition is_race_end (e : event) : bool :=
  match e with Condition _ => true | _ => false end.

Definition is_service_end (e : event) : bool :=
  match e with Timeout_service _ => true | _ => false end.

(** The variates of an exponential distribution are not negative. *)
Definition nonneg_draws (draws : nat -> Q) : Prop := forall n, 0 <= draws n.

(** A waiting time is recorded for each service, completed or under way. *)
Definition service_balanced (s : state) : Prop :=
  length (waiting_times s)
  = (served_count s + count_events is_service_end (queue s))%nat.

(** The arrivals are as many as the customer processes, started or about
    to start. *)
Definition spawn_balanced (s : state) : Prop :=
  count_events is_arrival (history s)
  = (count_events is_customer_start (history s)
     + count_events is_customer_start (queue s))%nat.

(** The until event is still ahead. *)
Definition until_pending (s : state) : Prop :=
  exists x, In x (queue s) /\ ev x = Until.

(** Customers accounted for: lost, served or being served, or holding a
    request whose race is not over. *)
Definition census (s : state) : nat :=
  (lost_customers s + length (waiting_times s) + length (customers s))%nat.

(** A resource has one slot. *)
Definition one_at_a_time (s : state) : Prop :=
  forall r res, get_resource r s = Some res -> (length (users res) <= 1)%nat.

(** What the race of a request depends on. *)
Definition race (c : customer) : Q * bool := (arrival_time c, cond_triggered c).

(** The patience timeout of the request [cid] is pending. *)
Definition patience_pending (cid : nat) (q : list entry) : Prop :=
  exists x, In x q /\ ev x = Timeout_patience cid.

(** The races under way: no request is from the future; the patience
    timeout of a race that is not decided is pending (but for the request
    [ex], whose timeout is being dispatched or scheduled); a decided race
    resumes its customer within one time unit of the arrival; and the
    recorded waiting times are within the patience. *)
Definition racing (ex : option nat) (s : state) : Prop :=
  (forall cid c, nth_error (customers s) cid = Some c -> arrival_time c <= now s) /\
  (forall cid c, nth_error (customers s) cid = Some c -> cond_triggered c = false ->
     patience_pending cid (queue s) \/ ex = Some cid) /\
  (forall x cid, In x (queue s) -> ev x = Condition cid ->
     exists c, nth_error (customers s) cid = Some c /\
       arrival_time c <= at_time x /\ at_time x <= arrival_time c + 1) /\
  (forall w, In w (waiting_times s) -> 0 <= w /\ w <= 1).

(** A change that leaves the races as they are: it decides none, starts
    none and records no waiting time. *)
Definition quiet (s s' : state) : Prop :=
  now s' = now s /\ waiting_times s' = waiting_times s /\
  (forall cid, option_map race (nth_error (customers s') cid)
               = option_map race (nth_error (customers s) cid)) /\
  (forall x, In x (queue s) -> In x (queue s')) /\
  (forall x, In x (queue s') -> In x (queue s) \/ forall cid, ev x <> Condition cid).

(** A piece of generator code that leaves the races as they are. *)
Definition quietM {A : Type} (m : M A) : Prop := forall s, quiet s (fst (m s)).

(** The request [cid] is pending at the resource [r]. *)
Definition waiting (cid : nat) (r : res_id) (s : state) : Prop :=
  exists res, get_resource r s = Some res /\ In cid (put_queue res).

(** The resumption of the customer of the request [cid] from its race, and
    the end of its service. *)
Definition is_condition (cid : nat) (e : event) : bool :=
  match e with Condition i => Nat.eqb i cid | _ => false end.

Definition is_service (cid : nat) (e : event) : bool :=
  match e with Timeout_service i => Nat.eqb i cid | _ => false end.

(** Events that are about no request. *)
Definition plain (e : event) : Prop :=
  match e with
  | Request _ | Timeout_service _ | Condition _ | Process_failed _ => False
  | _ => True
  end.

(** What a pending event needs of its request. *)
Definition entry_sound (s : state) (x : entry) : Prop :=
  match ev x with
  | Request cid | Timeout_service cid =>
      exists c, nth_error (customers s) cid = Some c /\ triggered c = true
  | Condition cid =>
      exists c, nth_error (customers s) cid = Some c /\ cond_triggered c = true /\
        (triggered c = false -> waiting cid (cashier c) s)
  | Process_failed _ => False
  | _ => True
  end.

(** No process has failed; a request is processed only once granted; a
    request neither granted nor decided is in the queue of its resource;
    a race is decided once; the pending events are about requests in the
    state they need; and the queues hold requests made to their resource. *)
Definition sound (s : state) : Prop :=
  (forall cid c, nth_error (customers s) cid = Some c ->
     (processed c = true -> triggered c = true) /\
     (triggered c = false -> cond_triggered c = false ->
        waiting cid (cashier c) s)) /\
  (forall cid, (count_events (is_condition cid) (queue s) <= 1)%nat) /\
  (forall x, In x (queue s) -> entry_sound s x) /\
  (forall r res cid, get_resource r s = Some res -> In cid (put_queue res) ->
     exists c, nth_error (customers s) cid = Some c /\ cashier c = r).

(** A change that touches no request and no resource. *)
Definition calm (s s' : state) : Prop :=
  customers s' = customers s /\ cashiers s' = cashiers s /\
  extra_cashier s' = extra_cashier s /\
  (forall x, In x (queue s') -> In x (queue s) \/ plain (ev x)) /\
  (forall cid, count_events (is_condition cid) (queue s')
               = count_events (is_condition cid) (queue s)) /\
  (forall cid, count_events (is_service cid) (queue s')
               = count_events (is_service cid) (queue s)).

(** A piece of generator code that touches no request and no resource. *)
Definition calmM {A : Type} (m : M A) : Prop := forall s, calm s (fst (m s)).

(** The request [cid] needs its place in the queue no more. *)
Definition settled (cid : nat) (s : state) : Prop :=
  forall c, nth_error (customers s) cid = Some c ->
    triggered c = true \/
    (cond_triggered c = true /\
     count_events (is_condition cid) (queue s) = 0%nat).

(** The request [cid] holds the slot of the resource [r]. *)
Definition holding (cid : nat) (r : res_id) (s : state) : Prop :=
  exists res, get_resource r s = Some res /\ In cid (users res).

(** The customer of the request [cid] is still inside its [with] block:
    its race is not decided, or it is about to be resumed from the race, or
    it is being served. *)
Definition busy (cid : nat) (c : customer) (s : state) : Prop :=
  cond_triggered c = false \/
  (1 <= count_events (is_condition cid) (queue s))%nat \/
  (1 <= count_events (is_service cid) (queue s))%nat.

(** A granted request holds its slot as long as its customer is busy; a
    customer is resumed from the race or from the service, once. *)
Definition serving (s : state) : Prop :=
  (forall cid c, nth_error (customers s) cid = Some c -> triggered c = true ->
     busy cid c s -> holding cid (cashier c) s) /\
  (forall cid, (count_events (is_service cid) (queue s)
                + count_events (is_condition cid) (queue s) <= 1)%nat) /\
  (forall cid c, nth_error (customers s) cid = Some c ->
     (1 <= count_events (is_service cid) (queue s))%nat ->
     cond_triggered c = true).

(** The overflow process was never started: the flag is false, neither its
    start nor its timeout is pending, and no window was charged. *)
Definition dormant (s : state) : Prop :=
  open_extra_cashier s = false /\
  (forall x, In x (queue s) ->
     ev x <> Initialize_overflow /\ ev x <> Timeout_overflow) /\
  activation_count s = 0%nat.

(** The profit and the mean wait of a replication, as real numbers. *)
Definition final_profit (s : state) : R := Q2R (profit s).

Definition mean_wait (s : state) : R := Rmean (map Q2R (waiting_times s)).

(** The keys are pairwise different. *)
Fixpoint distinct (keys : list key) : bool :=
  match keys with
  | [] => true
  | k :: t => forallb (fun k' => negb (key_eqb k k')) t && distinct t
  end.

(** No item of the table has the key [k]. *)
Definition absent (k : key) (d : table) : Prop :=
  forall kv, In kv d -> key_eqb k (fst kv) = false.

(** The two loops as one, over the keys in the order the loops make them. *)
Fixpoint sweep_keys (draws : nat -> Q) (fuel : nat) (C : Q) (keys : list key)
    (n : nat) (results : table) : result (table * nat) :=
  match keys with
  | [] => Returns (results, n)
  | k :: rest =>
      match simulate_from draws fuel (script_params (fst k) (snd k) C) 30 n with
      | Returns (st, n') => sweep_keys draws fuel C rest n' (dict_set k st results)
      | Raises e => Raises e
      | Unfinished => Unfinished
      end
  end.

(** What [plt.errorbar] accepts as data and as error bars. *)
Definition is_number (x : npfloat) : Prop := exists m, x = Val m.

Definition is_error_bar (x : npfloat) : Prop := exists h, x = Val h /\ (0 <= h)%R.

(** * Example runs *)

Definition two_cashiers : state :=
  State 0 [] 0 [] 0 [Resource [0%nat] [1%nat]; Resource [2%nat] []]
    (Resource [] []) false 0 0 [] [].

(** One cashier, policy 0: the customer arriving at time 1 opens the
    overflow window and is served by the cashier until time 2. *)
Definition one_customer_params : params := Params 1 0 1 3.
Definition one_customer_draws (n : nat) : Q := nth n [1; 300; 1] 300.

(** Six customers in a tenth of a time unit each, one cashier, policy 6:
    the first is served for 10 time units, five wait, the seventh finds a
    queue of 5. *)
Definition crowded_params : params := Params 1 6 1 3.
Definition crowded_draws (n : nat) : Q :=
  nth n [1#10; 1#10; 10; 1#10; 1#10; 1#10; 1#10; 1#10; 300] 300.

(** The crowded run when the seventh customer's process is about to start. *)
Definition crowded_state : state :=
  Eval vm_compute in
    match steps crowded_params crowded_draws 16 (start crowded_params 0) with
    | Some s => s
    | None => start crowded_params 0
    end.

(** The one-customer run just before its overflow window closes. *)
Definition window_state : state :=
  Eval vm_compute in
    match steps one_customer_params one_customer_draws 10
                (start one_customer_params 0) with
    | Some s => s
    | None => start one_customer_params 0
    end.



(** The crowded run when the second customer, still waiting after one time
    unit, is resumed from its race. *)
Definition renege_state : state :=
  Eval vm_compute in
    match steps crowded_params crowded_draws 20 (start crowded_params 0) with
    | Some s => s
    | None => start crowded_params 0
    end.

(** Two replications: no arrival before the horizon in the first, one
    customer served in the second. *)
Definition mixed_draws (n : nat) : Q := nth n [300; 1; 300; 1]%Q 300%Q.

Definition mixed_runs : list state :=
  Eval vm_compute in
    match replications crowded_params mixed_draws 30 2 0 with
    | Returns l => l
    | _ => []
    end.

(** One customer served, and the same with a second customer who gives up
    after one time unit in the queue. *)
Definition patient_draws (n : nat) : Q := nth n [1; 300; 5]%Q 300%Q.
Definition impatient_draws (n : nat) : Q := nth n [1; 1#2; 5; 300]%Q 300%Q.

Definition patient_run : list state :=
  Eval vm_compute in
    match replications crowded_params patient_draws 40 1 0 with
    | Returns l => l
    | _ => []
    end.

Definition impatient_run : list state :=
  Eval vm_compute in
    match replications crowded_params impatient_draws 40 1 0 with
    | Returns l => l
    | _ => []
    end.

Definition zero_rate_params : params := Params 4 4 0 3.
Definition negative_rate_params : params := Params 4 4 (-1) 3.
Definition no_cashier_params : params := Params 0 4 1 3.
Definition negative_cost_params : params := Params 1 0 1 (-3).

Definition negative_cost_run : list state :=
  Eval vm_compute in
    match replications negative_cost_params one_customer_draws 20 1 0 with
    | Returns l => l
    | _ => []
    end.

(** Two customers, one cashier: the second arrives while the first is
    served, waits 0.4 time units in the queue and is served in turn.  The
    state is the one in which the second service is under way. *)
Definition queueing_draws (n : nat) : Q := nth n [1#10; 1#10; 1#2; 300; 1] 300.

Definition queueing_state : state :=
  Eval vm_compute in
    match steps crowded_params queueing_draws 12 (start crowded_params 0) with
    | Some s => s
    | None => start crowded_params 0
    end.

(** The second customer's pending end of service. *)
Definition queueing_service : entry :=
  Eval vm_compute in nth 2 (queue queueing_state) (Entry 0 0 0 Until).

(** No arrival before the horizon, whatever the rate of the sweep. *)
Definition idle_draws (n : nat) : Q := 3000.

(** * Proofs *)


(** ** Routing: [choose_cashier] *)

Lemma insert_by_key_not_nil (x : nat * nat) (l : list (nat * nat)) :
  insert_by_key x l <> [].
Proof.
  destruct l as [|y t]; simpl; [discriminate|].
  destruct (Nat.leb (fst x) (fst y)); discriminate.
Qed.

Lemma sort_by_key_nil (l : list (nat * nat)) : sort_by_key l = [] -> l = [].
Proof.
  destruct l as [|x t]; simpl; intros H; [reflexivity|].
  exfalso; exact (insert_by_key_not_nil _ _ H).
Qed.

(** The head of the sorted list of [(len(c.queue), index)] pairs is the
    first cashier, in list order, among those of least queue length. *)
Lemma sort_by_key_head (cs : list resource) :
  forall (k : nat) (x : nat * nat) (t : list (nat * nat)),
    sort_by_key (combine (map (fun c => length (put_queue c)) cs)
                         (seq k (length cs))) = x :: t ->
    (k <= snd x)%nat /\
    (exists c, nth_error cs (snd x - k) = Some c /\ length (put_queue c) = fst x) /\
    (forall j c', nth_error cs j = Some c' ->
       (fst x <= length (put_queue c'))%nat /\
       ((k + j < snd x)%nat -> (fst x < length (put_queue c'))%nat)).
Proof.
  induction cs as [|a cs IH]; intros k x t H; simpl in H; [discriminate|].
  destruct (sort_by_key (combine (map (fun c => length (put_queue c)) cs)
                                 (seq (S k) (length cs)))) as [|y t'] eqn:E.
  - apply sort_by_key_nil in E.
    assert (cs = []) as ->.
    { destruct cs; [reflexivity|discriminate]. }
    simpl in H. injection H as <- _. simpl.
    split; [lia|]. split.
    + exists a. rewrite Nat.sub_diag. auto.
    + intros [|j] c' Hj; simpl in Hj; [|destruct j; discriminate].
      injection Hj as <-. split; lia.
  - destruct (IH (S k) y t' E) as (Hk & (c & Hc & Hlen) & Hmin).
    simpl in H.
    destruct (Nat.leb (length (put_queue a)) (fst y)) eqn:L.
    + injection H as <- _. simpl.
      apply Nat.leb_le in L.
      split; [lia|]. split.
      * exists a. rewrite Nat.sub_diag. auto.
      * intros [|j] c' Hj; simpl in Hj.
        -- injection Hj as <-. split; lia.
        -- destruct (Hmin j c' Hj) as [H1 _]. split; lia.
    + injection H as <- _.
      apply Nat.leb_gt in L.
      split; [lia|]. split.
      * exists c. split; [|exact Hlen].
        replace (snd y - k)%nat with (S (snd y - S k)) by lia. exact Hc.
      * intros [|j] c' Hj; simpl in Hj.
        -- injection Hj as <-. split; lia.
        -- destruct (Hmin j c' Hj) as [H1 H2]. split; [exact H1|].
           intros Hlt. apply H2. lia.
Qed.

Lemma sorted_queues_nil (s : state) : sorted_queues s = [] -> cashiers s = [].
Proof.
  unfold sorted_queues. intros H. apply sort_by_key_nil in H.
  destruct (cashiers s); [reflexivity|discriminate].
Qed.

(** ** Reasoning about a run *)

Ltac break_inner :=
  match goal with
  | |- context [match ?x with _ => _ end] =>
      lazymatch x with
      | context [match _ with _ => _ end] => fail
      | _ => destruct x eqn:?
      end
  end.

Ltac unfold_sim :=
  repeat (progress unfold dispatch, resume, customer_arrival,
    customer_arrival_resumed, open_extra_cashier_process,
    open_extra_cashier_process_resumed, customer_process,
    customer_process_resumed, customer_process_served, choose_cashier,
    new_request, with_request, request_exit, cancel, release, request,
    trigger_put, condition_check, update_customer, exponential, py_div,
    timeout, process, schedule, set_resource, bind, ret, raise, gets,
    modify in * ).

Ltac crunch := unfold_sim; simpl; repeat (break_inner; simpl in * ).

Section Run.

Variable P : params.
Variable draws : nat -> Q.

Lemma steps_reachable (k : nat) :
  forall s s', reachable P draws s -> steps P draws k s = Some s' ->
    reachable P draws s'.
Proof.
  induction k as [|k IH]; simpl; intros s s' Hs H.
  - injection H as <-. exact Hs.
  - destruct (step P draws s) as [s1| | |] eqn:E; try discriminate.
    eapply IH; [|exact H]. eapply reachable_step; eauto.
Qed.

(** A finished run went through reachable states up to the until event. *)
Lemma run_finished (fuel : nat) :
  forall s s', reachable P draws s -> run P draws fuel s = Finished s' ->
    exists s0, reachable P draws s0 /\ step P draws s0 = Stop s'.
Proof.
  induction fuel as [|fuel IH]; simpl; intros s s' Hs H; [discriminate|].
  destruct (step P draws s) as [s1|s1| |] eqn:E; try discriminate.
  - eapply IH; [|exact H]. eapply reachable_step; eauto.
  - injection H as <-. exists s. auto.
Qed.

(** How one event changes [profit]. *)
Lemma dispatch_profit (e : event) (s : state) :
  profit (dispatch P draws e s) =
    match e with
    | Timeout_service _ => profit s + 10
    | Timeout_overflow => profit s - 2 * C P
    | _ => profit s
    end.
Proof. destruct e; crunch; reflexivity. Qed.

(** An event is processed at one time. *)
Lemma dispatch_now (e : event) (s : state) : now (dispatch P draws e s) = now s.
Proof. destruct e; crunch; reflexivity. Qed.

Lemma step_inv (s : state) (o : outcome) :
  step P draws s = o ->
  match o with
  | Next s' =>
      exists e q, queue s = e :: q /\
        s' = dispatch P draws (ev e)
               (set_history (e :: history s)
                  (set_now (at_time e) (set_queue q (next_eid s) s))) /\
        ev e <> Until /\ (forall x, ev e <> Process_failed x)
  | Stop s' =>
      exists e q, queue s = e :: q /\ ev e = Until /\
        s' = set_history (e :: history s)
               (set_now (at_time e) (set_queue q (next_eid s) s))
  | Raise x s' => exists e q, queue s = e :: q /\ ev e = Process_failed x
  | EmptySchedule => queue s = []
  end.
Proof.
  unfold step. intros <-.
  destruct (queue s) as [|e q]; [reflexivity|].
  destruct (ev e) eqn:E; simpl;
    exists e, q; repeat split; intros; try congruence;
    rewrite E; reflexivity.
Qed.

Lemma step_history (s s' : state) :
  step P draws s = Next s' ->
  exists e q, queue s = e :: q /\ history s' = e :: history s /\
              profit s' = match ev e with
                          | Timeout_service _ => profit s + 10
                          | Timeout_overflow => profit s - 2 * C P
                          | _ => profit s
                          end.
Proof.
  intros H. apply step_inv in H. destruct H as (e & q & Hq & -> & _).
  exists e, q. split; [exact Hq|]. split.
  - destruct (ev e); crunch; reflexivity.
  - rewrite dispatch_profit. reflexivity.
Qed.

End Run.

(** ** Profit accounting *)

Lemma Qnat_succ (n : nat) : Qnat (S n) == Qnat n + 1.
Proof.
  unfold Qnat. rewrite Nat2Z.inj_succ, <- Z.add_1_r, inject_Z_plus.
  reflexivity.
Qed.

Section Accounting.

Variable P : params.
Variable draws : nat -> Q.

Lemma accounted_start (n : nat) : accounted P (start P n).
Proof. unfold accounted, served_count, activation_count, Qnat. simpl. ring. Qed.

Lemma accounted_step (s s' : state) :
  accounted P s -> step P draws s = Next s' -> accounted P s'.
Proof.
  unfold accounted, served_count, activation_count.
  intros Hs H. apply step_history in H.
  destruct H as (e & q & _ & Hh & Hp). rewrite Hh, Hp. simpl.
  unfold is_service_done at 1, is_overflow_timeout at 1.
  destruct (ev e); simpl length; rewrite ?Qnat_succ, Hs; ring.
Qed.

Lemma accounted_stop (s s' : state) :
  accounted P s -> step P draws s = Stop s' -> accounted P s'.
Proof.
  unfold accounted, served_count, activation_count.
  intros Hs H. apply step_inv in H.
  destruct H as (e & q & _ & He & ->). simpl.
  unfold is_service_done at 1, is_overflow_timeout at 1. rewrite He.
  exact Hs.
Qed.

Lemma accounted_reachable (s : state) : reachable P draws s -> accounted P s.
Proof.
  induction 1 as [n|s s' _ IH H].
  - apply accounted_start.
  - eapply accounted_step; eauto.
Qed.

(** C1.  When a replication has run to its horizon, the profit is 10 times
    the number of customers whose service completed minus [2 * C] times the
    number of overflow windows that were closed and charged; and at every
    event of the run the profit changes by exactly that event's due: plus 10
    for a service that completes, minus [2 * C] for a window that closes,
    nothing otherwise. *)
Theorem profit_accounting (fuel n : nat) (s : state) :
  replication P draws fuel n = Finished s ->
  profit s ==
    10 * Qnat (served_count s) - 2 * C P * Qnat (activation_count s) /\
  (forall k s1 s2,
     steps P draws k (start P n) = Some s1 -> step P draws s1 = Next s2 ->
     exists e q, queue s1 = e :: q /\
       profit s2 = profit_after (C P) (ev e) (profit s1)).
Proof.
  intros H. split.
  - unfold replication in H.
    apply run_finished in H; [|apply reachable_start].
    destruct H as (s0 & Hs0 & Hstop).
    apply accounted_reachable in Hs0.
    exact (accounted_stop s0 s Hs0 Hstop).
  - intros k s1 s2 _ Hstep. apply step_history in Hstep.
    destruct Hstep as (e & q & Hq & _ & Hp).
    exists e, q. split; [exact Hq|]. exact Hp.
Qed.

End Accounting.

Lemma profit_accounting_witness :
  exists s,
    replication one_customer_params one_customer_draws 20 0 = Finished s /\
    served_count s = 1%nat /\ activation_count s = 1%nat /\
    profit s ==
      10 * Qnat (served_count s)
      - 2 * C one_customer_params * Qnat (activation_count s) /\
    (forall k s1 s2,
       steps one_customer_params one_customer_draws k
             (start one_customer_params 0) = Some s1 ->
       step one_customer_params one_customer_draws s1 = Next s2 ->
       exists e q, queue s1 = e :: q /\
         profit s2 = profit_after (C one_customer_params) (ev e) (profit s1)).
Proof.
  eexists. split; [vm_compute; reflexivity|].
  split; [reflexivity|]. split; [reflexivity|].
  apply (profit_accounting one_customer_params one_customer_draws 20 0).
  vm_compute. reflexivity.
Defined.

(** ** Invariants of the resources

    A property of the resources and of the requests that the operations of
    [simpy.Resource] and the first segment of [customer_process] keep is
    an invariant of the run: nothing else touches them. *)

Section ResourceInvariant.

Variable P : params.
Variable draws : nat -> Q.
Variable I : state -> Prop.

Hypothesis I_frame : forall s s',
  cashiers s' = cashiers s -> extra_cashier s' = extra_cashier s ->
  customers s' = customers s -> I s -> I s'.
Hypothesis I_trigger_put : forall r s, I s -> I (trigger_put r s).
Hypothesis I_request_exit : forall cid s, I s -> I (fst (request_exit cid s)).
Hypothesis I_processed : forall cid s, I s -> I (update_customer cid set_processed s).
Hypothesis I_cond_triggered :
  forall cid s, I s -> I (update_customer cid set_cond_triggered s).
Hypothesis I_customer_process :
  forall a s, I s -> I (fst (customer_process P a s)).

Lemma I_resume (body : M status) (s : state) :
  I (fst (body s)) -> I (resume body s).
Proof.
  unfold resume. destruct (body s) as [s' [e|[|]]]; simpl; intros H;
    try exact H; eapply I_frame; try exact H; reflexivity.
Qed.

Lemma I_with_request (cid : nat) (body : M status) (s : state) :
  I (fst (body s)) -> I (fst (with_request cid body s)).
Proof.
  unfold with_request. destruct (body s) as [s' [e|[|]]]; simpl; intros H.
  - specialize (I_request_exit cid s' H).
    destruct (request_exit cid s') as [s'' [e'|u]]; exact I_request_exit.
  - exact H.
  - specialize (I_request_exit cid s' H).
    destruct (request_exit cid s') as [s'' [e'|u]]; exact I_request_exit.
Qed.

Lemma I_condition_check (cid : nat) (s : state) : I s -> I (condition_check cid s).
Proof.
  unfold condition_check. intros H.
  destruct (nth_error (customers s) cid) as [c|]; [|exact H].
  destruct (cond_triggered c); [exact H|].
  eapply I_frame; [| | |exact (I_cond_triggered cid s H)]; reflexivity.
Qed.

Lemma I_dispatch (e : event) (s : state) : I s -> I (dispatch P draws e s).
Proof.
  intros H. destruct e; simpl; try exact H.
  - apply I_resume. crunch; eapply I_frame; try exact H; reflexivity.
  - apply I_resume. apply I_customer_process. exact H.
  - apply I_resume. crunch; eapply I_frame; try exact H; reflexivity.
  - apply I_resume. crunch; eapply I_frame; try exact H; reflexivity.
  - apply I_condition_check. exact H.
  - apply I_resume. apply I_with_request.
    crunch; eapply I_frame; try exact H; reflexivity.
  - apply I_resume. crunch; eapply I_frame; try exact H; reflexivity.
  - apply I_condition_check. apply I_processed. exact H.
  - apply I_trigger_put. exact H.
  - apply I_resume. unfold customer_process_resumed.
    destruct (nth_error (customers s) cid) as [c|]; [|exact H].
    apply I_with_request.
    crunch; eapply I_frame; try exact H; reflexivity.
Qed.

Lemma I_step (s s' : state) : I s -> step P draws s = Next s' -> I s'.
Proof.
  intros H Hstep. apply step_inv in Hstep.
  destruct Hstep as (e & q & _ & -> & _).
  apply I_dispatch. eapply I_frame; try exact H; reflexivity.
Qed.

Lemma I_reachable (s : state) :
  (forall n, I (start P n)) -> reachable P draws s -> I s.
Proof.
  intros H0. induction 1 as [n|s s' _ IH H]; [apply H0|].
  eapply I_step; eauto.
Qed.

End ResourceInvariant.

(** ** Queue bound of the regular cashiers *)

Lemma Forall_list_set {A : Type} (Q : A -> Prop) (l : list A) :
  forall i x, Forall Q l -> Q x -> Forall Q (list_set i x l).
Proof.
  induction l as [|h t IH]; intros i x Hl Hx; simpl; [constructor|].
  inversion Hl; subst. destruct i; constructor; auto.
Qed.

Lemma Forall_nth_error_elim {A : Type} (Q : A -> Prop) (l : list A) (i : nat) (c : A) :
  Forall Q l -> nth_error l i = Some c -> Q c.
Proof.
  intros Hl Hi. rewrite Forall_forall in Hl. apply Hl.
  eapply nth_error_In; eauto.
Qed.

Lemma list_remove_length (x : nat) (l : list nat) :
  forall l', list_remove x l = Some l' -> length l = S (length l').
Proof.
  induction l as [|y t IH]; simpl; intros l' H; [discriminate|].
  destruct (Nat.eqb x y).
  - injection H as <-. reflexivity.
  - destruct (list_remove x t) as [t'|]; [|discriminate].
    injection H as <-. simpl. f_equal. apply IH. reflexivity.
Qed.

(** What [choose_cashier] does, by cases. *)
Lemma choose_cashier_cases (P : params) (s : state) :
  match sorted_queues s with
  | [] => choose_cashier P s = (s, inl IndexError)
  | (min_queue, min_cashier) :: _ =>
      if open_extra_cashier s then choose_cashier P s = (s, inr (Some Extra))
      else
        choose_cashier P s =
          ((if (extra_cashier_policy P <=? Z.of_nat min_queue)%Z
            then schedule Initialize_overflow URGENT 0 s else s),
           inr (if Nat.ltb min_queue 5 then Some (Regular min_cashier) else None))
  end.
Proof.
  unfold choose_cashier, bind, gets, ret, raise, process, modify.
  destruct (sorted_queues s) as [|[m i] t]; [reflexivity|].
  destruct (open_extra_cashier s); [reflexivity|]. simpl.
  destruct (extra_cashier_policy P <=? Z.of_nat m)%Z; reflexivity.
Qed.

(** The head of [queues] is a cashier of the pool with that queue length,
    and no cashier has a shorter queue. *)
Lemma sorted_queues_head (s : state) (m i : nat) (t : list (nat * nat)) :
  sorted_queues s = (m, i) :: t ->
  (exists c, nth_error (cashiers s) i = Some c /\ length (put_queue c) = m) /\
  (forall c, In c (cashiers s) -> (m <= length (put_queue c))%nat).
Proof.
  intros E. unfold sorted_queues in E.
  destruct (sort_by_key_head (cashiers s) 0 (m, i) t E) as (_ & (c & Hc & Hl) & Hmin).
  simpl in Hc, Hl, Hmin. rewrite Nat.sub_0_r in Hc. split.
  - exists c. auto.
  - intros c' Hin. apply In_nth_error in Hin. destruct Hin as [j Hj].
    apply (Hmin j c' Hj).
Qed.

(** [choose_cashier] leaves the resources and the requests as they are, and
    a regular cashier it returns has fewer than 5 pending requests. *)
Lemma choose_cashier_result (P : params) (s s' : state) (res : exn + option res_id) :
  choose_cashier P s = (s', res) ->
  cashiers s' = cashiers s /\ extra_cashier s' = extra_cashier s /\
  customers s' = customers s /\
  forall i, res = inr (Some (Regular i)) ->
    exists c, nth_error (cashiers s) i = Some c /\ (length (put_queue c) < 5)%nat.
Proof.
  intros H. pose proof (choose_cashier_cases P s) as Hc.
  destruct (sorted_queues s) as [|[m k] t] eqn:E.
  - rewrite Hc in H. injection H as <- <-. repeat split. discriminate.
  - destruct (open_extra_cashier s).
    + rewrite Hc in H. injection H as <- <-. repeat split. discriminate.
    + rewrite Hc in H. injection H as <- <-.
      split; [destruct (extra_cashier_policy P <=? Z.of_nat m)%Z; reflexivity|].
      split; [destruct (extra_cashier_policy P <=? Z.of_nat m)%Z; reflexivity|].
      split; [destruct (extra_cashier_policy P <=? Z.of_nat m)%Z; reflexivity|].
      intros i Hi. destruct (Nat.ltb m 5) eqn:L; [|discriminate].
      injection Hi as ->. apply Nat.ltb_lt in L.
      destruct (sorted_queues_head s m i t E) as [(c & Hc1 & Hc2) _].
      exists c. split; [exact Hc1|lia].
Qed.

Section QueueBound.

Variable P : params.
Variable draws : nat -> Q.

Lemma bounded_frame (s s' : state) :
  cashiers s' = cashiers s -> extra_cashier s' = extra_cashier s ->
  customers s' = customers s -> bounded s -> bounded s'.
Proof. unfold bounded. intros -> _ _ H. exact H. Qed.

Lemma bounded_update_customer (cid : nat) (f : customer -> customer) (s : state) :
  bounded s -> bounded (update_customer cid f s).
Proof.
  unfold update_customer. destruct (nth_error (customers s) cid); auto.
Qed.

Lemma bounded_set_resource (r : res_id) (x : resource) (s : state) :
  bounded s -> (forall i, r = Regular i -> short_queue x) ->
  bounded (set_resource r x s).
Proof.
  unfold bounded. intros H Hx. destruct r as [i|]; simpl; [|exact H].
  apply Forall_list_set; eauto.
Qed.

Lemma bounded_get_resource (r : res_id) (s : state) (c : resource) :
  bounded s -> get_resource r s = Some c ->
  forall i, r = Regular i -> short_queue c.
Proof.
  intros H Hr i ->. simpl in Hr.
  eapply Forall_nth_error_elim; eauto.
Qed.

Lemma bounded_trigger_put (r : res_id) (s : state) :
  bounded s -> bounded (trigger_put r s).
Proof.
  intros H. unfold trigger_put.
  destruct (get_resource r s) as [[us [|cid pending]]|] eqn:E; try exact H.
  destruct (Nat.ltb (length us) 1); [|exact H].
  eapply bounded_frame; [reflexivity..|].
  apply bounded_update_customer. apply bounded_set_resource; [exact H|].
  intros i Hi. pose proof (bounded_get_resource r s _ H E i Hi) as Hb.
  unfold short_queue in *. simpl in *. lia.
Qed.

Lemma bounded_release (r : res_id) (cid : nat) (s : state) :
  bounded s -> bounded (release r cid s).
Proof.
  intros H. unfold release.
  destruct (get_resource r s) as [[us pending]|] eqn:E; [|exact H].
  eapply bounded_frame; [reflexivity..|].
  apply bounded_set_resource; [exact H|].
  intros i Hi. exact (bounded_get_resource r s _ H E i Hi).
Qed.

Lemma bounded_request_exit (cid : nat) (s : state) :
  bounded s -> bounded (fst (request_exit cid s)).
Proof.
  intros H. unfold request_exit.
  destruct (nth_error (customers s) cid) as [c|]; [|exact H].
  unfold cancel. destruct (triggered c); simpl.
  - apply bounded_release. exact H.
  - destruct (get_resource (cashier c) s) as [[us pending]|] eqn:E; simpl.
    + destruct (list_remove cid pending) as [pending'|] eqn:R; simpl; [|exact H].
      apply bounded_release. apply bounded_set_resource; [exact H|].
      intros i Hi. pose proof (bounded_get_resource _ s _ H E i Hi) as Hb.
      apply list_remove_length in R.
      unfold short_queue in *. simpl in *. lia.
    + apply bounded_release. exact H.
Qed.

Lemma bounded_request (r : res_id) (cid : nat) (s : state) :
  bounded s ->
  (forall i c, r = Regular i -> nth_error (cashiers s) i = Some c ->
     (length (put_queue c) < 5)%nat) ->
  bounded (request r cid s).
Proof.
  intros H Hlt. unfold request.
  destruct (get_resource r s) as [[us pending]|] eqn:E; [|exact H].
  apply bounded_trigger_put. apply bounded_set_resource; [exact H|].
  intros i ->. specialize (Hlt i _ eq_refl E).
  unfold short_queue. simpl in *. rewrite length_app. simpl. lia.
Qed.

Lemma bounded_customer_process (a : Q) (s : state) :
  bounded s -> bounded (fst (customer_process P a s)).
Proof.
  intros H. unfold customer_process, bind.
  destruct (choose_cashier P s) as [s1 res] eqn:E.
  destruct (choose_cashier_result P s s1 res E) as (Hc & He & Hcu & Hres).
  assert (H1 : bounded s1) by (eapply bounded_frame; eauto).
  destruct res as [e|[r|]]; simpl.
  - exact H1.
  - unfold new_request. simpl.
    assert (bounded (request r (length (customers s1))
              (set_customers
                 (customers s1 ++ [Customer a r false false false]) s1))) as H2.
    { apply bounded_request; [exact H1|].
      intros i c -> Hi. simpl in Hi. rewrite Hc in Hi.
      destruct (Hres i eq_refl) as (c' & Hc' & Hlt). congruence. }
    unfold with_request, timeout, bind, modify, ret. simpl. exact H2.
  - exact H1.
Qed.

Lemma bounded_start (n : nat) : bounded (start P n).
Proof.
  unfold bounded. simpl. apply Forall_forall. intros c Hc.
  apply repeat_spec in Hc. subst c. unfold short_queue. simpl. lia.
Qed.

Lemma bounded_reachable (s : state) : reachable P draws s -> bounded s.
Proof.
  apply (I_reachable P draws bounded).
  - exact bounded_frame.
  - exact bounded_trigger_put.
  - exact bounded_request_exit.
  - intros. apply bounded_update_customer. assumption.
  - intros. apply bounded_update_customer. assumption.
  - exact bounded_customer_process.
  - exact bounded_start.
Qed.

(** C10.  After any number of events of a replication, no regular cashier
    has more than 5 pending requests. *)
Theorem regular_queue_bound (n k : nat) (s : state) :
  steps P draws k (start P n) = Some s ->
  forall c, In c (cashiers s) -> (length (put_queue c) <= 5)%nat.
Proof.
  intros H c Hc.
  assert (Hb : bounded s).
  { apply bounded_reachable. eapply steps_reachable; [|exact H].
    apply reachable_start. }
  unfold bounded in Hb. rewrite Forall_forall in Hb. exact (Hb c Hc).
Qed.

End QueueBound.

Lemma regular_queue_bound_witness :
  exists s,
    steps crowded_params crowded_draws 15 (start crowded_params 0) = Some s /\
    map (fun c => length (put_queue c)) (cashiers s) = [5%nat] /\
    forall c, In c (cashiers s) -> (length (put_queue c) <= 5)%nat.
Proof.
  eexists. split; [vm_compute; reflexivity|]. split; [reflexivity|].
  apply (regular_queue_bound crowded_params crowded_draws 0 15).
  vm_compute. reflexivity.
Defined.

(** ** Balking *)

Lemma In_heappush (x y : entry) (q : list entry) :
  In x (heappush y q) <-> x = y \/ In x q.
Proof.
  induction q as [|z t IH]; simpl.
  - intuition.
  - destruct (entry_ltb y z); simpl; [intuition|].
    rewrite IH. intuition.
Qed.

Section Balking.

Variable P : params.
Variable draws : nat -> Q.

(** C5.  When a customer's process starts while the overflow window is
    closed and every regular cashier has at least 5 pending requests, the
    customer is counted as lost and its process ends there: no request is
    created, the resources and [waiting_times] are untouched, and the only
    events scheduled are the end of the process and, by the policy, the
    start of the overflow process. *)
Theorem balking_when_saturated (s s' : state) (e : entry) (q : list entry) (a : Q) :
  queue s = e :: q -> ev e = Initialize_customer a ->
  open_extra_cashier s = false ->
  cashiers s <> [] ->
  (forall c, In c (cashiers s) -> (5 <= length (put_queue c))%nat) ->
  step P draws s = Next s' ->
  lost_customers s' = S (lost_customers s) /\
  waiting_times s' = waiting_times s /\
  profit s' = profit s /\
  cashiers s' = cashiers s /\
  extra_cashier s' = extra_cashier s /\
  customers s' = customers s /\
  (forall x, In x (queue s') ->
     In x q \/ ev x = Process_ok \/ ev x = Initialize_overflow).
Proof.
  intros Hq He Hclosed Hne Hfull Hstep.
  apply step_inv in Hstep. destruct Hstep as (e' & q' & Hq' & -> & _).
  rewrite Hq in Hq'. injection Hq' as <- <-. rewrite He.
  set (s1 := set_history (e :: history s)
               (set_now (at_time e) (set_queue q (next_eid s) s))).
  pose proof (choose_cashier_cases P s1) as Hc.
  destruct (sorted_queues s1) as [|[m i] t] eqn:E.
  { apply sorted_queues_nil in E. contradiction. }
  destruct (sorted_queues_head s1 m i t E) as [(c & Hc1 & Hc2) _].
  assert (Hm : Nat.ltb m 5 = false).
  { apply Nat.ltb_ge. rewrite <- Hc2. apply Hfull.
    eapply nth_error_In. exact Hc1. }
  change (open_extra_cashier s1) with (open_extra_cashier s) in Hc.
  rewrite Hclosed, Hm in Hc.
  unfold dispatch, resume, customer_process, bind. rewrite Hc.
  unfold modify, ret.
  destruct (extra_cashier_policy P <=? Z.of_nat m)%Z; simpl;
    repeat split; try reflexivity;
    intros x Hx; repeat (apply In_heappush in Hx; destruct Hx as [->|Hx]);
    auto.
Qed.

End Balking.

Lemma balking_when_saturated_witness :
  steps crowded_params crowded_draws 16 (start crowded_params 0)
    = Some crowded_state /\
  exists s',
    step crowded_params crowded_draws crowded_state = Next s' /\
    lost_customers s' = S (lost_customers crowded_state) /\
    waiting_times s' = waiting_times crowded_state /\
    profit s' = profit crowded_state /\
    cashiers s' = cashiers crowded_state /\
    extra_cashier s' = extra_cashier crowded_state /\
    customers s' = customers crowded_state /\
    (forall x, In x (queue s') ->
       In x (tl (queue crowded_state)) \/ ev x = Process_ok \/
       ev x = Initialize_overflow).
Proof.
  split; [vm_compute; reflexivity|].
  eexists. split; [vm_compute; reflexivity|].
  eapply (balking_when_saturated crowded_params crowded_draws crowded_state).
  - reflexivity.
  - reflexivity.
  - reflexivity.
  - discriminate.
  - intros c [<-|[]]. simpl. lia.
  - vm_compute. reflexivity.
Defined.

(** ** Time goes forward *)

Lemma entry_ltb_true (x y : entry) :
  entry_ltb x y = true -> at_time x <= at_time y.
Proof.
  unfold entry_ltb, Qltb. intros H. apply orb_true_iff in H.
  destruct H as [H|H].
  - apply negb_true_iff in H. apply Qlt_le_weak, Qnot_le_lt.
    intros Hle. apply Qle_bool_iff in Hle. congruence.
  - apply andb_true_iff in H. destruct H as [H _].
    apply Qeq_bool_iff in H. rewrite H. apply Qle_refl.
Qed.

Lemma entry_ltb_false (x y : entry) :
  entry_ltb x y = false -> at_time y <= at_time x.
Proof.
  unfold entry_ltb, Qltb. intros H. apply orb_false_iff in H.
  destruct H as [H _]. apply negb_false_iff in H.
  apply Qle_bool_iff. exact H.
Qed.

Lemma Forall_heappush (Q0 : entry -> Prop) (x : entry) (q : list entry) :
  Q0 x -> Forall Q0 q -> Forall Q0 (heappush x q).
Proof.
  intros Hx Hq. apply Forall_forall. intros y Hy.
  apply In_heappush in Hy. destruct Hy as [->|Hy]; [exact Hx|].
  rewrite Forall_forall in Hq. auto.
Qed.

Lemma sorted_heappush (x : entry) (q : list entry) :
  sorted q -> sorted (heappush x q).
Proof.
  induction q as [|y t IH]; simpl; intros H.
  - split; [constructor|exact I].
  - destruct H as [Hy Ht]. destruct (entry_ltb x y) eqn:E; simpl.
    + apply entry_ltb_true in E. split; [|split; assumption].
      constructor; [exact E|].
      eapply Forall_impl; [|exact Hy]. intros z Hz. simpl in Hz.
      eapply Qle_trans; eauto.
    + apply entry_ltb_false in E. split; [|apply IH; exact Ht].
      apply Forall_heappush; assumption.
Qed.

Lemma later_causal (t : Q) (q q' : list entry) :
  later t q q' -> sorted q -> Forall (fun x => t <= at_time x) q ->
  Forall (fun x => ev x = Until -> at_time x == 200) q ->
  sorted q' /\ Forall (fun x => t <= at_time x) q' /\
  Forall (fun x => ev x = Until -> at_time x == 200) q'.
Proof.
  induction 1 as [|x q' _ IH Hx Hu]; intros Hs Hf Hh; [auto|].
  destruct (IH Hs Hf Hh) as (Hs' & Hf' & Hh'). split; [|split].
  - apply sorted_heappush. exact Hs'.
  - apply Forall_heappush; assumption.
  - apply Forall_heappush; [|exact Hh']. intros E. contradiction.
Qed.

Lemma Qle_plus_nonneg (t d : Q) : 0 <= d -> t <= t + d.
Proof.
  intros H. rewrite <- (Qplus_0_r t) at 1. apply Qplus_le_r. exact H.
Qed.

Lemma Qltb_false_nonneg (d : Q) : Qltb d 0 = false -> 0 <= d.
Proof.
  unfold Qltb. intros H. apply negb_false_iff in H.
  apply Qle_bool_iff. exact H.
Qed.

Ltac later_tac :=
  simpl;
  repeat first
    [ apply later_refl
    | apply later_push;
      [| cbn [at_time];
         apply Qle_plus_nonneg;
         first [ apply Qltb_false_nonneg; assumption
               | discriminate ]
       | discriminate ] ].

Section Causality.

Variable P : params.
Variable draws : nat -> Q.

(** An event only schedules events at its own time or later. *)
Lemma dispatch_later (e : event) (s : state) :
  later (now s) (queue s) (queue (dispatch P draws e s)).
Proof. destruct e; crunch; later_tac. Qed.

Lemma causal_start (n : nat) : causal (start P n).
Proof.
  unfold causal.
  change (queue (start P n))
    with [Entry (0 + 0) URGENT 0 Initialize_arrival; Entry (0 + 200) URGENT 1 Until].
  split; [|split].
  - simpl. repeat split; repeat constructor; simpl; discriminate.
  - repeat constructor; simpl; discriminate.
  - constructor; [discriminate|]. constructor; [|constructor].
    intros _. reflexivity.
Qed.

Lemma causal_step (s s' : state) :
  causal s -> step P draws s = Next s' -> causal s' /\ now s <= now s'.
Proof.
  intros (Hs & Hf & Hh) Hstep. apply step_inv in Hstep.
  destruct Hstep as (e & q & Hq & -> & _).
  rewrite Hq in Hs, Hf, Hh. simpl in Hs. destruct Hs as [He Hs].
  inversion Hf as [|? ? Hnow _]; subst.
  inversion Hh as [|? ? _ Hhq]; subst.
  set (s1 := set_history (e :: history s)
               (set_now (at_time e) (set_queue q (next_eid s) s))).
  pose proof (dispatch_later (ev e) s1) as Hl.
  destruct (later_causal _ _ _ Hl Hs He Hhq) as (Hs' & Hf' & Hh').
  split; [split; [|split]|].
  - exact Hs'.
  - rewrite dispatch_now. exact Hf'.
  - exact Hh'.
  - rewrite dispatch_now. exact Hnow.
Qed.


Lemma causal_reachable (s : state) : reachable P draws s -> causal s.
Proof.
  induction 1 as [n|s s' _ IH H]; [apply causal_start|].
  apply (causal_step s s' IH H).
Qed.

End Causality.

(** ** Overflow windows *)





Section Windows.

Variable P : params.
Variable draws : nat -> Q.

(** How one event changes the flag. *)
Lemma dispatch_open (e : event) (s : state) :
  open_extra_cashier (dispatch P draws e s) =
    match e with
    | Initialize_overflow => true
    | Timeout_overflow => false
    | _ => open_extra_cashier s
    end.
Proof.
  destruct e; crunch; try congruence.
  destruct (open_extra_cashier s); [reflexivity|discriminate].
Qed.






End Windows.

(** ** Requests and resources stay consistent *)

Lemma nth_error_list_set_eq {A : Type} (l : list A) :
  forall i x old, nth_error l i = Some old -> nth_error (list_set i x l) i = Some x.
Proof.
  induction l as [|h t IH]; intros [|i] x old H; simpl in *; try discriminate.
  - reflexivity.
  - eapply IH; eauto.
Qed.

Lemma nth_error_list_set_neq {A : Type} (l : list A) :
  forall i j x, i <> j -> nth_error (list_set i x l) j = nth_error l j.
Proof.
  induction l as [|h t IH]; intros [|i] [|j] x H; simpl; try reflexivity.
  - contradiction.
  - apply IH. congruence.
Qed.

Lemma get_set_resource (r r' : res_id) (x old : resource) (s : state) :
  get_resource r s = Some old ->
  get_resource r' (set_resource r x s) =
    if res_id_eq_dec r r' then Some x else get_resource r' s.
Proof.
  intros H. destruct (res_id_eq_dec r r') as [<-|Hne].
  - destruct r as [i|]; simpl in *; [|reflexivity].
    eapply nth_error_list_set_eq; eauto.
  - destruct r as [i|], r' as [j|]; simpl in *; try reflexivity.
    + apply nth_error_list_set_neq. congruence.
    + contradiction.
Qed.

Lemma list_remove_In (x : nat) (l : list nat) :
  forall l', list_remove x l = Some l' -> forall y, In y l' -> In y l.
Proof.
  induction l as [|h t IH]; simpl; intros l' H y Hy; [discriminate|].
  destruct (Nat.eqb x h).
  - injection H as <-. auto.
  - destruct (list_remove x t) as [t'|]; [|discriminate].
    injection H as <-. destruct Hy as [->|Hy]; eauto.
Qed.


Lemma list_remove_None (x : nat) (l : list nat) :
  list_remove x l = None -> ~ In x l.
Proof.
  induction l as [|h t IH]; simpl; intros H; [tauto|].
  destruct (Nat.eqb x h) eqn:E; [discriminate|].
  destruct (list_remove x t); [discriminate|].
  apply Nat.eqb_neq in E. intros [Heq|Hin]; [congruence|].
  exact (IH eq_refl Hin).
Qed.


Lemma nth_error_update_customer (cid : nat) (f : customer -> customer) (s : state) (i : nat) :
  nth_error (customers (update_customer cid f s)) i =
    if Nat.eq_dec cid i then option_map f (nth_error (customers s) i)
    else nth_error (customers s) i.
Proof.
  unfold update_customer.
  destruct (nth_error (customers s) cid) as [c0|] eqn:E; simpl.
  - destruct (Nat.eq_dec cid i) as [<-|Hne].
    + rewrite E. simpl. eapply nth_error_list_set_eq; eauto.
    + apply nth_error_list_set_neq. exact Hne.
  - destruct (Nat.eq_dec cid i) as [<-|Hne]; [rewrite E|]; reflexivity.
Qed.

Lemma get_resource_update_customer (cid : nat) (f : customer -> customer) (s : state) (r : res_id) :
  get_resource r (update_customer cid f s) = get_resource r s.
Proof.
  unfold update_customer. destruct (nth_error (customers s) cid); reflexivity.
Qed.




Lemma length_lt_1 {A : Type} (l : list A) : Nat.ltb (length l) 1 = true -> l = [].
Proof. destruct l; [reflexivity|discriminate]. Qed.






Section Consistency.

Variable P : params.
Variable draws : nat -> Q.




End Consistency.

(** ** The times of the pending events *)

Lemma grows_refl (cs : list customer) : grows cs cs.
Proof. intros cid c H. exists c. auto. Qed.

Lemma grows_trans (a b c : list customer) : grows a b -> grows b c -> grows a c.
Proof.
  intros H1 H2 cid x Hx.
  destruct (H1 cid x Hx) as (y & Hy & Ha & Hp).
  destruct (H2 cid y Hy) as (z & Hz & Ha' & Hp').
  exists z. split; [exact Hz|]. split; [congruence|auto].
Qed.

Lemma entry_ok_grows (cs cs' : list customer) (x : entry) :
  grows cs cs' -> entry_ok cs x -> entry_ok cs' x.
Proof.
  intros G. unfold entry_ok. destruct (ev x); auto.
  - intros (c & Hc & Ht). destruct (G _ _ Hc) as (c' & Hc' & Ha & _).
    exists c'. split; [exact Hc'|]. rewrite Ha. exact Ht.
  - intros (c & Hc & Ht). destruct (G _ _ Hc) as (c' & Hc' & Ha & Hp).
    exists c'. split; [exact Hc'|]. rewrite Ha. tauto.
Qed.

Lemma ext_refl (s : state) : ext s s.
Proof. split; [apply grows_refl|]. split; [reflexivity|]. auto. Qed.

Lemma ext_trans (a b c : state) : ext a b -> ext b c -> ext a c.
Proof.
  intros (G1 & N1 & Q1) (G2 & N2 & Q2).
  split; [eapply grows_trans; eauto|]. split; [congruence|].
  intros x Hx. destruct (Q2 x Hx) as [Hb|Hok]; [|auto].
  destruct (Q1 x Hb) as [Ha|Hok]; [auto|].
  right. eapply entry_ok_grows; eauto.
Qed.

Lemma ext_same (s s' : state) :
  queue s' = queue s -> customers s' = customers s -> now s' = now s -> ext s s'.
Proof.
  intros Hq Hc Hn. split; [rewrite Hc; apply grows_refl|].
  split; [exact Hn|]. intros x Hx. left. congruence.
Qed.

Lemma ext_schedule (e : event) (prio : nat) (d : Q) (s : state) :
  entry_ok (customers s) (Entry (now s + d) prio (next_eid s) e) ->
  ext s (schedule e prio d s).
Proof.
  intros H. split; [apply grows_refl|]. split; [reflexivity|].
  intros x Hx. simpl in Hx. apply In_heappush in Hx.
  destruct Hx as [->|Hx]; auto.
Qed.

Lemma ext_schedule_other (e : event) (prio : nat) (d : Q) (s : state) :
  match e with
  | Initialize_customer _ | Timeout_patience _ | Condition _ => False
  | _ => True
  end ->
  ext s (schedule e prio d s).
Proof.
  intros H. apply ext_schedule. unfold entry_ok. cbn [ev].
  destruct e; try exact I; contradiction.
Qed.

Lemma grows_list_set (cs : list customer) (cid : nat) (c c' : customer) :
  nth_error cs cid = Some c ->
  arrival_time c' = arrival_time c ->
  (processed c = true -> processed c' = true) ->
  grows cs (list_set cid c' cs).
Proof.
  intros Hc Ha Hp i x Hx. destruct (Nat.eq_dec cid i) as [<-|Hne].
  - exists c'. rewrite (nth_error_list_set_eq _ _ _ _ Hc).
    assert (x = c) by congruence. subst x. auto.
  - exists x. rewrite nth_error_list_set_neq by exact Hne. auto.
Qed.

Lemma ext_update_customer (cid : nat) (f : customer -> customer) (s : state) :
  (forall c, arrival_time (f c) = arrival_time c) ->
  (forall c, processed c = true -> processed (f c) = true) ->
  ext s (update_customer cid f s).
Proof.
  intros Ha Hp. unfold update_customer.
  destruct (nth_error (customers s) cid) as [c|] eqn:E; [|apply ext_refl].
  split; [|split; [reflexivity|auto]].
  simpl. eapply grows_list_set; eauto.
Qed.

Lemma now_update_customer (cid : nat) (f : customer -> customer) (s : state) :
  now (update_customer cid f s) = now s.
Proof.
  unfold update_customer. destruct (nth_error (customers s) cid); reflexivity.
Qed.

Lemma ext_set_resource (r : res_id) (x : resource) (s : state) :
  ext s (set_resource r x s).
Proof. apply ext_same; destruct r; reflexivity. Qed.

Lemma ext_trigger_put (r : res_id) (s : state) : ext s (trigger_put r s).
Proof.
  unfold trigger_put.
  destruct (get_resource r s) as [[us [|cid pending]]|]; try apply ext_refl.
  destruct (Nat.ltb (length us) 1); [|apply ext_refl].
  eapply ext_trans; [|apply ext_schedule_other; exact I].
  eapply ext_trans; [|apply ext_update_customer; auto].
  apply ext_set_resource.
Qed.

Lemma ext_request (r : res_id) (cid : nat) (s : state) : ext s (request r cid s).
Proof.
  unfold request. destruct (get_resource r s) as [[us pending]|]; [|apply ext_refl].
  eapply ext_trans; [|apply ext_trigger_put]. apply ext_set_resource.
Qed.

Lemma ext_release (r : res_id) (cid : nat) (s : state) : ext s (release r cid s).
Proof.
  unfold release. destruct (get_resource r s) as [[us pending]|]; [|apply ext_refl].
  eapply ext_trans; [|apply ext_schedule_other; exact I].
  apply ext_set_resource.
Qed.

Lemma ext_request_exit (cid : nat) (s : state) : ext s (fst (request_exit cid s)).
Proof.
  unfold request_exit, cancel.
  destruct (nth_error (customers s) cid) as [c|]; [|apply ext_refl].
  destruct (triggered c); simpl; [apply ext_release|].
  destruct (get_resource (cashier c) s) as [[us pending]|]; simpl;
    [|apply ext_release].
  destruct (list_remove cid pending); simpl; [|apply ext_refl].
  eapply ext_trans; [|apply ext_release]. apply ext_set_resource.
Qed.

Lemma ext_with_request (cid : nat) (body : M status) (s : state) :
  ext s (fst (body s)) -> ext s (fst (with_request cid body s)).
Proof.
  unfold with_request. destruct (body s) as [s1 [e|[|]]]; simpl; intros H.
  - pose proof (ext_request_exit cid s1) as H1.
    destruct (request_exit cid s1) as [s2 [e'|u]]; simpl in *;
      eapply ext_trans; eauto.
  - exact H.
  - pose proof (ext_request_exit cid s1) as H1.
    destruct (request_exit cid s1) as [s2 [e'|u]]; simpl in *;
      eapply ext_trans; eauto.
Qed.

Lemma ext_resume (body : M status) (s : state) :
  ext s (fst (body s)) -> ext s (resume body s).
Proof.
  unfold resume. destruct (body s) as [s1 [e|[|]]]; simpl; intros H;
    try exact H; (eapply ext_trans; [exact H|]); apply ext_schedule_other; exact I.
Qed.

Lemma ext_timeout (d : Q) (e : event) (s : state) :
  entry_ok (customers s) (Entry (now s + d) NORMAL (next_eid s) e) ->
  ext s (fst (timeout d e s)).
Proof.
  intros H. unfold timeout. destruct (Qltb d 0); [apply ext_refl|].
  apply ext_schedule. exact H.
Qed.

(** The condition is triggered by the request, then processed, or by the
    patience timeout, at its time. *)
Lemma ext_condition_check (cid : nat) (s : state) :
  (forall c, nth_error (customers s) cid = Some c ->
     processed c = true \/ now s == arrival_time c + 1) ->
  ext s (condition_check cid s).
Proof.
  intros H. unfold condition_check.
  destruct (nth_error (customers s) cid) as [c|] eqn:E; [|apply ext_refl].
  destruct (cond_triggered c); [apply ext_refl|].
  eapply ext_trans; [apply (ext_update_customer cid set_cond_triggered s); auto|].
  apply ext_schedule. unfold entry_ok. cbn [ev at_time].
  exists (set_cond_triggered c). split.
  - rewrite nth_error_update_customer.
    destruct (Nat.eq_dec cid cid) as [_|Hn]; [|contradiction].
    rewrite E. reflexivity.
  - cbn [processed arrival_time set_cond_triggered].
    rewrite now_update_customer.
    destruct (H c eq_refl) as [Hp|Ht]; [left; exact Hp|right].
    rewrite Qplus_0_r. exact Ht.
Qed.

Section Timing.

Variable P : params.
Variable draws : nat -> Q.

Lemma ext_customer_arrival (s : state) : ext s (fst (customer_arrival P draws s)).
Proof.
  unfold customer_arrival, bind, py_div, raise, ret, exponential.
  destruct (Qeq_bool (lambda_rate P) 0); [apply ext_refl|].
  destruct (Qltb (1 / lambda_rate P) 0); [apply ext_refl|].
  set (s1 := set_rng (S (rng s)) s).
  pose proof (ext_timeout (1 / lambda_rate P * draws (rng s)) Timeout_arrival s1 I) as H.
  destruct (timeout (1 / lambda_rate P * draws (rng s)) Timeout_arrival s1)
    as [s2 [e|u]]; simpl in *;
    (eapply ext_trans; [|exact H]); apply ext_same; reflexivity.
Qed.

Lemma ext_customer_arrival_resumed (s : state) :
  ext s (fst (customer_arrival_resumed P draws s)).
Proof.
  unfold customer_arrival_resumed, bind, gets, process, modify.
  eapply ext_trans; [|apply ext_customer_arrival].
  apply ext_schedule. unfold entry_ok. cbn [ev at_time]. apply Qplus_0_r.
Qed.

Lemma ext_open_extra_cashier_process (s : state) :
  ext s (fst (open_extra_cashier_process s)).
Proof.
  unfold open_extra_cashier_process, bind, gets, modify, ret.
  destruct (negb (open_extra_cashier s)); [|apply ext_refl].
  unfold timeout. simpl.
  eapply ext_trans; [|apply ext_schedule_other; exact I].
  apply ext_same; reflexivity.
Qed.

Lemma ext_open_extra_cashier_process_resumed (s : state) :
  ext s (fst (open_extra_cashier_process_resumed P s)).
Proof. apply ext_same; reflexivity. Qed.

Lemma ext_choose_cashier (s : state) : ext s (fst (choose_cashier P s)).
Proof.
  pose proof (choose_cashier_cases P s) as Hc.
  destruct (sorted_queues s) as [|[m i] t]; [rewrite Hc; apply ext_refl|].
  destruct (open_extra_cashier s); rewrite Hc; [apply ext_refl|]. simpl.
  destruct (extra_cashier_policy P <=? Z.of_nat m)%Z; [|apply ext_refl].
  apply ext_schedule_other. exact I.
Qed.

Lemma ext_customer_process (a : Q) (s : state) :
  now s == a -> ext s (fst (customer_process P a s)).
Proof.
  intros Hnow. unfold customer_process, bind.
  pose proof (ext_choose_cashier s) as H1.
  destruct (choose_cashier P s) as [s1 [e|[r|]]]; simpl in *; try exact H1.
  - eapply ext_trans; [exact H1|].
    unfold new_request. cbn [fst snd].
    set (cid := length (customers s1)).
    set (c0 := Customer a r false false false).
    set (s2 := set_customers (customers s1 ++ [c0]) s1).
    assert (H2 : ext s1 s2).
    { split; [|split; [reflexivity|auto]].
      intros i c Hi. exists c. split; [|auto]. simpl.
      rewrite nth_error_app1; [exact Hi|].
      apply nth_error_Some. congruence. }
    eapply ext_trans; [exact H2|].
    pose proof (ext_request r cid s2) as H3.
    eapply ext_trans; [exact H3|].
    apply ext_schedule. unfold entry_ok. cbn [ev at_time].
    destruct H3 as (G3 & N3 & _).
    destruct (G3 cid c0) as (c' & Hc' & Ha' & _).
    { simpl. unfold cid. rewrite nth_error_app2 by lia.
      rewrite Nat.sub_diag. reflexivity. }
    exists c'. split; [exact Hc'|].
    rewrite Ha'. cbn [arrival_time c0]. rewrite N3.
    change (now s2) with (now s1).
    destruct H1 as (_ & N1 & _). rewrite N1, Hnow. reflexivity.
Qed.

Lemma ext_customer_process_resumed (cid : nat) (s : state) :
  ext s (fst (customer_process_resumed draws cid s)).
Proof.
  unfold customer_process_resumed.
  destruct (nth_error (customers s) cid) as [c|]; [|apply ext_refl].
  apply ext_with_request. destruct (processed c).
  - unfold bind, gets, modify, exponential. simpl.
    set (s1 := set_rng _ _).
    pose proof (ext_timeout (1 * draws (rng s)) (Timeout_service cid) s1 I) as H.
    destruct (timeout (1 * draws (rng s)) (Timeout_service cid) s1)
      as [s2 [e|u]]; simpl in *;
      (eapply ext_trans; [|exact H]); apply ext_same; reflexivity.
  - apply ext_same; reflexivity.
Qed.

Lemma ext_customer_process_served (cid : nat) (s : state) :
  ext s (fst (customer_process_served cid s)).
Proof.
  unfold customer_process_served. apply ext_with_request.
  apply ext_same; reflexivity.
Qed.

(** What is known of the event being dispatched is enough for the events it
    schedules. *)
Lemma ext_dispatch (e : entry) (s : state) :
  now s = at_time e -> entry_ok (customers s) e ->
  ext s (dispatch P draws (ev e) s).
Proof.
  intros Hnow Hok. unfold entry_ok in Hok.
  destruct (ev e) eqn:E; cbn [dispatch].
  - apply ext_resume, ext_customer_arrival.
  - apply ext_resume, ext_customer_process. rewrite Hnow. exact Hok.
  - apply ext_resume, ext_open_extra_cashier_process.
  - apply ext_resume, ext_customer_arrival_resumed.
  - apply ext_condition_check. intros c Hc. right.
    destruct Hok as (c' & Hc' & Ht). rewrite Hnow.
    assert (c' = c) by congruence. subst c'. exact Ht.
  - apply ext_resume, ext_customer_process_served.
  - apply ext_resume, ext_open_extra_cashier_process_resumed.
  - eapply ext_trans; [apply (ext_update_customer cid set_processed s); auto|].
    apply ext_condition_check. intros c Hc. left.
    rewrite nth_error_update_customer in Hc.
    destruct (Nat.eq_dec cid cid) as [_|Hn]; [|contradiction].
    destruct (nth_error (customers s) cid); [|discriminate].
    injection Hc as <-. reflexivity.
  - apply ext_trigger_put.
  - apply ext_resume, ext_customer_process_resumed.
  - apply ext_refl.
  - apply ext_refl.
  - apply ext_refl.
Qed.

Lemma timed_ext (s s' : state) :
  Forall (entry_ok (customers s)) (queue s) -> ext s s' -> timed s'.
Proof.
  intros H (G & _ & Hq). apply Forall_forall. intros x Hx.
  destruct (Hq x Hx) as [Hin|Hok]; [|exact Hok].
  rewrite Forall_forall in H. eapply entry_ok_grows; eauto.
Qed.

Lemma timed_step (s s' : state) :
  timed s -> step P draws s = Next s' -> timed s'.
Proof.
  intros H Hstep. apply step_inv in Hstep.
  destruct Hstep as (e & q & Hq & -> & _).
  unfold timed in H. rewrite Hq in H. inversion H as [|? ? He Hrest]; subst.
  set (s1 := set_history (e :: history s)
               (set_now (at_time e) (set_queue q (next_eid s) s))).
  apply (timed_ext s1); [exact Hrest|].
  apply ext_dispatch; [reflexivity|exact He].
Qed.

Lemma timed_start (n : nat) : timed (start P n).
Proof.
  unfold timed.
  change (queue (start P n))
    with [Entry (0 + 0) URGENT 0 Initialize_arrival; Entry (0 + 200) URGENT 1 Until].
  repeat constructor.
Qed.

Lemma timed_reachable (s : state) : reachable P draws s -> timed s.
Proof.
  induction 1 as [n|s s' _ IH H]; [apply timed_start|].
  eapply timed_step; eauto.
Qed.

End Timing.

(** ** Reneging *)







Section Reneging.

Variable P : params.
Variable draws : nat -> Q.


End Reneging.




Local Open Scope R_scope.

(** ** The confidence half-width *)

Lemma np_sum_Val (xs : list R) : np_sum (map Val xs) = Val (Rsum xs).
Proof.
  induction xs as [|x xs IH]; [reflexivity|].
  change (np_sum (map Val (x :: xs))) with (np_add (Val x) (np_sum (map Val xs))).
  rewrite IH. reflexivity.
Qed.

Lemma INR_length_pos {A : Type} (l : list A) : l <> [] -> 0 < INR (length l).
Proof.
  intros H. destruct l as [|a l]; [contradiction|].
  apply lt_0_INR. simpl. lia.
Qed.

Lemma np_mean_Val (xs : list R) :
  xs <> [] -> np_mean (map Val xs) = Val (Rmean xs).
Proof.
  intros H. unfold np_mean. rewrite np_sum_Val, length_map. simpl.
  destruct (Req_dec_T (INR (length xs)) 0) as [E|_]; [|reflexivity].
  pose proof (INR_length_pos xs H). lra.
Qed.

Lemma Rsum_nonneg (l : list R) : (forall x, In x l -> 0 <= x) -> 0 <= Rsum l.
Proof.
  induction l as [|a l IH]; simpl; intros H; [lra|].
  assert (0 <= a) by (apply H; auto).
  assert (0 <= Rsum l) by (apply IH; auto). lra.
Qed.

Lemma sum_sq_dev_nonneg (l : list R) : 0 <= sum_sq_dev l.
Proof.
  unfold sum_sq_dev. apply Rsum_nonneg. intros x Hx.
  apply in_map_iff in Hx. destruct Hx as (y & <- & _).
  apply (Rle_0_sqr (y - Rmean l)).
Qed.

Lemma np_std_Val (xs : list R) :
  xs <> [] -> np_std (map Val xs) = Val (population_std xs).
Proof.
  intros H. unfold np_std. rewrite (np_mean_Val xs H). rewrite map_map.
  assert (Hmap : map (fun x => let d := np_abs (np_sub (Val x) (Val (Rmean xs))) in
                               np_mul d d) xs
                 = map Val (map (fun x => (x - Rmean xs) * (x - Rmean xs)) xs)).
  { rewrite map_map. apply map_ext. intros x. simpl. f_equal.
    fold (Rsqr (Rabs (x - Rmean xs))). rewrite <- Rsqr_abs. reflexivity. }
  cbv zeta in Hmap. rewrite Hmap. rewrite np_mean_Val.
  2:{ destruct xs; [contradiction|discriminate]. }
  unfold Rmean at 1. rewrite length_map. fold (sum_sq_dev xs). simpl.
  destruct (Rlt_dec (sum_sq_dev xs / INR (length xs)) 0) as [Hlt|_]; [|reflexivity].
  exfalso. pose proof (sum_sq_dev_nonneg xs). pose proof (INR_length_pos xs H).
  assert (0 <= sum_sq_dev xs / INR (length xs)).
  { apply Rmult_le_pos; [assumption|]. left. apply Rinv_0_lt_compat. assumption. }
  lra.
Qed.

(** On finite values the half-width is 1.96 times the population standard
    deviation over the square root of the number of runs. *)
Lemma half_width_Val (xs : list R) :
  xs <> [] ->
  half_width (length xs) (map Val xs) =
    Val (196 / 100 * population_std xs / sqrt (INR (length xs))).
Proof.
  intros H. unfold half_width. rewrite (np_std_Val xs H). simpl.
  pose proof (INR_length_pos xs H) as Hpos.
  destruct (Rlt_dec (INR (length xs)) 0) as [Hlt|_]; [lra|].
  destruct (Req_dec_T (sqrt (INR (length xs))) 0) as [E|_]; [|reflexivity].
  pose proof (sqrt_lt_R0 _ Hpos). lra.
Qed.

(** C6, as the code has it.  For lists of finite per-replication values,
    one per run, [simulate] returns their means and, as half-widths, 1.96
    times the population standard deviation (divisor [n], the default of
    [np.std]) over the square root of the number of runs. *)
Theorem half_width_population_std (xs ys : list R) (lost : list nat) :
  xs <> [] -> length ys = length xs ->
  aggregate (length xs) (map Val xs) (map Val ys) lost =
    ((Val (Rmean xs),
      Val (196 / 100 * population_std xs / sqrt (INR (length xs)))),
     (Val (Rmean ys),
      Val (196 / 100 * population_std ys / sqrt (INR (length ys))))).
Proof.
  intros Hx Hlen.
  assert (Hy : ys <> []).
  { destruct ys; [destruct xs; [contradiction|discriminate]|discriminate]. }
  unfold aggregate. rewrite (np_mean_Val xs Hx), (np_mean_Val ys Hy).
  rewrite (half_width_Val xs Hx). rewrite <- Hlen.
  rewrite (half_width_Val ys Hy). reflexivity.
Qed.

Lemma half_width_population_std_witness :
  aggregate 2 [Val 0; Val 2] [Val 1; Val 1] [0%nat; 0%nat] =
    ((Val (Rmean [0; 2]),
      Val (196 / 100 * population_std [0; 2] / sqrt (INR 2))),
     (Val (Rmean [1; 1]),
      Val (196 / 100 * population_std [1; 1] / sqrt (INR 2)))).
Proof.
  apply (half_width_population_std [0; 2] [1; 1] [0%nat; 0%nat]).
  - discriminate.
  - reflexivity.
Defined.

Lemma population_std_0_2 : population_std [0; 2] = 1.
Proof.
  unfold population_std, sum_sq_dev, Rmean, Rsum. simpl.
  replace ((0 - (0 + (2 + 0)) / (1 + 1)) * (0 - (0 + (2 + 0)) / (1 + 1)) +
           ((2 - (0 + (2 + 0)) / (1 + 1)) * (2 - (0 + (2 + 0)) / (1 + 1)) + 0))
    with 2 by field.
  replace (2 / (1 + 1)) with 1 by field. apply sqrt_1.
Qed.

Lemma sample_std_0_2 : sample_std [0; 2] = sqrt 2.
Proof.
  unfold sample_std, sum_sq_dev, Rmean, Rsum. simpl. f_equal. field.
Qed.

Lemma sqrt_2_not_1 : sqrt 2 <> 1.
Proof.
  intros H. rewrite <- sqrt_1 in H. apply sqrt_inj in H; lra.
Qed.

(** C6 as stated fails: for the profits 0 and 2 of two runs the code's
    half-width is [1.96 / sqrt 2], the sample formula gives [1.96]. *)
Lemma half_width_not_sample_std :
  snd (fst (aggregate 2 [Val 0; Val 2] [Val 1; Val 1] [0%nat; 0%nat]))
    <> Val (spec_half_width [0; 2]).
Proof.
  unfold aggregate. simpl fst. simpl snd.
  change [Val 0; Val 2] with (map Val [0; 2]).
  change 2%nat with (length [0; 2]) at 1.
  rewrite half_width_Val by discriminate.
  unfold spec_half_width. rewrite population_std_0_2, sample_std_0_2.
  simpl length. simpl INR.
  intros H. injection H as H.
  assert (Hs : 0 < sqrt (1 + 1)) by (apply sqrt_lt_R0; lra).
  assert (Hs2 : sqrt (1 + 1) = sqrt 2) by (f_equal; lra).
  rewrite Hs2 in *.
  assert (E : 196 / 100 * sqrt 2 / sqrt 2 = 196 / 100) by (field; lra).
  rewrite E in H.
  assert (E2 : 196 / 100 * 1 / sqrt 2 * sqrt 2 = 196 / 100) by (field; lra).
  rewrite H in E2. apply sqrt_2_not_1. lra.
Qed.

(** ** Replications that served nobody *)

Lemma np_add_NaN_r (a : npfloat) : np_add a NaN = NaN.
Proof. destruct a; reflexivity. Qed.

Lemma np_sum_NaN (l : list npfloat) : In NaN l -> np_sum l = NaN.
Proof.
  induction l as [|a l IH]; intros H; [contradiction|].
  change (np_sum (a :: l)) with (np_add a (np_sum l)).
  destruct H as [->|H]; [reflexivity|].
  rewrite (IH H). apply np_add_NaN_r.
Qed.

Lemma np_mean_NaN (l : list npfloat) : In NaN l -> np_mean l = NaN.
Proof. intros H. unfold np_mean. rewrite (np_sum_NaN l H). reflexivity. Qed.

Lemma np_std_NaN (l : list npfloat) : In NaN l -> np_std l = NaN.
Proof.
  intros H. unfold np_std. rewrite (np_mean_NaN l H).
  rewrite np_mean_NaN; [reflexivity|].
  apply in_map_iff. exists NaN. split; [reflexivity|exact H].
Qed.

Lemma half_width_NaN (n : nat) (l : list npfloat) : In NaN l -> half_width n l = NaN.
Proof. intros H. unfold half_width. rewrite (np_std_NaN l H). reflexivity. Qed.

(** The mean of no waiting time at all is not a number. *)
Lemma np_mean_nil : np_mean [] = NaN.
Proof.
  unfold np_mean. simpl.
  destruct (Req_dec_T 0 0) as [_|H]; [reflexivity|contradiction].
Qed.

Lemma avg_waiting_times_NaN (runs : list state) :
  (exists s, In s runs /\ waiting_times s = []) ->
  In NaN (map (fun s => np_mean (map of_Q (waiting_times s))) runs).
Proof.
  intros (s & Hin & Hw). apply in_map_iff. exists s. split; [|exact Hin].
  rewrite Hw. apply np_mean_nil.
Qed.

(** C7, as the code has it.  When some replication served no customer, its
    mean wait is not a number and both wait-time statistics that [simulate]
    returns are not a number: nothing is left out or replaced. *)
Theorem empty_replication_gives_nan (num_runs : nat) (runs : list state) :
  (exists s, In s runs /\ waiting_times s = []) ->
  snd (summarize num_runs runs) = (NaN, NaN).
Proof.
  intros H. apply avg_waiting_times_NaN in H.
  unfold summarize, aggregate. simpl.
  rewrite (np_mean_NaN _ H), (half_width_NaN _ _ H). reflexivity.
Qed.

Lemma mixed_runs_replications :
  replications crowded_params mixed_draws 30 2 0 = Returns mixed_runs.
Proof. vm_compute. reflexivity. Qed.

Lemma empty_replication_gives_nan_witness :
  map (fun s => length (waiting_times s)) mixed_runs = [0%nat; 1%nat] /\
  snd (summarize 2 mixed_runs) = (NaN, NaN).
Proof.
  split; [reflexivity|].
  apply (empty_replication_gives_nan 2 mixed_runs).
  eexists. split; [left; reflexivity|reflexivity].
Defined.

(** C7 as stated fails: this call returns, one of its replications served
    nobody, and the wait-time mean and half-width it returns are both not a
    number. *)
Lemma nan_reaches_wait_statistics :
  map (fun s => length (waiting_times s)) mixed_runs = [0%nat; 1%nat] /\
  exists stats,
    simulate crowded_params mixed_draws 30 2 = Returns stats /\
    snd stats = (NaN, NaN).
Proof.
  split; [reflexivity|].
  unfold simulate. rewrite mixed_runs_replications.
  eexists. split; [reflexivity|].
  assert (H : In NaN (map (fun s => np_mean (map of_Q (waiting_times s))) mixed_runs)).
  { apply avg_waiting_times_NaN. eexists. split; [left; reflexivity|reflexivity]. }
  unfold summarize, aggregate. cbv zeta. cbn [snd].
  rewrite (np_mean_NaN _ H), (half_width_NaN _ _ H). reflexivity.
Qed.

(** ** What [simulate] reports *)

(** The statistics depend on the profits and the waiting times only. *)
Lemma summarize_ext (n : nat) (runs runs' : list state) :
  map profit runs = map profit runs' ->
  map waiting_times runs = map waiting_times runs' ->
  summarize n runs = summarize n runs'.
Proof.
  intros Hp Hw. unfold summarize, aggregate.
  assert (E1 : map (fun s => of_Q (profit s)) runs
               = map (fun s => of_Q (profit s)) runs').
  { rewrite <- (map_map profit of_Q runs), <- (map_map profit of_Q runs').
    rewrite Hp. reflexivity. }
  assert (E2 : map (fun s => np_mean (map of_Q (waiting_times s))) runs
               = map (fun s => np_mean (map of_Q (waiting_times s))) runs').
  { rewrite <- (map_map waiting_times (fun w => np_mean (map of_Q w)) runs).
    rewrite <- (map_map waiting_times (fun w => np_mean (map of_Q w)) runs').
    rewrite Hw. reflexivity. }
  rewrite E1, E2. reflexivity.
Qed.

Section Reported.

Variables P P' : params.
Variables draws draws' : nat -> Q.
Variables fuel fuel' : nat.

(** C9, as the code has it.  [simulate] returns the mean and the half-width
    for the profit and for the mean wait, and nothing else: two calls whose
    replications agree on profits and waiting times return the same
    statistics, whatever their lost-customer counts. *)
Theorem simulate_reports_profit_and_wait (n : nat) (runs runs' : list state) :
  replications P draws fuel n 0 = Returns runs ->
  replications P' draws' fuel' n 0 = Returns runs' ->
  map profit runs = map profit runs' ->
  map waiting_times runs = map waiting_times runs' ->
  simulate P draws fuel n =
    Returns
      ((np_mean (map (fun s => of_Q (profit s)) runs),
        half_width n (map (fun s => of_Q (profit s)) runs)),
       (np_mean (map (fun s => np_mean (map of_Q (waiting_times s))) runs),
        half_width n (map (fun s => np_mean (map of_Q (waiting_times s))) runs)))
  /\ simulate P' draws' fuel' n = simulate P draws fuel n.
Proof.
  intros Hr Hr' Hp Hw. unfold simulate. rewrite Hr, Hr'. split.
  - reflexivity.
  - f_equal. symmetry. apply summarize_ext; assumption.
Qed.

End Reported.

Lemma patient_run_replications :
  replications crowded_params patient_draws 40 1 0 = Returns patient_run.
Proof. vm_compute. reflexivity. Qed.

Lemma impatient_run_replications :
  replications crowded_params impatient_draws 40 1 0 = Returns impatient_run.
Proof. vm_compute. reflexivity. Qed.

Lemma simulate_reports_profit_and_wait_witness :
  map lost_customers patient_run = [0%nat] /\
  map lost_customers impatient_run = [1%nat] /\
  simulate crowded_params impatient_draws 40 1 =
    simulate crowded_params patient_draws 40 1.
Proof.
  split; [reflexivity|]. split; [reflexivity|].
  apply (simulate_reports_profit_and_wait
           crowded_params crowded_params patient_draws impatient_draws 40 40 1
           patient_run impatient_run).
  - vm_compute. reflexivity.
  - vm_compute. reflexivity.
  - reflexivity.
  - reflexivity.
Defined.

(** C9 as stated fails: these two calls return the same statistics while
    the mean lost-customer count is 0 in one and 1 in the other, so no
    lost-customer statistic can be had from what [simulate] returns. *)
Lemma lost_count_not_reported :
  replications crowded_params patient_draws 40 1 0 = Returns patient_run /\
  replications crowded_params impatient_draws 40 1 0 = Returns impatient_run /\
  simulate crowded_params patient_draws 40 1 =
    simulate crowded_params impatient_draws 40 1 /\
  mean_lost patient_run = Val 0 /\
  mean_lost impatient_run = Val 1.
Proof.
  split; [exact patient_run_replications|].
  split; [exact impatient_run_replications|].
  split.
  - unfold simulate.
    rewrite patient_run_replications, impatient_run_replications.
    apply f_equal. apply summarize_ext; reflexivity.
  - unfold mean_lost, np_mean. simpl.
    destruct (Req_dec_T 1 0) as [E|_]; [lra|].
    split; f_equal; field.
Qed.

(** ** The configuration is not validated *)

Local Open Scope Q_scope.

Lemma blind_ret {A : Type} (a : A) : blind (ret a).
Proof. intros s p. reflexivity. Qed.

Lemma blind_raise {A : Type} (e : exn) : blind (raise (A := A) e).
Proof. intros s p. reflexivity. Qed.

Lemma blind_bind {A B : Type} (m : M A) (f : A -> M B) :
  blind m -> (forall a, blind (f a)) -> blind (bind m f).
Proof.
  intros Hm Hf s p. unfold bind. rewrite Hm.
  destruct (m s) as [s1 [e|a]]; simpl; [reflexivity|]. apply Hf.
Qed.

Lemma blind_gets {A : Type} (f : state -> A) :
  (forall s p, f (set_profit p s) = f s) -> blind (gets f).
Proof. intros H s p. unfold gets. rewrite H. reflexivity. Qed.

Lemma blind_modify (f : state -> state) :
  (forall s p, f (set_profit p s) = set_profit p (f s)) -> blind (modify f).
Proof. intros H s p. unfold modify. rewrite H. reflexivity. Qed.

Lemma blind_timeout (d : Q) (e : event) : blind (timeout d e).
Proof.
  unfold timeout. destruct (Qltb d 0); [apply blind_raise|].
  apply blind_modify. reflexivity.
Qed.

Lemma blind_process (e : event) : blind (process e).
Proof. apply blind_modify. reflexivity. Qed.

Lemma get_resource_set_profit (r : res_id) (s : state) (p : Q) :
  get_resource r (set_profit p s) = get_resource r s.
Proof. destruct r; reflexivity. Qed.

Lemma set_resource_set_profit (r : res_id) (x : resource) (s : state) (p : Q) :
  set_resource r x (set_profit p s) = set_profit p (set_resource r x s).
Proof. destruct r; reflexivity. Qed.

Lemma update_customer_set_profit (cid : nat) (f : customer -> customer) (s : state) (p : Q) :
  update_customer cid f (set_profit p s) = set_profit p (update_customer cid f s).
Proof.
  unfold update_customer. cbn [customers set_profit].
  destruct (nth_error (customers s) cid); reflexivity.
Qed.

Lemma blind_trigger_put (r : res_id) (s : state) (p : Q) :
  trigger_put r (set_profit p s) = set_profit p (trigger_put r s).
Proof.
  unfold trigger_put. rewrite get_resource_set_profit.
  destruct (get_resource r s) as [[us [|cid pending]]|]; try reflexivity.
  destruct (Nat.ltb (length us) 1); [|reflexivity].
  rewrite set_resource_set_profit, update_customer_set_profit. reflexivity.
Qed.

Lemma blind_request (r : res_id) (cid : nat) (s : state) (p : Q) :
  request r cid (set_profit p s) = set_profit p (request r cid s).
Proof.
  unfold request. rewrite get_resource_set_profit.
  destruct (get_resource r s) as [[us pending]|]; [|reflexivity].
  rewrite set_resource_set_profit. apply blind_trigger_put.
Qed.

Lemma blind_release (r : res_id) (cid : nat) (s : state) (p : Q) :
  release r cid (set_profit p s) = set_profit p (release r cid s).
Proof.
  unfold release. rewrite get_resource_set_profit.
  destruct (get_resource r s) as [[us pending]|]; [|reflexivity].
  rewrite set_resource_set_profit. reflexivity.
Qed.

Lemma blind_cancel (r : res_id) (cid : nat) (x : customer) : blind (cancel r cid x).
Proof.
  intros s p. unfold cancel. destruct (triggered x); [reflexivity|].
  rewrite get_resource_set_profit.
  destruct (get_resource r s) as [[us pending]|]; [|reflexivity].
  destruct (list_remove cid pending); [|reflexivity].
  rewrite set_resource_set_profit. reflexivity.
Qed.

Lemma blind_request_exit (cid : nat) : blind (request_exit cid).
Proof.
  intros s p. unfold request_exit. cbn [customers set_profit].
  destruct (nth_error (customers s) cid) as [x|]; [|reflexivity].
  rewrite blind_cancel.
  destruct (cancel (cashier x) cid x s) as [s1 [e|u]]; simpl; [reflexivity|].
  rewrite blind_release. reflexivity.
Qed.

Lemma blind_with_request (cid : nat) (body : M status) :
  blind body -> blind (with_request cid body).
Proof.
  intros Hb s p. unfold with_request. rewrite Hb.
  destruct (body s) as [s1 [e|[|]]]; simpl; try reflexivity;
    rewrite blind_request_exit;
    destruct (request_exit cid s1) as [s2 [e'|u]]; reflexivity.
Qed.

Lemma blind_condition_check (cid : nat) (s : state) (p : Q) :
  condition_check cid (set_profit p s) = set_profit p (condition_check cid s).
Proof.
  unfold condition_check. cbn [customers set_profit].
  destruct (nth_error (customers s) cid) as [x|]; [|reflexivity].
  destruct (cond_triggered x); [reflexivity|].
  rewrite update_customer_set_profit. reflexivity.
Qed.

Lemma blind_resume (body' body : M status) (s : state) (p : Q) :
  (forall s p, body' (set_profit p s) = (set_profit p (fst (body s)), snd (body s))) ->
  resume body' (set_profit p s) = set_profit p (resume body s).
Proof.
  intros H. unfold resume. rewrite H.
  destruct (body s) as [s1 [e|[|]]]; reflexivity.
Qed.

Section BlindSupermarket.

Variable P : params.
Variable draws : nat -> Q.

Lemma blind_exponential (scale : Q) : blind (exponential draws scale).
Proof.
  intros s p. unfold exponential. destruct (Qltb scale 0); reflexivity.
Qed.

Lemma blind_py_div (a b : Q) : blind (py_div a b).
Proof. unfold py_div. destruct (Qeq_bool b 0); [apply blind_raise|apply blind_ret]. Qed.

Lemma blind_customer_arrival : blind (customer_arrival P draws).
Proof.
  unfold customer_arrival.
  apply blind_bind; [apply blind_py_div|]. intros scale.
  apply blind_bind; [apply blind_exponential|]. intros interval.
  apply blind_bind; [apply blind_timeout|]. intros _. apply blind_ret.
Qed.

Lemma blind_customer_arrival_resumed : blind (customer_arrival_resumed P draws).
Proof.
  unfold customer_arrival_resumed.
  apply blind_bind; [apply blind_gets; reflexivity|]. intros a.
  apply blind_bind; [apply blind_process|]. intros _.
  apply blind_customer_arrival.
Qed.

Lemma blind_open_extra_cashier_process : blind open_extra_cashier_process.
Proof.
  unfold open_extra_cashier_process.
  apply blind_bind; [apply blind_gets; reflexivity|]. intros b.
  destruct (negb b); [|apply blind_ret].
  apply blind_bind; [apply blind_modify; reflexivity|]. intros _.
  apply blind_bind; [apply blind_timeout|]. intros _. apply blind_ret.
Qed.

Lemma blind_choose_cashier : blind (choose_cashier P).
Proof.
  unfold choose_cashier.
  apply blind_bind; [apply blind_gets; reflexivity|]. intros [|[m i] t].
  - apply blind_raise.
  - apply blind_bind; [apply blind_gets; reflexivity|]. intros b.
    destruct b; [apply blind_ret|].
    apply blind_bind; [|intros _; apply blind_ret].
    destruct (negb false && (extra_cashier_policy P <=? Z.of_nat m)%Z);
      [apply blind_process|apply blind_ret].
Qed.

Lemma blind_new_request (a : Q) (r : res_id) : blind (new_request a r).
Proof.
  intros s p. unfold new_request. cbn [customers set_profit fst snd].
  change (set_customers ?l (set_profit p s))
    with (set_profit p (set_customers l s)).
  rewrite blind_request. reflexivity.
Qed.

Lemma blind_customer_process (a : Q) : blind (customer_process P a).
Proof.
  unfold customer_process.
  apply blind_bind; [apply blind_choose_cashier|]. intros [r|].
  - apply blind_bind; [apply blind_new_request|]. intros cid.
    apply blind_with_request.
    apply blind_bind; [apply blind_timeout|]. intros _. apply blind_ret.
  - apply blind_bind; [apply blind_modify; reflexivity|]. intros _.
    apply blind_ret.
Qed.

Lemma blind_customer_process_resumed (cid : nat) :
  blind (customer_process_resumed draws cid).
Proof.
  intros s p. unfold customer_process_resumed. cbn [customers set_profit].
  destruct (nth_error (customers s) cid) as [x|]; [|reflexivity].
  apply blind_with_request. destruct (processed x).
  - apply blind_bind; [apply blind_gets; reflexivity|]. intros t.
    apply blind_bind; [apply blind_modify; reflexivity|]. intros _.
    apply blind_bind; [apply blind_exponential|]. intros d.
    apply blind_bind; [apply blind_timeout|]. intros _. apply blind_ret.
  - apply blind_bind; [apply blind_modify; reflexivity|]. intros _.
    apply blind_ret.
Qed.

End BlindSupermarket.

Section CostIsNotChecked.

Variable P : params.
Variable draws : nat -> Q.
Variable c : Q.

(** [C] is only ever subtracted from the profit, which nothing reads. *)
Lemma dispatch_with_C (e : event) (s : state) (p : Q) :
  dispatch (with_C P c) draws e (set_profit p s) =
    set_profit (profit_after c e p) (dispatch P draws e s).
Proof.
  destruct e; cbn [dispatch profit_after].
  - apply blind_resume. exact (blind_customer_arrival P draws).
  - apply blind_resume. exact (blind_customer_process P arrival_time0).
  - apply blind_resume. exact blind_open_extra_cashier_process.
  - apply blind_resume. exact (blind_customer_arrival_resumed P draws).
  - apply blind_condition_check.
  - unfold resume, customer_process_served, with_request, bind, modify, ret.
    cbn [profit set_profit].
    change (set_profit (p + 10) (set_profit p s)) with (set_profit (p + 10) s).
    rewrite (blind_request_exit cid s (p + 10)).
    rewrite (blind_request_exit cid s (profit s + 10)).
    destruct (request_exit cid s) as [s1 [x|u]]; reflexivity.
  - reflexivity.
  - rewrite update_customer_set_profit. apply blind_condition_check.
  - apply blind_trigger_put.
  - apply blind_resume. exact (blind_customer_process_resumed draws cid).
  - reflexivity.
  - reflexivity.
  - reflexivity.
Qed.

Lemma step_with_C (s : state) (p : Q) :
  step (with_C P c) draws (set_profit p s) =
    match step P draws s with
    | Next s' =>
        Next (set_profit (profit_after c (ev (hd (Entry 0 0 0 Until) (queue s))) p) s')
    | Stop s' => Stop (set_profit p s')
    | Raise x s' => Raise x (set_profit p s')
    | EmptySchedule => EmptySchedule
    end.
Proof.
  unfold step. cbn [queue set_profit next_eid history].
  destruct (queue s) as [|e q]; [reflexivity|]. cbn [hd].
  set (s1 := set_history (e :: history s)
               (set_now (at_time e) (set_queue q (next_eid s) s))).
  change (set_history _ _) with (set_profit p s1).
  destruct (ev e) eqn:E; try reflexivity;
    rewrite <- dispatch_with_C; reflexivity.
Qed.

(** Whether a run finishes or raises does not depend on [C], nor does
    anything in the final state but the profit. *)
Lemma run_with_C (fuel : nat) :
  forall s p,
    match run P draws fuel s with
    | Finished s' =>
        exists p', run (with_C P c) draws fuel (set_profit p s)
                   = Finished (set_profit p' s')
    | Raised x => run (with_C P c) draws fuel (set_profit p s) = Raised x
    | OutOfFuel => run (with_C P c) draws fuel (set_profit p s) = OutOfFuel
    end.
Proof.
  induction fuel as [|fuel IH]; intros s p; simpl; [reflexivity|].
  rewrite step_with_C.
  destruct (step P draws s) as [s'|s'|x s'|]; try reflexivity.
  - apply IH.
  - eexists. reflexivity.
Qed.

(** The same for a replication, from the state [Supermarket.__init__]
    leaves. *)
Lemma replication_with_C (fuel n : nat) :
  match replication P draws fuel n with
  | Finished s =>
      exists p, replication (with_C P c) draws fuel n = Finished (set_profit p s)
  | Raised x => replication (with_C P c) draws fuel n = Raised x
  | OutOfFuel => replication (with_C P c) draws fuel n = OutOfFuel
  end.
Proof.
  unfold replication. pose proof (run_with_C fuel (start P n) 0) as H.
  change (set_profit 0 (start P n)) with (start (with_C P c) n) in H.
  exact H.
Qed.

End CostIsNotChecked.

Section ArrivalFailure.

Variable P : params.
Variable draws : nat -> Q.

(** A replication whose arrival process raises at its first turn: the
    failed process is the second event of the run. *)
Lemma run_arrival_fails (x : exn) (fuel n : nat) :
  (forall s, customer_arrival P draws s = (s, inl x)) ->
  run P draws (S (S fuel)) (start P n) = Raised x.
Proof.
  intros H. cbn [run]. unfold step at 1.
  change (queue (start P n))
    with [Entry (0 + 0) URGENT 0 Initialize_arrival; Entry (0 + 200) URGENT 1 Until].
  cbn [ev dispatch]. unfold resume. rewrite H.
  reflexivity.
Qed.

Lemma customer_arrival_zero_rate (s : state) :
  lambda_rate P == 0 -> customer_arrival P draws s = (s, inl ZeroDivisionError).
Proof.
  intros H. unfold customer_arrival, bind, py_div.
  apply Qeq_bool_iff in H. rewrite H. reflexivity.
Qed.

Lemma Qinv_neg (a : Q) : a < 0 -> 1 / a < 0.
Proof.
  destruct a as [[|n|n] d]; unfold Qlt, Qdiv, Qmult, Qinv; simpl; lia.
Qed.

Lemma customer_arrival_negative_rate (s : state) :
  lambda_rate P < 0 -> customer_arrival P draws s = (s, inl ValueError).
Proof.
  intros H. unfold customer_arrival, bind, py_div, ret, exponential.
  assert (Hne : Qeq_bool (lambda_rate P) 0 = false).
  { destruct (Qeq_bool (lambda_rate P) 0) eqn:E; [|reflexivity].
    apply Qeq_bool_iff in E. rewrite E in H. discriminate. }
  rewrite Hne.
  assert (Hlt : Qltb (1 / lambda_rate P) 0 = true).
  { unfold Qltb. destruct (Qle_bool 0 (1 / lambda_rate P)) eqn:E; [|reflexivity].
    apply Qle_bool_iff in E. apply Qinv_neg in H.
    exfalso. apply (Qlt_not_le _ _ H E). }
  rewrite Hlt. reflexivity.
Qed.

Lemma simulate_arrival_fails (x : exn) (fuel num_runs : nat) :
  (forall s, customer_arrival P draws s = (s, inl x)) ->
  simulate P draws (S (S fuel)) (S num_runs) = Raises x.
Proof.
  intros H. unfold simulate. cbn [replications]. unfold replication.
  rewrite (run_arrival_fails x fuel 0 H). reflexivity.
Qed.

Lemma length_list_set {A : Type} (l : list A) :
  forall i x, length (list_set i x l) = length l.
Proof.
  induction l as [|h t IH]; intros [|i] x; simpl; auto.
Qed.

Lemma length_cashiers_set_resource (r : res_id) (x : resource) (s : state) :
  length (cashiers (set_resource r x s)) = length (cashiers s).
Proof. destruct r; simpl; [apply length_list_set|reflexivity]. Qed.

Lemma length_cashiers_update_customer (cid : nat) (f : customer -> customer) (s : state) :
  length (cashiers (update_customer cid f s)) = length (cashiers s).
Proof.
  unfold update_customer. destruct (nth_error (customers s) cid); reflexivity.
Qed.

Lemma length_cashiers_trigger_put (r : res_id) (s : state) :
  length (cashiers (trigger_put r s)) = length (cashiers s).
Proof.
  unfold trigger_put.
  destruct (get_resource r s) as [[us [|cid pending]]|]; try reflexivity.
  destruct (Nat.ltb (length us) 1); [|reflexivity].
  cbn [schedule cashiers set_queue].
  rewrite length_cashiers_update_customer. apply length_cashiers_set_resource.
Qed.

Lemma length_cashiers_request (r : res_id) (cid : nat) (s : state) :
  length (cashiers (request r cid s)) = length (cashiers s).
Proof.
  unfold request. destruct (get_resource r s) as [[us pending]|]; [|reflexivity].
  rewrite length_cashiers_trigger_put. apply length_cashiers_set_resource.
Qed.

Lemma length_cashiers_request_exit (cid : nat) (s : state) :
  length (cashiers (fst (request_exit cid s))) = length (cashiers s).
Proof.
  unfold request_exit, cancel, release.
  destruct (nth_error (customers s) cid) as [x|]; [|reflexivity].
  destruct (triggered x); simpl.
  - destruct (get_resource (cashier x) s) as [[us pending]|]; [|reflexivity].
    cbn [schedule cashiers set_queue]. apply length_cashiers_set_resource.
  - destruct (get_resource (cashier x) s) as [[us pending]|] eqn:E; simpl.
    + destruct (list_remove cid pending) as [pending'|]; simpl; [|reflexivity].
      destruct (get_resource (cashier x)
                  (set_resource (cashier x) (Resource us pending') s))
        as [[us1 pending1]|]; cbn [schedule cashiers set_queue];
        rewrite ?length_cashiers_set_resource; reflexivity.
    + rewrite E. reflexivity.
Qed.

Lemma length_cashiers_customer_process (a : Q) (s : state) :
  length (cashiers (fst (customer_process P a s))) = length (cashiers s).
Proof.
  unfold customer_process, bind.
  destruct (choose_cashier P s) as [s1 res] eqn:E.
  destruct (choose_cashier_result P s s1 res E) as (Hc & _).
  destruct res as [x|[r|]]; simpl; try congruence.
  unfold new_request, with_request, timeout, bind, modify, ret. simpl.
  rewrite length_cashiers_request. simpl. congruence.
Qed.

Lemma pool_size_reachable (s : state) : reachable P draws s -> pool_size P s.
Proof.
  apply (I_reachable P draws (pool_size P)); unfold pool_size.
  - intros s0 s' Hc _ _ H. congruence.
  - intros r s0 H. rewrite length_cashiers_trigger_put. exact H.
  - intros cid s0 H. rewrite length_cashiers_request_exit. exact H.
  - intros cid s0 H. rewrite length_cashiers_update_customer. exact H.
  - intros cid s0 H. rewrite length_cashiers_update_customer. exact H.
  - intros a s0 H. rewrite length_cashiers_customer_process. exact H.
  - intros n. simpl. apply repeat_length.
Qed.

(** Without a regular cashier every routing decision raises [IndexError]. *)
Lemma choose_cashier_empty_pool (s : state) :
  (num_cashiers P < 1)%Z -> reachable P draws s ->
  choose_cashier P s = (s, inl IndexError).
Proof.
  intros Hn Hs. apply pool_size_reachable in Hs. unfold pool_size in Hs.
  assert (Hnil : cashiers s = []).
  { destruct (cashiers s); [reflexivity|]. simpl in Hs. lia. }
  pose proof (choose_cashier_cases P s) as Hc.
  unfold sorted_queues in Hc. rewrite Hnil in Hc. exact Hc.
Qed.

(** C8, as the code has it.  Nothing is checked before the replications
    start.  A zero [lambda_rate], or a negative one in the range of
    doubles, makes the call fail without a result, from the first draw of
    the first replication's arrival process ([ZeroDivisionError],
    [ValueError]); without a regular cashier every routing decision raises
    [IndexError]; and no replication looks at [C]: with another [C], a
    negative one included, a replication that reaches its horizon still
    reaches it, in the same state but for the profit, and one that raises
    still raises the same exception. *)
Theorem configuration_is_not_validated :
  (lambda_rate P == 0 -> forall fuel num_runs,
     simulate P draws (S (S fuel)) (S num_runs) = Raises ZeroDivisionError) /\
  (lambda_rate P < 0 -> in_double_range (lambda_rate P) ->
   forall fuel num_runs,
     simulate P draws (S (S fuel)) (S num_runs) = Raises ValueError) /\
  ((num_cashiers P < 1)%Z -> forall n k s,
     steps P draws k (start P n) = Some s ->
     choose_cashier P s = (s, inl IndexError)) /\
  (forall c fuel n,
     (forall s, replication P draws fuel n = Finished s ->
        exists p,
          replication (with_C P c) draws fuel n = Finished (set_profit p s)) /\
     (forall x, replication P draws fuel n = Raised x ->
        replication (with_C P c) draws fuel n = Raised x)).
Proof.
  split; [|split; [|split]].
  - intros H fuel num_runs. apply simulate_arrival_fails.
    intros s. apply customer_arrival_zero_rate. exact H.
  - intros H _ fuel num_runs. apply simulate_arrival_fails.
    intros s. apply customer_arrival_negative_rate. exact H.
  - intros H n k s Hk. apply choose_cashier_empty_pool; [exact H|].
    eapply steps_reachable; [|exact Hk]. apply reachable_start.
  - intros c fuel n. pose proof (replication_with_C P draws c fuel n) as H.
    split; [intros s E|intros x E]; rewrite E in H; exact H.
Qed.

End ArrivalFailure.

Lemma configuration_is_not_validated_witness :
  simulate zero_rate_params one_customer_draws 2 1 = Raises ZeroDivisionError /\
  simulate negative_rate_params one_customer_draws 2 1 = Raises ValueError /\
  (forall s,
     steps no_cashier_params one_customer_draws 2 (start no_cashier_params 0)
       = Some s ->
     choose_cashier no_cashier_params s = (s, inl IndexError)) /\
  exists s p,
    replication one_customer_params one_customer_draws 20 0 = Finished s /\
    replication (with_C one_customer_params (-3)) one_customer_draws 20 0
    = Finished (set_profit p s).
Proof.
  split; [|split; [|split]].
  - apply (proj1 (configuration_is_not_validated zero_rate_params one_customer_draws)).
    reflexivity.
  - apply (proj1 (proj2 (configuration_is_not_validated
                           negative_rate_params one_customer_draws))).
    + reflexivity.
    + split; apply Qle_bool_iff; reflexivity.
  - apply (proj1 (proj2 (proj2 (configuration_is_not_validated
                                  no_cashier_params one_customer_draws)))).
    reflexivity.
  - destruct (replication one_customer_params one_customer_draws 20 0)
      as [s|x|] eqn:E; [|vm_compute in E; discriminate E..].
    destruct (proj1 (proj2 (proj2 (proj2 (configuration_is_not_validated
                                            one_customer_params one_customer_draws)))
                       (-3) 20%nat 0%nat) s E) as [p Hp].
    exists s, p. split; [reflexivity|exact Hp].
Defined.

(** C8 as stated fails: with [C = -3] the call returns, and the window that
    its customer opened has added 6 to the profit. *)
Lemma negative_cost_is_accepted :
  C negative_cost_params < 0 /\
  replications negative_cost_params one_customer_draws 20 1 0
    = Returns negative_cost_run /\
  map profit negative_cost_run = [16] /\
  exists stats,
    simulate negative_cost_params one_customer_draws 20 1 = Returns stats.
Proof.
  split; [reflexivity|].
  assert (H : replications negative_cost_params one_customer_draws 20 1 0
              = Returns negative_cost_run) by (vm_compute; reflexivity).
  split; [exact H|]. split; [reflexivity|].
  unfold simulate. rewrite H. eexists. reflexivity.
Qed.

(** ** The pool and the overflow flag *)

Lemma sorted_queues_empty_pool (s : state) : cashiers s = [] -> sorted_queues s = [].
Proof. intros H. unfold sorted_queues. rewrite H. reflexivity. Qed.

Ltac no_overflow_start :=
  match goal with
  | Hnil : cashiers ?s = [], H : sorted_queues ?s = _ :: _ |- _ =>
      rewrite (sorted_queues_empty_pool s Hnil) in H; discriminate
  | |- forall x, In x _ -> _ =>
      let x := fresh "x" in
      let Hx := fresh "Hx" in
      intros x Hx; simpl in Hx;
      repeat (apply In_heappush in Hx; destruct Hx as [->|Hx]);
      first [ right; discriminate | left; assumption ]
  end.

Section EmptyPool.

Variable P : params.
Variable draws : nat -> Q.

Lemma dispatch_keeps_pool (e : event) (s : state) :
  length (cashiers (dispatch P draws e s)) = length (cashiers s).
Proof.
  apply (I_dispatch P draws (fun s' => length (cashiers s') = length (cashiers s))).
  - intros s0 s' Hc _ _ H. congruence.
  - intros r s0 H. rewrite length_cashiers_trigger_put. exact H.
  - intros cid s0 H. rewrite length_cashiers_request_exit. exact H.
  - intros cid s0 H. rewrite length_cashiers_update_customer. exact H.
  - intros cid s0 H. rewrite length_cashiers_update_customer. exact H.
  - intros a s0 H. rewrite length_cashiers_customer_process. exact H.
  - reflexivity.
Qed.

(** With an empty pool an event other than the start of the overflow
    process schedules no such start. *)
Lemma dispatch_schedules_no_overflow (e : event) (s : state) :
  cashiers s = [] -> e <> Initialize_overflow ->
  forall x, In x (queue (dispatch P draws e s)) ->
    In x (queue s) \/ ev x <> Initialize_overflow.
Proof.
  intros Hnil He. destruct e; try contradiction; crunch; no_overflow_start.
Qed.

Lemma never_opened_step (s s' : state) :
  never_opened s -> step P draws s = Next s' -> never_opened s'.
Proof.
  intros H Hstep. apply step_inv in Hstep.
  destruct Hstep as (e & q & Hq & -> & _).
  set (s1 := set_history (e :: history s)
               (set_now (at_time e) (set_queue q (next_eid s) s))).
  intros Hnil.
  assert (Hnil1 : cashiers s = []).
  { pose proof (dispatch_keeps_pool (ev e) s1) as Hl. rewrite Hnil in Hl.
    change (cashiers s1) with (cashiers s) in Hl.
    destruct (cashiers s); [reflexivity|discriminate]. }
  destruct (H Hnil1) as [Hopen Hno].
  assert (He : ev e <> Initialize_overflow).
  { apply Hno. rewrite Hq. left. reflexivity. }
  split.
  - rewrite dispatch_open. destruct (ev e); try reflexivity; try exact Hopen.
    contradiction.
  - intros x Hx.
    destruct (dispatch_schedules_no_overflow (ev e) s1 Hnil1 He x Hx) as [Hin|Hne];
      [|exact Hne].
    apply Hno. rewrite Hq. right. exact Hin.
Qed.

Lemma never_opened_start (n : nat) : never_opened (start P n).
Proof.
  intros _. split; [reflexivity|].
  change (queue (start P n))
    with [Entry (0 + 0) URGENT 0 Initialize_arrival; Entry (0 + 200) URGENT 1 Until].
  intros x [<-|[<-|[]]]; discriminate.
Qed.

(** While the overflow window is open there is a regular cashier. *)
Lemma open_has_pool (s : state) :
  reachable P draws s -> open_extra_cashier s = true -> cashiers s <> [].
Proof.
  intros Hs Hopen Hnil.
  assert (H : never_opened s).
  { clear Hopen Hnil. induction Hs as [n|s s' _ IH H];
      [apply never_opened_start|eapply never_opened_step; eauto]. }
  destruct (H Hnil) as [Hclosed _]. congruence.
Qed.

End EmptyPool.

(** C2.  In a replication, when the overflow resource is open
    [choose_cashier] returns it and leaves the state as it is, whatever the
    queues (the same holds in any state with a regular cashier).  Otherwise,
    with at least one regular cashier, the cashier it selects is the one of
    least queue length, the lowest index among equals, which it returns when
    that length is below 5 (and [None] otherwise). *)
Theorem choose_cashier_selects (P : params) (draws : nat -> Q) (s : state) :
  (forall n k, steps P draws k (start P n) = Some s ->
     open_extra_cashier s = true ->
     choose_cashier P s = (s, inr (Some Extra))) /\
  (cashiers s <> [] -> open_extra_cashier s = true ->
     choose_cashier P s = (s, inr (Some Extra))) /\
  (cashiers s <> [] -> open_extra_cashier s = false ->
     exists i c,
       nth_error (cashiers s) i = Some c /\
       (forall j c', nth_error (cashiers s) j = Some c' ->
          (length (put_queue c) <= length (put_queue c'))%nat /\
          ((j < i)%nat -> (length (put_queue c) < length (put_queue c'))%nat)) /\
       hd_error (sorted_queues s) = Some (length (put_queue c), i) /\
       snd (choose_cashier P s) =
         inr (if Nat.ltb (length (put_queue c)) 5 then Some (Regular i) else None)).
Proof.
  assert (Hopen : cashiers s <> [] -> open_extra_cashier s = true ->
                  choose_cashier P s = (s, inr (Some Extra))).
  { intros Hne Ho. pose proof (choose_cashier_cases P s) as Hc.
    destruct (sorted_queues s) as [|[m i] t] eqn:E.
    - apply sorted_queues_nil in E. contradiction.
    - rewrite Ho in Hc. exact Hc. }
  split; [|split].
  - intros n k Hk Ho. apply Hopen; [|exact Ho].
    apply (open_has_pool P draws); [|exact Ho].
    eapply steps_reachable; [|exact Hk]. apply reachable_start.
  - exact Hopen.
  - intros Hne Hclosed.
    destruct (sorted_queues s) as [|[m i] t] eqn:E.
    { apply sorted_queues_nil in E. contradiction. }
    pose proof E as E'. unfold sorted_queues in E'.
    destruct (sort_by_key_head (cashiers s) 0 (m, i) t E')
      as (_ & (c & Hc & Hlen) & Hmin).
    simpl in Hc, Hlen, Hmin. rewrite Nat.sub_0_r in Hc. subst m.
    exists i, c. split; [exact Hc|]. split; [exact Hmin|]. split; [reflexivity|].
    pose proof (choose_cashier_cases P s) as Hcc.
    rewrite E, Hclosed in Hcc. rewrite Hcc. reflexivity.
Qed.

Lemma choose_cashier_selects_witness :
  open_extra_cashier window_state = true /\
  choose_cashier one_customer_params window_state
    = (window_state, inr (Some Extra)) /\
  cashiers two_cashiers <> [] /\
  open_extra_cashier two_cashiers = false /\
  exists i c,
    nth_error (cashiers two_cashiers) i = Some c /\
    (forall j c', nth_error (cashiers two_cashiers) j = Some c' ->
       (length (put_queue c) <= length (put_queue c'))%nat /\
       ((j < i)%nat -> (length (put_queue c) < length (put_queue c'))%nat)) /\
    hd_error (sorted_queues two_cashiers) = Some (length (put_queue c), i) /\
    snd (choose_cashier default_params two_cashiers) =
      inr (if Nat.ltb (length (put_queue c)) 5 then Some (Regular i) else None).
Proof.
  split; [reflexivity|]. split.
  - apply (proj1 (choose_cashier_selects one_customer_params one_customer_draws
                    window_state) 0%nat 10%nat).
    + vm_compute. reflexivity.
    + reflexivity.
  - split; [discriminate|]. split; [reflexivity|].
    apply (proj2 (proj2 (choose_cashier_selects default_params one_customer_draws
                           two_cashiers))).
    + discriminate.
    + reflexivity.
Defined.

(** ** Counting the events of a run *)

Local Open Scope Q_scope.

Lemma count_events_cons (p : event -> bool) (x : entry) (l : list entry) :
  count_events p (x :: l) = ((if p (ev x) then 1 else 0) + count_events p l)%nat.
Proof. unfold count_events. simpl. destruct (p (ev x)); reflexivity. Qed.

Lemma count_events_heappush (p : event -> bool) (x : entry) (q : list entry) :
  count_events p (heappush x q)
  = ((if p (ev x) then 1 else 0) + count_events p q)%nat.
Proof.
  induction q as [|y t IH]; simpl.
  - apply count_events_cons.
  - destruct (entry_ltb x y).
    + apply count_events_cons.
    + rewrite !count_events_cons, IH. lia.
Qed.

Lemma Qltb_scaled_nonneg (a d : Q) : 0 <= a -> 0 <= d -> Qltb (a * d) 0 = false.
Proof.
  intros Ha Hd. unfold Qltb. apply negb_false_iff. apply Qle_bool_iff.
  apply Qmult_le_0_compat; assumption.
Qed.

Lemma Qeq_bool_pos (a : Q) : 0 < a -> Qeq_bool a 0 = false.
Proof.
  intros H. destruct (Qeq_bool a 0) eqn:E; [|reflexivity].
  apply Qeq_bool_iff in E. rewrite E in H. discriminate.
Qed.

Lemma Qinv_pos_nonneg (a : Q) : 0 < a -> 0 <= 1 / a.
Proof.
  intros H. apply Qlt_le_weak. unfold Qdiv. rewrite Qmult_1_l.
  apply Qinv_lt_0_compat. exact H.
Qed.

Lemma Qltb_nonneg (a : Q) : 0 <= a -> Qltb a 0 = false.
Proof.
  intros H. unfold Qltb. apply negb_false_iff. apply Qle_bool_iff. exact H.
Qed.

Section Counting.

Variable P : params.

Variable draws : nat -> Q.

Lemma dispatch_history (e : event) (s : state) :
  history (dispatch P draws e s) = history s.
Proof. destruct e; crunch; reflexivity. Qed.

(** A service is scheduled when a wait is recorded. *)
Lemma dispatch_service_balance (e : event) (s : state) :
  nonneg_draws draws ->
  (length (waiting_times (dispatch P draws e s))
   + count_events is_service_end (queue s))%nat
  = (length (waiting_times s)
     + count_events is_service_end (queue (dispatch P draws e s)))%nat.
Proof.
  intros Hd.
  assert (Hs : Qltb (1 * draws (rng s)) 0 = false).
  { apply Qltb_scaled_nonneg; [discriminate|apply Hd]. }
  destruct e; crunch;
    rewrite ?count_events_heappush; simpl; rewrite ?length_app; simpl;
    try lia; congruence.
Qed.

Lemma served_count_events (s : state) :
  served_count s = count_events is_service_end (history s).
Proof. reflexivity. Qed.

(** Moving the event at the head of the heap to the history changes no
    count of pending and dispatched events together. *)
Lemma count_events_pop (p : event -> bool) (e : entry) (q h : list entry) :
  (count_events p (e :: h) + count_events p q
   = count_events p h + count_events p (e :: q))%nat.
Proof. rewrite !count_events_cons. lia. Qed.

Lemma service_balanced_step (s s' : state) :
  nonneg_draws draws -> service_balanced s -> step P draws s = Next s' ->
  service_balanced s'.
Proof.
  unfold service_balanced. intros Hd H Hstep. apply step_inv in Hstep.
  destruct Hstep as (e & q & Hq & -> & _).
  set (s1 := set_history (e :: history s)
               (set_now (at_time e) (set_queue q (next_eid s) s))).
  pose proof (dispatch_service_balance (ev e) s1 Hd) as Hb.
  rewrite served_count_events in *. rewrite dispatch_history.
  rewrite Hq in H.
  pose proof (count_events_pop is_service_end e q (history s)) as Hpop.
  change (waiting_times s1) with (waiting_times s) in Hb.
  change (queue s1) with q in Hb. change (history s1) with (e :: history s).
  lia.
Qed.

Lemma service_balanced_stop (s s' : state) :
  service_balanced s -> step P draws s = Stop s' -> service_balanced s'.
Proof.
  unfold service_balanced. intros H Hstep. apply step_inv in Hstep.
  destruct Hstep as (e & q & Hq & He & ->).
  rewrite served_count_events in *. rewrite Hq in H.
  pose proof (count_events_pop is_service_end e q (history s)) as Hpop.
  simpl. lia.
Qed.

Lemma service_balanced_reachable (s : state) :
  nonneg_draws draws -> reachable P draws s -> service_balanced s.
Proof.
  intros Hd. induction 1 as [n|s s' _ IH H]; [reflexivity|].
  eapply service_balanced_step; eauto.
Qed.

(** X4.  With variates that are not negative, the number of recorded waiting
    times is the number of services completed plus the number of services
    under way, at every event of a replication and at its end. *)
Theorem waiting_times_count (n : nat) :
  nonneg_draws draws ->
  (forall k s, steps P draws k (start P n) = Some s ->
     length (waiting_times s)
     = (served_count s + count_events is_service_end (queue s))%nat) /\
  (forall fuel s, replication P draws fuel n = Finished s ->
     length (waiting_times s)
     = (served_count s + count_events is_service_end (queue s))%nat).
Proof.
  intros Hd. split.
  - intros k s Hk. apply service_balanced_reachable; [exact Hd|].
    eapply steps_reachable; [|exact Hk]. apply reachable_start.
  - intros fuel s H. unfold replication in H.
    apply run_finished in H; [|apply reachable_start].
    destruct H as (s0 & Hs0 & Hstop).
    eapply service_balanced_stop; [|exact Hstop].
    apply service_balanced_reachable; assumption.
Qed.

(** Each turn of the arrival loop spawns one customer process. *)
Lemma dispatch_spawn_balance (e : event) (s : state) :
  count_events is_customer_start (queue (dispatch P draws e s))
  = ((if is_arrival e then 1 else 0)
     + count_events is_customer_start (queue s))%nat.
Proof.
  destruct e; crunch; rewrite ?count_events_heappush; simpl; lia.
Qed.

Lemma spawn_balanced_reachable (s : state) :
  reachable P draws s -> spawn_balanced s.
Proof.
  unfold spawn_balanced.
  induction 1 as [n|s s' _ IH Hstep]; [reflexivity|].
  apply step_inv in Hstep. destruct Hstep as (e & q & Hq & -> & _).
  rewrite dispatch_history, dispatch_spawn_balance. simpl.
  rewrite Hq in IH. rewrite !count_events_cons in *.
  destruct (ev e); simpl in *; lia.
Qed.

(** X7.  At every event of a replication, the customer processes started or
    about to start are as many as the arrival timeouts that elapsed:
    [customer_arrival] spawns one customer per arrival and nothing else
    spawns any. *)
Theorem one_customer_per_arrival (n k : nat) (s : state) :
  steps P draws k (start P n) = Some s ->
  count_events is_arrival (history s)
  = (count_events is_customer_start (history s)
     + count_events is_customer_start (queue s))%nat.
Proof.
  intros Hk. apply spawn_balanced_reachable.
  eapply steps_reachable; [|exact Hk]. apply reachable_start.
Qed.



End Counting.

(** ** The horizon, the slots and the census of the customers *)

Local Open Scope Q_scope.

Lemma later_In (t : Q) (q q' : list entry) (x : entry) :
  later t q q' -> In x q -> In x q'.
Proof.
  induction 1 as [|y q' _ IH _ _]; intros H; [exact H|].
  apply In_heappush. right. apply IH. exact H.
Qed.

Section Horizon.

Variable P : params.

Variable draws : nat -> Q.

Lemma until_pending_start (n : nat) : until_pending (start P n).
Proof.
  exists (Entry (0 + 200) URGENT 1 Until). split; [|reflexivity].
  simpl. right. left. reflexivity.
Qed.

Lemma until_pending_reachable (s : state) :
  reachable P draws s -> until_pending s.
Proof.
  induction 1 as [n|s s' _ IH Hstep]; [apply until_pending_start|].
  destruct IH as (x & Hin & Hx).
  apply step_inv in Hstep. destruct Hstep as (e & q & Hq & -> & Hne & _).
  exists x. split; [|exact Hx].
  eapply later_In; [apply dispatch_later|]. simpl.
  rewrite Hq in Hin. destruct Hin as [->|Hin]; [contradiction|exact Hin].
Qed.

Lemma now_le_horizon (s : state) : reachable P draws s -> now s <= 200.
Proof.
  intros H. destruct (until_pending_reachable s H) as (x & Hin & Hx).
  destruct (causal_reachable P draws s H) as (_ & Hf & Hh).
  rewrite Forall_forall in Hf, Hh.
  rewrite <- (Hh x Hin Hx). apply Hf. exact Hin.
Qed.

(** X9.  The clock of a replication never passes the horizon: it is at
    most 200 at every event, it is 200 exactly when [env.run] returns, and
    the schedule never runs empty before. *)
Theorem run_stops_at_horizon (n : nat) :
  (forall k s, steps P draws k (start P n) = Some s ->
     now s <= 200 /\ step P draws s <> EmptySchedule) /\
  (forall fuel s, replication P draws fuel n = Finished s -> now s == 200).
Proof.
  split.
  - intros k s Hk.
    assert (Hs : reachable P draws s).
    { eapply steps_reachable; [|exact Hk]. apply reachable_start. }
    split; [apply now_le_horizon; exact Hs|].
    destruct (until_pending_reachable s Hs) as (x & Hin & _).
    unfold step. destruct (queue s) as [|e q]; [destruct Hin|].
    destruct (ev e); discriminate.
  - intros fuel s H. unfold replication in H.
    apply run_finished in H; [|apply reachable_start].
    destruct H as (s0 & Hs0 & Hstop).
    destruct (causal_reachable P draws s0 Hs0) as (_ & _ & Hh).
    apply step_inv in Hstop. destruct Hstop as (e & q & Hq & He & ->).
    rewrite Hq in Hh. inversion Hh as [|? ? Hu _]; subst. simpl.
    apply Hu. exact He.
Qed.

End Horizon.

(** ** One customer at a time *)

Lemma one_at_a_time_resources (s s' : state) :
  cashiers s' = cashiers s -> extra_cashier s' = extra_cashier s ->
  one_at_a_time s -> one_at_a_time s'.
Proof.
  unfold one_at_a_time. intros Hc He H r res Hr. apply (H r).
  destruct r; simpl in *; congruence.
Qed.

Lemma one_at_a_time_frame (s s' : state) :
  cashiers s' = cashiers s -> extra_cashier s' = extra_cashier s ->
  customers s' = customers s -> one_at_a_time s -> one_at_a_time s'.
Proof. intros Hc He _. apply one_at_a_time_resources; assumption. Qed.

Lemma one_at_a_time_update_customer (cid : nat) (f : customer -> customer) (s : state) :
  one_at_a_time s -> one_at_a_time (update_customer cid f s).
Proof.
  unfold one_at_a_time. intros H r res Hr.
  rewrite get_resource_update_customer in Hr. eauto.
Qed.

Lemma one_at_a_time_set_resource (r : res_id) (x old : resource) (s : state) :
  get_resource r s = Some old -> (length (users x) <= 1)%nat ->
  one_at_a_time s -> one_at_a_time (set_resource r x s).
Proof.
  unfold one_at_a_time. intros Hold Hx H r' res Hr.
  rewrite (get_set_resource r r' x old s Hold) in Hr.
  destruct (res_id_eq_dec r r'); [injection Hr as <-; exact Hx|eauto].
Qed.

Lemma one_at_a_time_trigger_put (r : res_id) (s : state) :
  one_at_a_time s -> one_at_a_time (trigger_put r s).
Proof.
  intros H. unfold trigger_put.
  destruct (get_resource r s) as [[us [|cid pending]]|] eqn:E; try exact H.
  destruct (Nat.ltb (length us) 1) eqn:L; [|exact H].
  eapply one_at_a_time_frame; [reflexivity..|].
  apply one_at_a_time_update_customer.
  eapply one_at_a_time_set_resource; [exact E| |exact H].
  apply length_lt_1 in L. subst us. simpl. lia.
Qed.

Lemma one_at_a_time_release (r : res_id) (cid : nat) (s : state) :
  one_at_a_time s -> one_at_a_time (release r cid s).
Proof.
  intros H. unfold release.
  destruct (get_resource r s) as [[us pending]|] eqn:E; [|exact H].
  eapply one_at_a_time_frame; [reflexivity..|].
  eapply one_at_a_time_set_resource; [exact E| |exact H].
  pose proof (H r _ E) as Hu. simpl in *.
  destruct (list_remove cid us) as [l|] eqn:R; [|exact Hu].
  apply list_remove_length in R. lia.
Qed.

Lemma one_at_a_time_request_exit (cid : nat) (s : state) :
  one_at_a_time s -> one_at_a_time (fst (request_exit cid s)).
Proof.
  intros H. unfold request_exit.
  destruct (nth_error (customers s) cid) as [c|]; [|exact H].
  unfold cancel. destruct (triggered c); simpl.
  - apply one_at_a_time_release. exact H.
  - destruct (get_resource (cashier c) s) as [[us pending]|] eqn:E; simpl.
    + destruct (list_remove cid pending) as [pending'|] eqn:R; simpl; [|exact H].
      apply one_at_a_time_release.
      eapply one_at_a_time_set_resource; [exact E| |exact H].
      exact (H _ _ E).
    + apply one_at_a_time_release. exact H.
Qed.

Lemma one_at_a_time_request (r : res_id) (cid : nat) (s : state) :
  one_at_a_time s -> one_at_a_time (request r cid s).
Proof.
  intros H. unfold request.
  destruct (get_resource r s) as [[us pending]|] eqn:E; [|exact H].
  apply one_at_a_time_trigger_put.
  eapply one_at_a_time_set_resource; [exact E| |exact H].
  exact (H _ _ E).
Qed.

Section Capacity.

Variable P : params.

Variable draws : nat -> Q.

Lemma one_at_a_time_customer_process (a : Q) (s : state) :
  one_at_a_time s -> one_at_a_time (fst (customer_process P a s)).
Proof.
  intros H. unfold customer_process, bind.
  destruct (choose_cashier P s) as [s1 res] eqn:E.
  destruct (choose_cashier_result P s s1 res E) as (Hc & He & Hcu & _).
  assert (H1 : one_at_a_time s1) by (eapply one_at_a_time_frame; eauto).
  destruct res as [e|[r|]]; simpl; try exact H1.
  unfold new_request. simpl.
  unfold with_request, timeout, bind, modify, ret. simpl.
  eapply one_at_a_time_frame; [reflexivity..|].
  apply one_at_a_time_request.
  eapply one_at_a_time_resources; [| |exact H1]; reflexivity.
Qed.

Lemma one_at_a_time_start (n : nat) : one_at_a_time (start P n).
Proof.
  intros [i|] res Hr; simpl in Hr.
  - apply nth_error_In, repeat_spec in Hr. subst res. simpl. lia.
  - injection Hr as <-. simpl. lia.
Qed.

Lemma one_at_a_time_reachable (s : state) :
  reachable P draws s -> one_at_a_time s.
Proof.
  apply (I_reachable P draws one_at_a_time).
  - exact one_at_a_time_frame.
  - exact one_at_a_time_trigger_put.
  - exact one_at_a_time_request_exit.
  - intros. apply one_at_a_time_update_customer. assumption.
  - intros. apply one_at_a_time_update_customer. assumption.
  - exact one_at_a_time_customer_process.
  - exact one_at_a_time_start.
Qed.

(** X6.  A cashier, regular or extra, serves one customer at a time: at
    every event of a replication no resource has more than one user. *)
Theorem one_customer_per_cashier (n k : nat) (s : state) (r : res_id) (res : resource) :
  steps P draws k (start P n) = Some s ->
  get_resource r s = Some res ->
  (length (users res) <= 1)%nat.
Proof.
  intros Hk. apply (one_at_a_time_reachable s).
  eapply steps_reachable; [|exact Hk]. apply reachable_start.
Qed.

End Capacity.

(** ** Every customer is accounted for *)

Section Census.

Variable P : params.

Variable draws : nat -> Q.

Lemma dispatch_census (e : event) (s : state) :
  cashiers s <> [] ->
  (forall cid, e = Condition cid -> nth_error (customers s) cid <> None) ->
  census (dispatch P draws e s)
  = ((if is_customer_start e || is_race_end e then 1 else 0) + census s)%nat.
Proof.
  intros Hpool Hcid. unfold census.
  destruct e; crunch;
    rewrite ?length_list_set, ?length_app; simpl;
    try lia;
    try (exfalso; eapply Hcid; [reflexivity|]; assumption);
    try (exfalso; apply Hpool; apply sorted_queues_nil; assumption).
Qed.

Lemma pool_not_empty (s : state) :
  (1 <= num_cashiers P)%Z -> reachable P draws s -> cashiers s <> [].
Proof.
  intros Hn Hs E. apply pool_size_reachable in Hs. unfold pool_size in Hs.
  rewrite E in Hs. simpl in Hs. lia.
Qed.

Lemma census_reachable (s : state) :
  (1 <= num_cashiers P)%Z -> reachable P draws s ->
  (count_events is_customer_start (history s)
   + count_events is_race_end (history s))%nat = census s.
Proof.
  intros Hn. induction 1 as [n|s s' Hs IH Hstep]; [reflexivity|].
  pose proof (pool_not_empty s Hn Hs) as Hpool.
  pose proof (timed_reachable P draws s Hs) as Ht.
  apply step_inv in Hstep. destruct Hstep as (e & q & Hq & -> & _).
  rewrite dispatch_history, dispatch_census.
  - simpl. rewrite !count_events_cons.
    change (census (set_history (e :: history s)
                      (set_now (at_time e) (set_queue q (next_eid s) s))))
      with (census s).
    destruct (ev e); simpl in *; lia.
  - exact Hpool.
  - intros cid He. simpl. unfold timed in Ht. rewrite Hq in Ht.
    inversion Ht as [|? ? Hok _]; subst. unfold entry_ok in Hok.
    rewrite He in Hok. destruct Hok as (c & Hc & _). congruence.
Qed.

(** X3.  With at least one regular cashier every customer is accounted for
    once: the customer processes started and the races decided are together
    as many as the customers lost, the waiting times recorded and the
    requests made.  So each customer who started either balked (lost), or
    made a request, and each request whose race is over gave one waiting
    time or one lost customer. *)
Theorem customers_accounted_once (n : nat) :
  (1 <= num_cashiers P)%Z ->
  (forall k s, steps P draws k (start P n) = Some s ->
     (count_events is_customer_start (history s)
      + count_events is_race_end (history s)
      = lost_customers s + length (waiting_times s) + length (customers s))%nat) /\
  (forall fuel s, replication P draws fuel n = Finished s ->
     (count_events is_customer_start (history s)
      + count_events is_race_end (history s)
      = lost_customers s + length (waiting_times s) + length (customers s))%nat).
Proof.
  intros Hn. split.
  - intros k s Hk. apply (census_reachable s Hn).
    eapply steps_reachable; [|exact Hk]. apply reachable_start.
  - intros fuel s H. unfold replication in H.
    apply run_finished in H; [|apply reachable_start].
    destruct H as (s0 & Hs0 & Hstop).
    pose proof (census_reachable s0 Hn Hs0) as Hc.
    apply step_inv in Hstop. destruct Hstop as (e & q & Hq & He & ->).
    simpl. rewrite !count_events_cons, He. simpl. exact Hc.
Qed.

End Census.

(** ** Waiting times and the patience *)

Local Open Scope Q_scope.

Lemma quiet_refl (s : state) : quiet s s.
Proof. repeat split; auto. Qed.

Lemma quiet_trans (a b c : state) : quiet a b -> quiet b c -> quiet a c.
Proof.
  intros (N1 & W1 & C1 & I1 & Q1) (N2 & W2 & C2 & I2 & Q2).
  split; [congruence|]. split; [congruence|]. split; [|split].
  - intros cid. rewrite C2. apply C1.
  - auto.
  - intros x Hx. destruct (Q2 x Hx) as [Hb|Hn]; [|auto]. apply Q1. exact Hb.
Qed.

Lemma quiet_same (s s' : state) :
  now s' = now s -> waiting_times s' = waiting_times s ->
  customers s' = customers s -> queue s' = queue s -> quiet s s'.
Proof.
  intros Hn Hw Hc Hq. unfold quiet. rewrite Hn, Hw, Hc, Hq.
  repeat split; auto.
Qed.

Lemma quiet_schedule (e : event) (prio : nat) (d : Q) (s : state) :
  (forall cid, e <> Condition cid) -> quiet s (schedule e prio d s).
Proof.
  intros He. split; [reflexivity|]. split; [reflexivity|].
  split; [reflexivity|]. split.
  - intros x Hx. simpl. apply In_heappush. auto.
  - intros x Hx. simpl in Hx. apply In_heappush in Hx.
    destruct Hx as [->|Hx]; auto.
Qed.

Lemma quiet_update_customer (cid : nat) (f : customer -> customer) (s : state) :
  (forall c, race (f c) = race c) -> quiet s (update_customer cid f s).
Proof.
  intros Hf. unfold quiet.
  assert (Hs : now (update_customer cid f s) = now s /\
               waiting_times (update_customer cid f s) = waiting_times s /\
               queue (update_customer cid f s) = queue s).
  { unfold update_customer. destruct (nth_error (customers s) cid); auto. }
  destruct Hs as (-> & -> & ->).
  split; [reflexivity|]. split; [reflexivity|]. split; [|auto].
  intros i. rewrite nth_error_update_customer.
  destruct (Nat.eq_dec cid i); [|reflexivity].
  destruct (nth_error (customers s) i); simpl; [|reflexivity].
  rewrite Hf. reflexivity.
Qed.

Lemma quiet_set_resource (r : res_id) (x : resource) (s : state) :
  quiet s (set_resource r x s).
Proof. apply quiet_same; destruct r; reflexivity. Qed.

Lemma quiet_trigger_put (r : res_id) (s : state) : quiet s (trigger_put r s).
Proof.
  unfold trigger_put.
  destruct (get_resource r s) as [[us [|cid pending]]|]; try apply quiet_refl.
  destruct (Nat.ltb (length us) 1); [|apply quiet_refl].
  eapply quiet_trans; [apply quiet_set_resource|].
  eapply quiet_trans; [apply (quiet_update_customer cid set_triggered); reflexivity|].
  apply quiet_schedule. discriminate.
Qed.

Lemma quiet_request (r : res_id) (cid : nat) (s : state) : quiet s (request r cid s).
Proof.
  unfold request. destruct (get_resource r s) as [[us pending]|]; [|apply quiet_refl].
  eapply quiet_trans; [apply quiet_set_resource|apply quiet_trigger_put].
Qed.

Lemma quiet_release (r : res_id) (cid : nat) (s : state) : quiet s (release r cid s).
Proof.
  unfold release. destruct (get_resource r s) as [[us pending]|]; [|apply quiet_refl].
  eapply quiet_trans; [apply quiet_set_resource|].
  apply quiet_schedule. discriminate.
Qed.

Lemma quiet_request_exit (cid : nat) : quietM (request_exit cid).
Proof.
  intros s. unfold request_exit.
  destruct (nth_error (customers s) cid) as [c|]; [|apply quiet_refl].
  unfold cancel. destruct (triggered c); simpl.
  - apply quiet_release.
  - destruct (get_resource (cashier c) s) as [[us pending]|]; simpl.
    + destruct (list_remove cid pending); simpl; [|apply quiet_refl].
      eapply quiet_trans; [apply quiet_set_resource|apply quiet_release].
    + apply quiet_release.
Qed.

Lemma quietM_ret {A : Type} (a : A) : quietM (ret a).
Proof. intros s. apply quiet_refl. Qed.

Lemma quietM_raise {A : Type} (e : exn) : quietM (raise (A := A) e).
Proof. intros s. apply quiet_refl. Qed.

Lemma quietM_bind {A B : Type} (m : M A) (f : A -> M B) :
  quietM m -> (forall a, quietM (f a)) -> quietM (bind m f).
Proof.
  intros Hm Hf s. unfold bind. specialize (Hm s).
  destruct (m s) as [s' [e|a]]; simpl in *; [exact Hm|].
  eapply quiet_trans; [exact Hm|apply Hf].
Qed.

Lemma quietM_gets {A : Type} (f : state -> A) : quietM (gets f).
Proof. intros s. apply quiet_refl. Qed.

Lemma quietM_modify (f : state -> state) :
  (forall s, quiet s (f s)) -> quietM (modify f).
Proof. intros H s. apply H. Qed.

Lemma quietM_timeout (d : Q) (e : event) :
  (forall cid, e <> Condition cid) -> quietM (timeout d e).
Proof.
  intros He s. unfold timeout. destruct (Qltb d 0); [apply quiet_refl|].
  simpl. apply quiet_schedule. exact He.
Qed.

Lemma quietM_process (e : event) :
  (forall cid, e <> Condition cid) -> quietM (process e).
Proof. intros He s. simpl. apply quiet_schedule. exact He. Qed.

Lemma quietM_with_request (cid : nat) (body : M status) :
  quietM body -> quietM (with_request cid body).
Proof.
  intros Hb s. unfold with_request. specialize (Hb s).
  destruct (body s) as [s' [e|[|]]]; simpl in *; try exact Hb.
  - pose proof (quiet_request_exit cid s') as Hx.
    destruct (request_exit cid s') as [s'' [e'|u]]; simpl in *;
      eapply quiet_trans; eauto.
  - pose proof (quiet_request_exit cid s') as Hx.
    destruct (request_exit cid s') as [s'' [e'|u]]; simpl in *;
      eapply quiet_trans; eauto.
Qed.

Lemma quiet_resume (body : M status) (s : state) :
  quiet s (fst (body s)) -> quiet s (resume body s).
Proof.
  intros H. unfold resume. destruct (body s) as [s' [e|[|]]]; simpl in *.
  - eapply quiet_trans; [exact H|]. apply quiet_schedule. discriminate.
  - exact H.
  - eapply quiet_trans; [exact H|]. apply quiet_schedule. discriminate.
Qed.

Lemma racing_quiet (ex : option nat) (s s' : state) :
  racing ex s -> quiet s s' -> racing ex s'.
Proof.
  intros (HA & HB & HC & HD) (N & W & C & I & Q).
  split; [|split; [|split]].
  - intros cid c' Hc'. specialize (C cid). rewrite Hc' in C.
    destruct (nth_error (customers s) cid) as [c|] eqn:E; [|discriminate].
    injection C as Ha _. rewrite Ha, N. eapply HA; eauto.
  - intros cid c' Hc' Hcond. specialize (C cid). rewrite Hc' in C.
    destruct (nth_error (customers s) cid) as [c|] eqn:E; [|discriminate].
    injection C as _ Hb. rewrite Hcond in Hb. symmetry in Hb.
    destruct (HB cid c E Hb) as [(x & Hx & Hev)|Hex]; [|auto].
    left. exists x. auto.
  - intros x cid Hx Hev. destruct (Q x Hx) as [Hin|Hn]; [|destruct (Hn cid Hev)].
    destruct (HC x cid Hin Hev) as (c & Hc & Ht).
    specialize (C cid). rewrite Hc in C.
    destruct (nth_error (customers s') cid) as [c'|]; [|discriminate].
    injection C as Ha _. exists c'. rewrite Ha. auto.
  - rewrite W. exact HD.
Qed.

(** A decided race needs no patience timeout. *)
Lemma racing_decided (cid : nat) (s : state) :
  racing (Some cid) s ->
  (forall c, nth_error (customers s) cid = Some c -> cond_triggered c = true) ->
  racing None s.
Proof.
  intros (HA & HB & HC & HD) Hc. split; [exact HA|]. split; [|auto].
  intros i c Hi Hcond. destruct (HB i c Hi Hcond) as [H|H]; [auto|].
  injection H as <-. specialize (Hc c Hi). congruence.
Qed.

Lemma racing_weaken (ex : option nat) (s : state) : racing None s -> racing ex s.
Proof.
  intros (HA & HB & HC & HD). split; [exact HA|]. split; [|auto].
  intros i c Hi Hcond. destruct (HB i c Hi Hcond) as [H|H]; [auto|discriminate].
Qed.

(** The patience timeout of the request [cid] is scheduled. *)
Lemma racing_patience (cid : nat) (s : state) :
  racing (Some cid) s ->
  racing None (schedule (Timeout_patience cid) NORMAL 1 s).
Proof.
  intros H.
  pose proof (racing_quiet _ _ _ H
                (quiet_schedule (Timeout_patience cid) NORMAL 1 s
                   ltac:(discriminate))) as (HA & HB & HC & HD).
  split; [exact HA|]. split; [|auto].
  intros i c Hi Hcond. left. destruct (HB i c Hi Hcond) as [Hp|Hex]; [exact Hp|].
  injection Hex as <-.
  exists (Entry (now s + 1) NORMAL (next_eid s) (Timeout_patience cid)).
  split; [|reflexivity]. simpl. apply In_heappush. auto.
Qed.

(** A request is made at the current time. *)
Lemma racing_new_customer (a : Q) (r : res_id) (s : state) :
  racing None s -> a <= now s ->
  racing (Some (length (customers s)))
    (set_customers (customers s ++ [Customer a r false false false]) s).
Proof.
  intros (HA & HB & HC & HD) Ha.
  assert (Hnth : forall i c,
            nth_error (customers s ++ [Customer a r false false false]) i = Some c ->
            nth_error (customers s) i = Some c \/
            (i = length (customers s) /\ c = Customer a r false false false)).
  { intros i c Hi. destruct (Nat.lt_ge_cases i (length (customers s))) as [Hlt|Hge].
    - rewrite nth_error_app1 in Hi by exact Hlt. auto.
    - rewrite nth_error_app2 in Hi by exact Hge. right.
      destruct (i - length (customers s))%nat as [|k] eqn:E; simpl in Hi.
      + injection Hi as <-. split; [lia|reflexivity].
      + destruct k; discriminate. }
  split; [|split; [|split]]; simpl.
  - intros i c Hi. destruct (Hnth i c Hi) as [Ho|[_ ->]]; [eauto|exact Ha].
  - intros i c Hi Hcond. destruct (Hnth i c Hi) as [Ho|[-> _]]; [|auto].
    left. destruct (HB i c Ho Hcond) as [Hp|Hex]; [exact Hp|discriminate].
  - intros x cid Hx Hev. destruct (HC x cid Hx Hev) as (c & Hc & Ht).
    exists c. split; [|exact Ht]. rewrite nth_error_app1; [exact Hc|].
    apply nth_error_Some. congruence.
  - exact HD.
Qed.

(** The first of the request and the timeout decides the race, not later
    than one time unit after the arrival. *)
Lemma racing_condition_check (cid : nat) (s : state) :
  racing (Some cid) s ->
  (forall c, nth_error (customers s) cid = Some c -> cond_triggered c = false ->
     now s <= arrival_time c + 1) ->
  racing None (condition_check cid s).
Proof.
  intros H Ht. unfold condition_check.
  destruct (nth_error (customers s) cid) as [c|] eqn:E.
  2:{ apply (racing_decided cid); [exact H|]. intros c Hc. congruence. }
  destruct (cond_triggered c) eqn:Ec.
  { apply (racing_decided cid); [exact H|]. intros c' Hc'. congruence. }
  destruct H as (HA & HB & HC & HD).
  assert (Hnth : forall i, nth_error (customers (update_customer cid set_cond_triggered s)) i
            = if Nat.eq_dec cid i then Some (set_cond_triggered c)
              else nth_error (customers s) i).
  { intros i. rewrite nth_error_update_customer.
    destruct (Nat.eq_dec cid i) as [<-|]; [rewrite E|]; reflexivity. }
  assert (Hq : queue (update_customer cid set_cond_triggered s) = queue s).
  { unfold update_customer. rewrite E. reflexivity. }
  assert (Hn : now (update_customer cid set_cond_triggered s) = now s).
  { unfold update_customer. rewrite E. reflexivity. }
  assert (Hw : waiting_times (update_customer cid set_cond_triggered s) = waiting_times s).
  { unfold update_customer. rewrite E. reflexivity. }
  split; [|split; [|split]]; simpl.
  - intros i c' Hi. rewrite Hnth in Hi. rewrite Hn.
    destruct (Nat.eq_dec cid i) as [<-|]; [injection Hi as <-; simpl|]; eauto.
  - intros i c' Hi Hcond. rewrite Hnth in Hi. left.
    destruct (Nat.eq_dec cid i) as [<-|Hne]; [injection Hi as <-; discriminate|].
    destruct (HB i c' Hi Hcond) as [(x & Hx & Hev)|Hex]; [|congruence].
    exists x. split; [|exact Hev]. apply In_heappush. right. rewrite Hq. exact Hx.
  - intros x i Hx Hev. apply In_heappush in Hx. destruct Hx as [->|Hx].
    + simpl in Hev. injection Hev as <-. exists (set_cond_triggered c).
      rewrite Hnth. destruct (Nat.eq_dec cid cid) as [_|Hne]; [|contradiction].
      split; [reflexivity|]. simpl. rewrite Hn.
      specialize (HA cid c E). specialize (Ht c eq_refl Ec). split; Lqa.lra.
    + rewrite Hq in Hx. destruct (HC x i Hx Hev) as (c' & Hc' & Hb).
      rewrite Hnth. destruct (Nat.eq_dec cid i) as [<-|]; [|eauto].
      exists (set_cond_triggered c). split; [reflexivity|].
      assert (c' = c) by congruence. subst c'. exact Hb.
  - rewrite Hw. exact HD.
Qed.

Section Patience.

Variable P : params.

Variable draws : nat -> Q.

Lemma quietM_exponential (scale : Q) : quietM (exponential draws scale).
Proof.
  intros s. unfold exponential. destruct (Qltb scale 0); [apply quiet_refl|].
  apply quiet_same; reflexivity.
Qed.

Lemma quietM_py_div (a b : Q) : quietM (py_div a b).
Proof.
  unfold py_div. destruct (Qeq_bool b 0); [apply quietM_raise|apply quietM_ret].
Qed.

Lemma quietM_customer_arrival : quietM (customer_arrival P draws).
Proof.
  unfold customer_arrival.
  apply quietM_bind; [apply quietM_py_div|intros scale].
  apply quietM_bind; [apply quietM_exponential|intros d].
  apply quietM_bind; [apply quietM_timeout; discriminate|intros _].
  apply quietM_ret.
Qed.

Lemma quietM_customer_arrival_resumed : quietM (customer_arrival_resumed P draws).
Proof.
  unfold customer_arrival_resumed.
  apply quietM_bind; [apply quietM_gets|intros t].
  apply quietM_bind; [apply quietM_process; discriminate|intros _].
  apply quietM_customer_arrival.
Qed.

Lemma quietM_open_extra_cashier_process : quietM open_extra_cashier_process.
Proof.
  unfold open_extra_cashier_process.
  apply quietM_bind; [apply quietM_gets|intros b].
  destruct (negb b); [|apply quietM_ret].
  apply quietM_bind; [apply quietM_modify; intros s; apply quiet_same; reflexivity|intros _].
  apply quietM_bind; [apply quietM_timeout; discriminate|intros _].
  apply quietM_ret.
Qed.

Lemma quietM_open_extra_cashier_process_resumed :
  quietM (open_extra_cashier_process_resumed P).
Proof.
  unfold open_extra_cashier_process_resumed.
  apply quietM_bind; [apply quietM_modify; intros s; apply quiet_same; reflexivity|intros _].
  apply quietM_bind; [apply quietM_modify; intros s; apply quiet_same; reflexivity|intros _].
  apply quietM_ret.
Qed.

Lemma quietM_choose_cashier : quietM (choose_cashier P).
Proof.
  unfold choose_cashier.
  apply quietM_bind; [apply quietM_gets|intros queues].
  destruct queues as [|[m i] t]; [apply quietM_raise|].
  apply quietM_bind; [apply quietM_gets|intros b].
  destruct b; [apply quietM_ret|].
  apply quietM_bind; [|intros _; apply quietM_ret].
  destruct (negb false && (extra_cashier_policy P <=? Z.of_nat m)%Z);
    [apply quietM_process; discriminate|apply quietM_ret].
Qed.

Lemma quietM_customer_process_served (cid : nat) :
  quietM (customer_process_served cid).
Proof.
  unfold customer_process_served. apply quietM_with_request.
  apply quietM_bind; [apply quietM_modify; intros s; apply quiet_same; reflexivity|intros _].
  apply quietM_ret.
Qed.

(** A customer who joins a queue starts a race with its patience. *)
Lemma racing_customer_process (a : Q) (s : state) :
  racing None s -> a <= now s ->
  racing None (fst (customer_process P a s)).
Proof.
  intros H Ha. unfold customer_process, bind.
  pose proof (quietM_choose_cashier s) as Hq.
  destruct (choose_cashier P s) as [s1 [e|[r|]]]; simpl in Hq.
  - simpl. eapply racing_quiet; eauto.
  - assert (H1 : racing None s1) by (eapply racing_quiet; eauto).
    assert (Ha1 : a <= now s1) by (destruct Hq as (-> & _); exact Ha).
    unfold new_request. cbv beta iota zeta.
    unfold with_request, timeout, bind, modify, ret.
    change (Qltb 1 0) with false. cbv beta iota. cbn [fst].
    apply racing_patience.
    eapply racing_quiet; [|apply quiet_request].
    apply racing_new_customer; assumption.
  - simpl. eapply racing_quiet; [exact H|].
    eapply quiet_trans; [exact Hq|]. apply quiet_same; reflexivity.
Qed.

(** A customer who won its race in time records a wait within its
    patience. *)
Lemma racing_customer_process_resumed (cid : nat) (s : state) :
  racing None s ->
  (forall c, nth_error (customers s) cid = Some c ->
     arrival_time c <= now s /\ now s <= arrival_time c + 1) ->
  racing None (fst (customer_process_resumed draws cid s)).
Proof.
  intros H Ht. unfold customer_process_resumed.
  destruct (nth_error (customers s) cid) as [c|] eqn:E; [|exact H].
  destruct (processed c).
  - set (s1 := set_waiting_times (waiting_times s ++ [now s - arrival_time c]) s).
    change (racing None
              (fst (with_request cid
                      (service_time <- exponential draws 1 ;;
                       timeout service_time (Timeout_service cid) ;;
                       ret Suspended)%sim s1))).
    assert (H1 : racing None s1).
    { destruct H as (HA & HB & HC & HD). split; [exact HA|].
      split; [exact HB|]. split; [exact HC|]. simpl.
      intros w Hw. apply in_app_or in Hw. destruct Hw as [Hw|[<-|[]]]; [auto|].
      destruct (Ht c eq_refl). split; Lqa.lra. }
    eapply racing_quiet; [exact H1|].
    apply quietM_with_request.
    apply quietM_bind; [apply quietM_exponential|intros d].
    apply quietM_bind; [apply quietM_timeout; discriminate|intros _].
    apply quietM_ret.
  - eapply racing_quiet; [exact H|].
    apply quietM_with_request.
    apply quietM_bind; [apply quietM_modify; intros s0; apply quiet_same; reflexivity|intros _].
    apply quietM_ret.
Qed.

Lemma racing_resume (body : M status) (s : state) :
  racing None (fst (body s)) -> racing None (resume body s).
Proof.
  intros H. unfold resume. destruct (body s) as [s' [e|[|]]]; simpl in *.
  - eapply racing_quiet; [exact H|]. apply quiet_schedule. discriminate.
  - exact H.
  - eapply racing_quiet; [exact H|]. apply quiet_schedule. discriminate.
Qed.

Lemma racing_start (n : nat) : racing None (start P n).
Proof.
  split; [|split; [|split]]; simpl.
  - intros [|cid] c H; discriminate.
  - intros [|cid] c H; discriminate.
  - intros x cid [<-|[<-|[]]]; discriminate.
  - intros w [].
Qed.

Lemma racing_step (s s' : state) :
  racing None s -> timed s -> causal s -> step P draws s = Next s' ->
  racing None s'.
Proof.
  intros (HA & HB & HC & HD) Ht (Hs & Hf & _) Hstep.
  apply step_inv in Hstep. destruct Hstep as (e & q & Hq & -> & _).
  unfold timed in Ht. rewrite Hq in *.
  inversion Ht as [|? ? Hok Hokq]; subst.
  inversion Hf as [|? ? Hnow _]; subst.
  simpl in Hs. destruct Hs as [Hle _]. rewrite Forall_forall in Hle, Hokq.
  set (s1 := set_history (e :: history s)
               (set_now (at_time e) (set_queue q (next_eid s) s))).
  assert (H1 : racing (match ev e with Timeout_patience cid => Some cid | _ => None end) s1).
  { split; [|split; [|split]]; simpl.
    - intros cid c Hc. specialize (HA cid c Hc). Lqa.lra.
    - intros cid c Hc Hcond.
      destruct (HB cid c Hc Hcond) as [(x & [<-|Hx] & Hev)|Hex]; [| |discriminate].
      + rewrite Hev. auto.
      + left. exists x. auto.
    - intros x cid Hx Hev. apply (HC x cid); [right; exact Hx|exact Hev].
    - exact HD. }
  unfold entry_ok in Hok.
  destruct (ev e) eqn:E; cbn [dispatch].
  - apply racing_resume. eapply racing_quiet; [exact H1|apply quietM_customer_arrival].
  - apply racing_resume. apply racing_customer_process; [exact H1|].
    simpl. Lqa.lra.
  - apply racing_resume.
    eapply racing_quiet; [exact H1|apply quietM_open_extra_cashier_process].
  - apply racing_resume.
    eapply racing_quiet; [exact H1|apply quietM_customer_arrival_resumed].
  - apply racing_condition_check; [exact H1|].
    intros c Hc _. destruct Hok as (c' & Hc' & Hat). simpl in Hc.
    assert (c' = c) by congruence. subst c'. simpl. Lqa.lra.
  - apply racing_resume.
    eapply racing_quiet; [exact H1|apply quietM_customer_process_served].
  - apply racing_resume.
    eapply racing_quiet; [exact H1|apply quietM_open_extra_cashier_process_resumed].
  - apply racing_condition_check.
    + apply racing_weaken.
      eapply racing_quiet; [exact H1|].
      apply quiet_update_customer. reflexivity.
    + intros c Hc Hcond. rewrite nth_error_update_customer in Hc.
      destruct (Nat.eq_dec cid cid) as [_|Hne]; [|contradiction].
      destruct (nth_error (customers s1) cid) as [c0|] eqn:E0; [|discriminate].
      injection Hc as <-. simpl in Hcond |- *.
      rewrite now_update_customer. simpl.
      destruct (HB cid c0 E0 Hcond) as [(x & [<-|Hx] & Hev)|Hex];
        [congruence| |discriminate].
      specialize (Hle x Hx). specialize (Hokq x Hx).
      unfold entry_ok in Hokq. rewrite Hev in Hokq.
      destruct Hokq as (c' & Hc' & Hat).
      assert (c' = c0) by (simpl in E0; congruence). subst c'. Lqa.lra.
  - eapply racing_quiet; [exact H1|apply quiet_trigger_put].
  - apply racing_resume. apply racing_customer_process_resumed; [exact H1|].
    intros c Hc.
    destruct (HC e cid (or_introl eq_refl) E) as (c' & Hc' & Hb).
    assert (c' = c) by (simpl in Hc; congruence). subst c'. exact Hb.
  - exact H1.
  - exact H1.
  - exact H1.
Qed.

Lemma racing_reachable (s : state) : reachable P draws s -> racing None s.
Proof.
  induction 1 as [n|s s' Hs IH H]; [apply racing_start|].
  eapply racing_step; eauto.
  - apply (timed_reachable P draws). exact Hs.
  - apply (causal_reachable P draws). exact Hs.
Qed.

Lemma waits_finished (fuel n : nat) (s : state) (w : Q) :
  replication P draws fuel n = Finished s ->
  In w (waiting_times s) -> 0 <= w /\ w <= 1.
Proof.
  intros H. unfold replication in H.
  apply run_finished in H; [|apply reachable_start].
  destruct H as (s0 & Hs0 & Hstop).
  apply racing_reachable in Hs0. destruct Hs0 as (_ & _ & _ & HD).
  apply step_inv in Hstop. destruct Hstop as (e & q & Hq & He & ->).
  simpl. apply HD.
Qed.


End Patience.

(** ** A valid configuration does not fail *)

Local Open Scope Q_scope.

Lemma count_events_In (p : event -> bool) (x : entry) (q : list entry) :
  In x q -> p (ev x) = true -> (1 <= count_events p q)%nat.
Proof.
  induction q as [|y t IH]; intros Hin Hp; [destruct Hin|].
  rewrite count_events_cons. destruct Hin as [->|Hin].
  - rewrite Hp. lia.
  - specialize (IH Hin Hp). lia.
Qed.

Lemma count_events_pos (p : event -> bool) (q : list entry) :
  (1 <= count_events p q)%nat -> exists x, In x q /\ p (ev x) = true.
Proof.
  induction q as [|y t IH]; intros H.
  - unfold count_events in H. simpl in H. lia.
  - rewrite count_events_cons in H. destruct (p (ev y)) eqn:E.
    + exists y. split; [left; reflexivity|exact E].
    + destruct IH as (x & Hx & Hp); [simpl in H; lia|].
      exists x. split; [right; exact Hx|exact Hp].
Qed.

Lemma count_events_none (p : event -> bool) (q : list entry) :
  (forall x, In x q -> p (ev x) = false) -> count_events p q = 0%nat.
Proof.
  induction q as [|y t IH]; intros H; [reflexivity|].
  rewrite count_events_cons, (H y (or_introl eq_refl)), IH; [reflexivity|].
  intros x Hx. apply H. right. exact Hx.
Qed.

Lemma is_condition_true (cid : nat) (e : event) :
  is_condition cid e = true <-> e = Condition cid.
Proof.
  destruct e; simpl; try (split; [discriminate|discriminate]).
  rewrite Nat.eqb_eq. split; [intros ->; reflexivity|intros H; injection H; auto].
Qed.

Lemma list_remove_Some (x : nat) (l : list nat) :
  In x l -> exists l', list_remove x l = Some l'.
Proof.
  intros H. destruct (list_remove x l) as [l'|] eqn:E; [eauto|].
  apply list_remove_None in E. contradiction.
Qed.

Lemma list_remove_other (x y : nat) (l : list nat) :
  forall l', list_remove x l = Some l' -> In y l -> y <> x -> In y l'.
Proof.
  induction l as [|h t IH]; simpl; intros l' H Hy Hne; [discriminate|].
  destruct (Nat.eqb x h) eqn:E.
  - injection H as <-. apply Nat.eqb_eq in E. subst h.
    destruct Hy as [Hy|Hy]; [congruence|exact Hy].
  - destruct (list_remove x t) as [t'|]; [|discriminate].
    injection H as <-. destruct Hy as [->|Hy]; [left; reflexivity|].
    right. eapply IH; eauto.
Qed.

(** *** Changes that touch no request *)

Lemma calm_refl (s : state) : calm s s.
Proof. repeat split; auto. Qed.

Lemma calm_trans (a b c : state) : calm a b -> calm b c -> calm a c.
Proof.
  intros (C1 & K1 & E1 & Q1 & N1 & M1) (C2 & K2 & E2 & Q2 & N2 & M2).
  split; [congruence|]. split; [congruence|]. split; [congruence|].
  split; [|split].
  - intros x Hx. destruct (Q2 x Hx) as [Hb|Hp]; auto.
  - intros cid. rewrite N2. apply N1.
  - intros cid. rewrite M2. apply M1.
Qed.

Lemma calm_same (s s' : state) :
  customers s' = customers s -> cashiers s' = cashiers s ->
  extra_cashier s' = extra_cashier s -> queue s' = queue s -> calm s s'.
Proof.
  intros Hc Hk He Hq. unfold calm. rewrite Hc, Hk, He, Hq. repeat split; auto.
Qed.

Lemma calm_schedule (e : event) (prio : nat) (d : Q) (s : state) :
  plain e -> calm s (schedule e prio d s).
Proof.
  intros He. split; [reflexivity|]. split; [reflexivity|].
  split; [reflexivity|]. split; [|split].
  - intros x Hx. simpl in Hx. apply In_heappush in Hx.
    destruct Hx as [->|Hx]; auto.
  - intros cid. simpl. rewrite count_events_heappush. simpl.
    destruct e; simpl in *; try reflexivity; contradiction.
  - intros cid. simpl. rewrite count_events_heappush. simpl.
    destruct e; simpl in *; try reflexivity; contradiction.
Qed.

Lemma calmM_ret {A : Type} (a : A) : calmM (ret a).
Proof. intros s. apply calm_refl. Qed.

Lemma calmM_raise {A : Type} (e : exn) : calmM (raise (A := A) e).
Proof. intros s. apply calm_refl. Qed.

Lemma calmM_bind {A B : Type} (m : M A) (f : A -> M B) :
  calmM m -> (forall a, calmM (f a)) -> calmM (bind m f).
Proof.
  intros Hm Hf s. unfold bind. specialize (Hm s).
  destruct (m s) as [s' [e|a]]; simpl in *; [exact Hm|].
  eapply calm_trans; [exact Hm|apply Hf].
Qed.

Lemma calmM_gets {A : Type} (f : state -> A) : calmM (gets f).
Proof. intros s. apply calm_refl. Qed.

Lemma calmM_modify (f : state -> state) :
  (forall s, calm s (f s)) -> calmM (modify f).
Proof. intros H s. apply H. Qed.

Lemma calmM_timeout (d : Q) (e : event) : plain e -> calmM (timeout d e).
Proof.
  intros He s. unfold timeout. destruct (Qltb d 0); [apply calm_refl|].
  simpl. apply calm_schedule. exact He.
Qed.

Lemma calmM_process (e : event) : plain e -> calmM (process e).
Proof. intros He s. simpl. apply calm_schedule. exact He. Qed.

Lemma waiting_frame (cid : nat) (r : res_id) (s s' : state) :
  cashiers s' = cashiers s -> extra_cashier s' = extra_cashier s ->
  waiting cid r s -> waiting cid r s'.
Proof.
  intros Hk He (res & Hr & Hin). exists res. split; [|exact Hin].
  destruct r; simpl in *; congruence.
Qed.

Lemma sound_calm (s s' : state) : sound s -> calm s s' -> sound s'.
Proof.
  intros (S2 & S3 & S4 & S5) (C & K & E & Q & N & _).
  split; [|split; [|split]].
  - intros cid c Hc. rewrite C in Hc. destruct (S2 cid c Hc) as [Ha Hb].
    split; [exact Ha|]. intros Ht Hcond.
    apply (waiting_frame cid (cashier c) s s' K E). auto.
  - intros cid. rewrite N. apply S3.
  - intros x Hx. destruct (Q x Hx) as [Hin|Hp].
    + specialize (S4 x Hin). unfold entry_sound in *. rewrite C.
      destruct (ev x) as [| | | | |j| |j| |cid| | |]; auto.
      destruct S4 as (c & Hc & Hcond & Hw). exists c. split; [exact Hc|].
      split; [exact Hcond|]. intros Ht.
      apply (waiting_frame cid (cashier c) s s' K E). auto.
    + unfold entry_sound. destruct (ev x); simpl in Hp; auto; contradiction.
  - intros r res cid Hr Hin. rewrite C. apply (S5 r res cid); [|exact Hin].
    destruct r; simpl in *; congruence.
Qed.

(** *** Flags of a request *)

Lemma waiting_update_customer (i cid : nat) (f : customer -> customer)
    (r : res_id) (s : state) :
  waiting i r (update_customer cid f s) <-> waiting i r s.
Proof.
  unfold waiting. rewrite get_resource_update_customer. reflexivity.
Qed.

Lemma queue_update_customer (cid : nat) (f : customer -> customer) (s : state) :
  queue (update_customer cid f s) = queue s.
Proof. unfold update_customer. destruct (nth_error (customers s) cid); reflexivity. Qed.

Lemma sound_update_customer (cid : nat) (f : customer -> customer) (s : state) :
  sound s ->
  (forall c, nth_error (customers s) cid = Some c ->
     cashier (f c) = cashier c /\
     (triggered c = true -> triggered (f c) = true) /\
     (cond_triggered c = true -> cond_triggered (f c) = true) /\
     (processed (f c) = true -> triggered (f c) = true)) ->
  sound (update_customer cid f s).
Proof.
  intros (S2 & S3 & S4 & S5) Hf.
  assert (Hnth : forall i c', nth_error (customers (update_customer cid f s)) i = Some c' ->
            exists c, nth_error (customers s) i = Some c /\
              ((i = cid /\ c' = f c) \/ (i <> cid /\ c' = c))).
  { intros i c' Hi. rewrite nth_error_update_customer in Hi.
    destruct (Nat.eq_dec cid i) as [<-|Hne].
    - destruct (nth_error (customers s) cid) as [c|]; [|discriminate].
      injection Hi as <-. exists c. auto.
    - exists c'. split; [exact Hi|]. right. split; [congruence|reflexivity]. }
  assert (Hnth' : forall i c, nth_error (customers s) i = Some c ->
            nth_error (customers (update_customer cid f s)) i
            = Some (if Nat.eq_dec cid i then f c else c)).
  { intros i c Hi. rewrite nth_error_update_customer, Hi.
    destruct (Nat.eq_dec cid i); reflexivity. }
  split; [|split; [|split]].
  - intros i c' Hi. destruct (Hnth i c' Hi) as (c & Hc & [[-> ->]|[Hne ->]]).
    + destruct (Hf c Hc) as (Hk & Ht & Hcd & Hp). split; [exact Hp|].
      intros Ht' Hc'. rewrite Hk. apply waiting_update_customer.
      apply (S2 cid c Hc).
      * destruct (triggered c); [rewrite Ht in Ht' by reflexivity; discriminate|reflexivity].
      * destruct (cond_triggered c); [rewrite Hcd in Hc' by reflexivity; discriminate|reflexivity].
    + destruct (S2 i c Hc) as [Ha Hb]. split; [exact Ha|].
      intros Ht' Hc'. apply waiting_update_customer. auto.
  - intros i. rewrite queue_update_customer. apply S3.
  - intros x Hx. rewrite queue_update_customer in Hx. specialize (S4 x Hx).
    unfold entry_sound in *.
    destruct (ev x) as [| | | | |j| |j| |j| | |]; auto.
    + destruct S4 as (c & Hc & Ht). rewrite (Hnth' _ _ Hc).
      destruct (Nat.eq_dec cid j) as [<-|Hne]; eexists; split; try reflexivity; auto.
      destruct (Hf c Hc) as (_ & Hf' & _). auto.
    + destruct S4 as (c & Hc & Ht). rewrite (Hnth' _ _ Hc).
      destruct (Nat.eq_dec cid j) as [<-|Hne]; eexists; split; try reflexivity; auto.
      destruct (Hf c Hc) as (_ & Hf' & _). auto.
    + destruct S4 as (c & Hc & Hcond & Hw). rewrite (Hnth' _ _ Hc).
      destruct (Nat.eq_dec cid j) as [<-|Hne].
      * destruct (Hf c Hc) as (Hk & Ht & Hcd & Hp).
        exists (f c). split; [reflexivity|]. split; [auto|].
        intros Ht'. rewrite Hk. apply waiting_update_customer. apply Hw.
        destruct (triggered c); [rewrite Ht in Ht' by reflexivity; discriminate|reflexivity].
      * exists c. split; [reflexivity|]. split; [exact Hcond|].
        intros Ht'. apply waiting_update_customer. auto.
  - intros r res i Hr Hin. rewrite get_resource_update_customer in Hr.
    destruct (S5 r res i Hr Hin) as (c & Hc & Hk). rewrite (Hnth' _ _ Hc).
    eexists. split; [reflexivity|].
    destruct (Nat.eq_dec cid i) as [<-|Hne]; [|exact Hk].
    rewrite (proj1 (Hf c Hc)). exact Hk.
Qed.

(** *** The lists of a resource *)

Lemma customers_set_resource (r : res_id) (x : resource) (s : state) :
  customers (set_resource r x s) = customers s.
Proof. destruct r; reflexivity. Qed.

Lemma queue_set_resource (r : res_id) (x : resource) (s : state) :
  queue (set_resource r x s) = queue s.
Proof. destruct r; reflexivity. Qed.

Lemma waiting_set_resource (i : nat) (r r' : res_id) (x old : resource) (s : state) :
  get_resource r s = Some old ->
  (In i (put_queue old) -> In i (put_queue x)) ->
  waiting i r' s -> waiting i r' (set_resource r x s).
Proof.
  intros Hold Hin (res & Hr & Hi). unfold waiting.
  rewrite (get_set_resource r r' x old s Hold).
  destruct (res_id_eq_dec r r') as [<-|Hne]; [|eauto].
  exists x. split; [reflexivity|]. apply Hin.
  assert (res = old) by congruence. subst res. exact Hi.
Qed.

(** The lists of a resource change: requests that leave its queue are
    settled, requests that join it exist. *)
Lemma sound_set_resource (r : res_id) (x old : resource) (s : state) :
  sound s -> get_resource r s = Some old ->
  (forall i, In i (put_queue old) -> In i (put_queue x) \/ settled i s) ->
  (forall i, In i (put_queue x) -> In i (put_queue old)) ->
  sound (set_resource r x s).
Proof.
  intros (S2 & S3 & S4 & S5) Hold Hout Hin.
  split; [|split; [|split]].
  - intros i c Hc. rewrite customers_set_resource in Hc.
    destruct (S2 i c Hc) as [Ha Hb]. split; [exact Ha|]. intros Ht Hcond.
    apply (waiting_set_resource i r (cashier c) x old s Hold); [|auto].
    intros Hi. destruct (Hout i Hi) as [H|H]; [exact H|].
    destruct (H c Hc) as [H1|[H1 _]]; congruence.
  - intros i. rewrite queue_set_resource. apply S3.
  - intros y Hy. rewrite queue_set_resource in Hy.
    pose proof (S4 y Hy) as Hs. unfold entry_sound in *.
    rewrite customers_set_resource.
    destruct (ev y) as [| | | | |j| |j| |j| | |] eqn:E; auto.
    destruct Hs as (c & Hc & Hcond & Hw). exists c. split; [exact Hc|].
    split; [exact Hcond|]. intros Ht.
    apply (waiting_set_resource j r (cashier c) x old s Hold); [|auto].
    intros Hi. destruct (Hout j Hi) as [H|H]; [exact H|].
    destruct (H c Hc) as [H1|[_ H1]]; [congruence|].
    pose proof (count_events_In (is_condition j) y (queue s) Hy) as Hn.
    rewrite E in Hn. simpl in Hn. rewrite Nat.eqb_refl in Hn.
    specialize (Hn eq_refl). lia.
  - intros r' res i Hr Hi. rewrite customers_set_resource.
    rewrite (get_set_resource r r' x old s Hold) in Hr.
    destruct (res_id_eq_dec r r') as [<-|Hne]; [|eauto].
    injection Hr as <-. eapply S5; eauto.
Qed.

Lemma sound_schedule (e : event) (prio : nat) (d : Q) (s : state) :
  sound s ->
  entry_sound s (Entry (now s + d) prio (next_eid s) e) ->
  (forall cid, e = Condition cid ->
     count_events (is_condition cid) (queue s) = 0%nat) ->
  sound (schedule e prio d s).
Proof.
  intros (S2 & S3 & S4 & S5) He Hc.
  split; [|split; [|split]].
  - exact S2.
  - intros cid. simpl. rewrite count_events_heappush. simpl.
    destruct (is_condition cid e) eqn:E; [|apply S3].
    apply is_condition_true in E. rewrite (Hc cid E). lia.
  - intros x Hx. simpl in Hx. apply In_heappush in Hx.
    destruct Hx as [->|Hx]; [exact He|]. exact (S4 x Hx).
  - exact S5.
Qed.

Lemma update_customer_set_resource (cid : nat) (f : customer -> customer)
    (r : res_id) (x : resource) (s : state) :
  update_customer cid f (set_resource r x s)
  = set_resource r x (update_customer cid f s).
Proof.
  unfold update_customer. rewrite customers_set_resource.
  destruct (nth_error (customers s) cid); destruct r; reflexivity.
Qed.

(** The head of a queue is granted the slot. *)
Lemma sound_trigger_put (r : res_id) (s : state) :
  sound s -> sound (trigger_put r s).
Proof.
  intros H. unfold trigger_put.
  destruct (get_resource r s) as [[us [|cid pending]]|] eqn:E; try exact H.
  destruct (Nat.ltb (length us) 1); [|exact H].
  rewrite update_customer_set_resource.
  destruct (proj2 (proj2 (proj2 H)) r _ cid E (or_introl eq_refl)) as (c0 & Hc0 & _).
  assert (H1 : sound (update_customer cid set_triggered s)).
  { apply sound_update_customer; [exact H|]. intros c _. simpl. auto. }
  assert (Hc1 : nth_error (customers (update_customer cid set_triggered s)) cid
                = Some (set_triggered c0)).
  { rewrite nth_error_update_customer, Hc0.
    destruct (Nat.eq_dec cid cid); [reflexivity|contradiction]. }
  assert (H2 : sound (set_resource r (Resource (us ++ [cid]) pending)
                        (update_customer cid set_triggered s))).
  { eapply sound_set_resource; [exact H1| | |].
    - rewrite get_resource_update_customer. exact E.
    - simpl. intros i [<-|Hi]; [|auto]. right. intros c Hc. left.
      rewrite Hc1 in Hc. injection Hc as <-. reflexivity.
    - simpl. auto. }
  apply sound_schedule; [exact H2| |discriminate].
  unfold entry_sound. cbn [ev]. rewrite customers_set_resource.
  exists (set_triggered c0). split; [exact Hc1|reflexivity].
Qed.

Lemma sound_release (r : res_id) (cid : nat) (s : state) :
  sound s -> sound (release r cid s).
Proof.
  intros H. unfold release.
  destruct (get_resource r s) as [[us pending]|] eqn:E; [|exact H].
  apply sound_schedule; [|exact I|discriminate].
  eapply sound_set_resource; [exact H|exact E| |]; simpl; auto.
Qed.

(** Leaving the [with] block does not fail when the request is granted, or
    is in the queue with its race decided. *)
Lemma sound_request_exit (cid : nat) (s : state) :
  sound s ->
  (forall c, nth_error (customers s) cid = Some c -> triggered c = false ->
     cond_triggered c = true /\
     count_events (is_condition cid) (queue s) = 0%nat /\
     waiting cid (cashier c) s) ->
  sound (fst (request_exit cid s)) /\ snd (request_exit cid s) = inr tt.
Proof.
  intros H Hpre. unfold request_exit.
  destruct (nth_error (customers s) cid) as [c|] eqn:Ec; [|auto].
  unfold cancel. destruct (triggered c) eqn:Et.
  - split; [|reflexivity]. apply sound_release. exact H.
  - destruct (Hpre c eq_refl Et) as (Hcond & Hn & res & Hr & Hin).
    rewrite Hr. destruct res as [us pending]. simpl in Hin.
    destruct (list_remove_Some cid pending Hin) as [pending' R]. rewrite R.
    split; [|reflexivity]. cbn [fst]. apply sound_release.
    eapply sound_set_resource; [exact H|exact Hr| |]; simpl.
    + intros i Hi. destruct (Nat.eq_dec i cid) as [->|Hne].
      * right. intros c' Hc'. right.
        assert (c' = c) by congruence. subst c'. auto.
      * left. eapply list_remove_other; eauto.
    + intros i Hi. eapply list_remove_In; eauto.
Qed.

Lemma sound_condition_check (cid : nat) (s : state) :
  sound s -> sound (condition_check cid s).
Proof.
  intros H. unfold condition_check.
  destruct (nth_error (customers s) cid) as [c|] eqn:Ec; [|exact H].
  destruct (cond_triggered c) eqn:Econd; [exact H|].
  assert (H1 : sound (update_customer cid set_cond_triggered s)).
  { apply sound_update_customer; [exact H|]. intros c' Hc'. simpl.
    repeat split; auto. apply (proj1 H cid c' Hc'). }
  assert (Hc1 : nth_error (customers (update_customer cid set_cond_triggered s)) cid
                = Some (set_cond_triggered c)).
  { rewrite nth_error_update_customer, Ec.
    destruct (Nat.eq_dec cid cid); [reflexivity|contradiction]. }
  apply sound_schedule; [exact H1| |].
  - unfold entry_sound. cbn [ev]. exists (set_cond_triggered c).
    split; [exact Hc1|]. split; [reflexivity|]. simpl. intros Ht.
    apply waiting_update_customer. apply (proj1 H cid c Ec); assumption.
  - intros i Hi. injection Hi as <-. rewrite queue_update_customer.
    apply count_events_none. intros x Hx.
    destruct (is_condition cid (ev x)) eqn:E; [|reflexivity].
    apply is_condition_true in E.
    pose proof (proj1 (proj2 (proj2 H)) x Hx) as Hs.
    unfold entry_sound in Hs. rewrite E in Hs.
    destruct Hs as (c' & Hc' & Hcond' & _). congruence.
Qed.

(** A new request joins the queue of a resource that exists. *)
Lemma sound_enqueue (a : Q) (r : res_id) (us pending : list nat) (s : state) :
  sound s -> get_resource r s = Some (Resource us pending) ->
  sound (set_resource r (Resource us (pending ++ [length (customers s)]))
           (set_customers (customers s ++ [Customer a r false false false]) s)).
Proof.
  intros (S2 & S3 & S4 & S5) Hr.
  set (cid := length (customers s)).
  set (new := Customer a r false false false).
  set (s1 := set_customers (customers s ++ [new]) s).
  assert (Hold : forall i c, nth_error (customers s) i = Some c ->
                   nth_error (customers s1) i = Some c).
  { intros i c Hi. simpl. rewrite nth_error_app1; [exact Hi|].
    apply nth_error_Some. congruence. }
  assert (Hnew : forall i c, nth_error (customers s1) i = Some c ->
                   nth_error (customers s) i = Some c \/ (i = cid /\ c = new)).
  { intros i c Hi. simpl in Hi.
    destruct (Nat.lt_ge_cases i (length (customers s))) as [Hlt|Hge].
    - rewrite nth_error_app1 in Hi by exact Hlt. auto.
    - rewrite nth_error_app2 in Hi by exact Hge. right.
      destruct (i - length (customers s))%nat as [|k] eqn:E; simpl in Hi.
      + injection Hi as <-. split; [unfold cid; lia|reflexivity].
      + destruct k; discriminate. }
  set (s2 := set_resource r (Resource us (pending ++ [cid])) s1).
  assert (Hr1 : get_resource r s1 = Some (Resource us pending)) by exact Hr.
  assert (Hw : forall i r', waiting i r' s -> waiting i r' s2).
  { intros i r' Hi. apply (waiting_set_resource i r r' _ _ s1 Hr1).
    - simpl. intros Hin. apply in_or_app. auto.
    - exact Hi. }
  split; [|split; [|split]].
  - intros i c Hc. unfold s2 in Hc. rewrite customers_set_resource in Hc.
    destruct (Hnew i c Hc) as [Ho|[-> ->]].
    + destruct (S2 i c Ho) as [Ha Hb]. split; [exact Ha|]. auto.
    + split; [discriminate|]. intros _ _. simpl. unfold waiting, s2.
      rewrite (get_set_resource r r _ _ s1 Hr1).
      destruct (res_id_eq_dec r r); [|contradiction].
      eexists. split; [reflexivity|]. simpl. apply in_or_app. right. left. reflexivity.
  - intros i. unfold s2. rewrite queue_set_resource. apply S3.
  - intros x Hx. unfold s2 in Hx. rewrite queue_set_resource in Hx.
    pose proof (S4 x Hx) as Hs. unfold entry_sound in *.
    unfold s2. rewrite customers_set_resource. fold s2.
    destruct (ev x) as [| | | | |j| |j| |j| | |]; auto.
    + destruct Hs as (c & Hc & Ht). eauto.
    + destruct Hs as (c & Hc & Ht). eauto.
    + destruct Hs as (c & Hc & Hcond & Hwt). exists c. auto.
  - intros r' res' i Hr' Hi. unfold s2 in Hr' |- *.
    rewrite customers_set_resource.
    rewrite (get_set_resource r r' _ _ s1 Hr1) in Hr'.
    destruct (res_id_eq_dec r r') as [<-|Hne].
    + injection Hr' as <-. simpl in Hi. apply in_app_or in Hi.
      destruct Hi as [Hi|[<-|[]]].
      * destruct (S5 r _ i Hr Hi) as (c & Hc & Hk). eauto.
      * exists new. split; [|reflexivity]. simpl. unfold cid.
        rewrite nth_error_app2 by lia. rewrite Nat.sub_diag. reflexivity.
    + destruct (S5 r' res' i Hr' Hi) as (c & Hc & Hk). eauto.
Qed.

Lemma sound_new_request (a : Q) (r : res_id) (s : state) :
  sound s -> (exists res, get_resource r s = Some res) ->
  sound (fst (new_request a r s)).
Proof.
  intros H ([us pending] & Hr). unfold new_request, request. cbn [fst].
  change (get_resource r (set_customers
            (customers s ++ [Customer a r false false false]) s))
    with (get_resource r s).
  rewrite Hr. apply sound_trigger_put. apply sound_enqueue; assumption.
Qed.

Lemma sound_resume (body : M status) (s : state) :
  sound (fst (body s)) -> (exists st, snd (body s) = inr st) ->
  sound (resume body s).
Proof.
  intros H (st & Hst). unfold resume.
  destruct (body s) as [s' [e|[|]]]; simpl in *; try discriminate.
  - exact H.
  - eapply sound_calm; [exact H|]. apply calm_schedule. exact I.
Qed.

Section ValidConfiguration.

Variable P : params.

Variable draws : nat -> Q.

Hypothesis rate_positive : 0 < lambda_rate P.

Hypothesis draws_nonneg : nonneg_draws draws.

Lemma calmM_exponential (scale : Q) : calmM (exponential draws scale).
Proof.
  intros s. unfold exponential. destruct (Qltb scale 0); [apply calm_refl|].
  apply calm_same; reflexivity.
Qed.

Lemma calmM_py_div (a b : Q) : calmM (py_div a b).
Proof.
  unfold py_div. destruct (Qeq_bool b 0); [apply calmM_raise|apply calmM_ret].
Qed.

Lemma calmM_customer_arrival : calmM (customer_arrival P draws).
Proof.
  unfold customer_arrival.
  apply calmM_bind; [apply calmM_py_div|intros scale].
  apply calmM_bind; [apply calmM_exponential|intros d].
  apply calmM_bind; [apply calmM_timeout; exact I|intros _].
  apply calmM_ret.
Qed.

Lemma calmM_customer_arrival_resumed : calmM (customer_arrival_resumed P draws).
Proof.
  unfold customer_arrival_resumed.
  apply calmM_bind; [apply calmM_gets|intros t].
  apply calmM_bind; [apply calmM_process; exact I|intros _].
  apply calmM_customer_arrival.
Qed.

Lemma calmM_open_extra_cashier_process : calmM open_extra_cashier_process.
Proof.
  unfold open_extra_cashier_process.
  apply calmM_bind; [apply calmM_gets|intros b].
  destruct (negb b); [|apply calmM_ret].
  apply calmM_bind; [apply calmM_modify; intros s; apply calm_same; reflexivity|intros _].
  apply calmM_bind; [apply calmM_timeout; exact I|intros _].
  apply calmM_ret.
Qed.

Lemma calmM_open_extra_cashier_process_resumed :
  calmM (open_extra_cashier_process_resumed P).
Proof.
  unfold open_extra_cashier_process_resumed.
  apply calmM_bind; [apply calmM_modify; intros s; apply calm_same; reflexivity|intros _].
  apply calmM_bind; [apply calmM_modify; intros s; apply calm_same; reflexivity|intros _].
  apply calmM_ret.
Qed.

Lemma calmM_choose_cashier : calmM (choose_cashier P).
Proof.
  unfold choose_cashier.
  apply calmM_bind; [apply calmM_gets|intros queues].
  destruct queues as [|[m i] t]; [apply calmM_raise|].
  apply calmM_bind; [apply calmM_gets|intros b].
  destruct b; [apply calmM_ret|].
  apply calmM_bind; [|intros _; apply calmM_ret].
  destruct (negb false && (extra_cashier_policy P <=? Z.of_nat m)%Z);
    [apply calmM_process; exact I|apply calmM_ret].
Qed.

(** With a positive rate and variates that are not negative the arrival
    loop takes its turn without an exception. *)
Lemma customer_arrival_returns (s : state) :
  snd (customer_arrival P draws s) = inr Suspended.
Proof.
  unfold customer_arrival, bind, py_div.
  rewrite (Qeq_bool_pos _ rate_positive). unfold ret, exponential.
  rewrite (Qltb_nonneg _ (Qinv_pos_nonneg _ rate_positive)).
  unfold timeout.
  rewrite (Qltb_scaled_nonneg _ _ (Qinv_pos_nonneg _ rate_positive)
             (draws_nonneg (rng s))).
  reflexivity.
Qed.

Lemma customer_arrival_resumed_returns (s : state) :
  snd (customer_arrival_resumed P draws s) = inr Suspended.
Proof.
  unfold customer_arrival_resumed, bind, gets, process, modify.
  apply customer_arrival_returns.
Qed.

Lemma open_extra_cashier_process_returns (s : state) :
  exists st, snd (open_extra_cashier_process s) = inr st.
Proof.
  unfold open_extra_cashier_process, bind, gets.
  destruct (negb (open_extra_cashier s)); simpl; eauto.
Qed.

(** With a regular cashier the routing does not fail, and it names a
    resource that exists. *)
Lemma choose_cashier_returns (s : state) :
  cashiers s <> [] ->
  exists o, snd (choose_cashier P s) = inr o /\
    forall r, o = Some r -> exists res, get_resource r s = Some res.
Proof.
  intros Hpool. pose proof (choose_cashier_cases P s) as Hc.
  destruct (sorted_queues s) as [|[m i] t] eqn:E.
  { apply sorted_queues_nil in E. contradiction. }
  destruct (sorted_queues_head s m i t E) as [(c & Hi & _) _].
  destruct (open_extra_cashier s).
  - rewrite Hc. simpl. eexists. split; [reflexivity|].
    intros r Hr. injection Hr as <-. simpl. eauto.
  - rewrite Hc. simpl. eexists. split; [reflexivity|].
    intros r Hr. destruct (Nat.ltb m 5); [|discriminate].
    injection Hr as <-. simpl. eauto.
Qed.

Lemma sound_customer_process (a : Q) (s : state) :
  cashiers s <> [] -> sound s ->
  sound (fst (customer_process P a s)) /\
  exists st, snd (customer_process P a s) = inr st.
Proof.
  intros Hpool H. unfold customer_process, bind.
  destruct (choose_cashier_returns s Hpool) as (o & Ho & Hres).
  pose proof (calmM_choose_cashier s) as Hcalm.
  destruct (choose_cashier P s) as [s1 res]. simpl in Ho, Hcalm. subst res.
  assert (H1 : sound s1) by (eapply sound_calm; eauto).
  destruct o as [r|].
  - assert (Hr : exists res, get_resource r s1 = Some res).
    { destruct (Hres r eq_refl) as (res & Hr). exists res.
      destruct Hcalm as (_ & Hk & He & _). destruct r; simpl in *; congruence. }
    pose proof (sound_new_request a r s1 H1 Hr) as H2.
    unfold new_request in *. cbv beta iota zeta in *. cbn [fst] in H2.
    unfold with_request, timeout, bind, modify, ret.
    change (Qltb 1 0) with false. cbv beta iota. cbn [fst snd].
    split; [|eauto].
    eapply sound_calm; [exact H2|]. apply calm_schedule. exact I.
  - simpl. split; [|eauto].
    eapply sound_calm; [exact H1|]. apply calm_same; reflexivity.
Qed.

Lemma sound_customer_process_resumed (cid : nat) (s : state) :
  sound s ->
  (forall c, nth_error (customers s) cid = Some c -> triggered c = false ->
     cond_triggered c = true /\
     count_events (is_condition cid) (queue s) = 0%nat /\
     waiting cid (cashier c) s) ->
  sound (fst (customer_process_resumed draws cid s)) /\
  exists st, snd (customer_process_resumed draws cid s) = inr st.
Proof.
  intros H Hpre. unfold customer_process_resumed.
  destruct (nth_error (customers s) cid) as [c|] eqn:Ec; [|simpl; eauto].
  destruct (processed c) eqn:Ep.
  - unfold with_request, bind, gets, modify, exponential.
    change (Qltb 1 0) with false. cbv beta iota. unfold timeout.
    cbn [rng set_waiting_times set_rng].
    rewrite (Qltb_scaled_nonneg 1 _ ltac:(discriminate) (draws_nonneg (rng s))).
    unfold modify, ret. cbv beta iota. cbn [fst snd]. split; [|eauto].
    apply sound_schedule; [| |discriminate].
    + eapply sound_calm; [exact H|]. apply calm_same; reflexivity.
    + unfold entry_sound. cbn [ev customers set_rng set_waiting_times].
      exists c. split; [exact Ec|]. apply (proj1 H cid c Ec). exact Ep.
  - unfold with_request, bind, modify, ret. cbv beta iota.
    set (s1 := set_lost_customers (S (lost_customers s)) s).
    assert (H1 : sound s1).
    { eapply sound_calm; [exact H|]. apply calm_same; reflexivity. }
    assert (Hpre1 : forall c0, nth_error (customers s1) cid = Some c0 ->
              triggered c0 = false ->
              cond_triggered c0 = true /\
              count_events (is_condition cid) (queue s1) = 0%nat /\
              waiting cid (cashier c0) s1).
    { intros c0 Hc0. apply Hpre. change (nth_error (customers s) cid = Some c0) in Hc0.
      congruence. }
    destruct (sound_request_exit cid s1 H1 Hpre1) as [H2 Hr].
    destruct (request_exit cid s1) as [s2 [e|u]]; simpl in *; [discriminate|].
    split; [exact H2|eauto].
Qed.

Lemma sound_customer_process_served (cid : nat) (s : state) :
  sound s ->
  (forall c, nth_error (customers s) cid = Some c -> triggered c = true) ->
  sound (fst (customer_process_served cid s)) /\
  exists st, snd (customer_process_served cid s) = inr st.
Proof.
  intros H Hpre. unfold customer_process_served, with_request, bind, modify, ret.
  cbv beta iota.
  set (s1 := set_profit (profit s + 10) s).
  assert (H1 : sound s1).
  { eapply sound_calm; [exact H|]. apply calm_same; reflexivity. }
  assert (Hpre1 : forall c, nth_error (customers s1) cid = Some c ->
            triggered c = false ->
            cond_triggered c = true /\
            count_events (is_condition cid) (queue s1) = 0%nat /\
            waiting cid (cashier c) s1).
  { intros c Hc Ht. rewrite (Hpre c Hc) in Ht. discriminate. }
  destruct (sound_request_exit cid s1 H1 Hpre1) as [H2 Hr].
  destruct (request_exit cid s1) as [s2 [e|u]]; simpl in *; [discriminate|].
  split; [exact H2|eauto].
Qed.

Lemma sound_start (n : nat) : sound (start P n).
Proof.
  split; [|split; [|split]].
  - intros [|cid] c H; discriminate.
  - intros cid.
    change (queue (start P n))
      with [Entry (0 + 0) URGENT 0 Initialize_arrival; Entry (0 + 200) URGENT 1 Until].
    unfold count_events. simpl. lia.
  - intros x [<-|[<-|[]]]; exact I.
  - intros r res cid Hr Hin. exfalso.
    assert (res = Resource [] []) as ->.
    { destruct r as [i|]; simpl in Hr.
      - apply nth_error_In in Hr. apply repeat_spec in Hr. exact Hr.
      - congruence. }
    destruct Hin.
Qed.

(** The event at the head of the heap is taken. *)
Lemma sound_pop (s : state) (e : entry) (q : list entry) :
  sound s -> queue s = e :: q ->
  sound (set_history (e :: history s)
           (set_now (at_time e) (set_queue q (next_eid s) s))) /\
  entry_sound (set_history (e :: history s)
                 (set_now (at_time e) (set_queue q (next_eid s) s))) e /\
  forall cid, ev e = Condition cid ->
    count_events (is_condition cid) q = 0%nat.
Proof.
  intros (S2 & S3 & S4 & S5) Hq. split; [|split].
  - split; [exact S2|]. split; [|split; [|exact S5]].
    + intros cid. specialize (S3 cid). rewrite Hq, count_events_cons in S3.
      simpl. lia.
    + intros x Hx. apply (S4 x). rewrite Hq. right. exact Hx.
  - apply S4. rewrite Hq. left. reflexivity.
  - intros cid E. specialize (S3 cid). rewrite Hq, count_events_cons, E in S3.
    simpl in S3. rewrite Nat.eqb_refl in S3. lia.
Qed.

Lemma sound_step (s s' : state) :
  cashiers s <> [] -> sound s -> step P draws s = Next s' -> sound s'.
Proof.
  intros Hpool H Hstep. apply step_inv in Hstep.
  destruct Hstep as (e & q & Hq & -> & _).
  destruct (sound_pop s e q H Hq) as (H1 & He & Hn).
  set (s1 := set_history (e :: history s)
               (set_now (at_time e) (set_queue q (next_eid s) s))) in *.
  unfold entry_sound in He.
  destruct (ev e) as [|a| | |cid|cid| |cid|r|cid| |x|] eqn:E; cbn [dispatch].
  - apply sound_resume; [|rewrite customer_arrival_returns; eauto].
    eapply sound_calm; [exact H1|apply calmM_customer_arrival].
  - apply sound_resume; apply (sound_customer_process a s1 Hpool H1).
  - apply sound_resume; [|apply open_extra_cashier_process_returns].
    eapply sound_calm; [exact H1|apply calmM_open_extra_cashier_process].
  - apply sound_resume; [|rewrite customer_arrival_resumed_returns; eauto].
    eapply sound_calm; [exact H1|apply calmM_customer_arrival_resumed].
  - apply sound_condition_check. exact H1.
  - apply sound_resume; apply (sound_customer_process_served cid s1 H1);
      intros c Hc; destruct He as (c' & Hc' & Ht);
      assert (c' = c) by congruence; subst c'; exact Ht.
  - apply sound_resume; [|simpl; eauto].
    eapply sound_calm; [exact H1|apply calmM_open_extra_cashier_process_resumed].
  - apply sound_condition_check. apply sound_update_customer; [exact H1|].
    intros c Hc. destruct He as (c' & Hc' & Ht).
    assert (c' = c) by congruence. subst c'. simpl. auto.
  - apply sound_trigger_put. exact H1.
  - assert (Hpre : forall c, nth_error (customers s1) cid = Some c ->
              triggered c = false ->
              cond_triggered c = true /\
              count_events (is_condition cid) (queue s1) = 0%nat /\
              waiting cid (cashier c) s1).
    { intros c Hc Ht. destruct He as (c' & Hc' & Hcond & Hw).
      assert (c' = c) by congruence. subst c'.
      split; [exact Hcond|]. split; [|auto]. apply Hn. reflexivity. }
    apply sound_resume; apply (sound_customer_process_resumed cid s1 H1 Hpre).
  - exact H1.
  - destruct He.
  - exact H1.
Qed.

Lemma sound_reachable (s : state) :
  (1 <= num_cashiers P)%Z -> reachable P draws s -> sound s.
Proof.
  intros Hn. induction 1 as [n|s s' Hs IH H]; [apply sound_start|].
  eapply sound_step; eauto. apply (pool_not_empty P draws s Hn Hs).
Qed.

Lemma run_never_raises (fuel : nat) :
  (1 <= num_cashiers P)%Z ->
  forall s e, reachable P draws s -> run P draws fuel s <> Raised e.
Proof.
  intros Hn. induction fuel as [|fuel IH]; intros s e Hs; simpl; [discriminate|].
  destruct (step P draws s) as [s'|s'|x s'|] eqn:E.
  - apply IH. eapply reachable_step; eauto.
  - discriminate.
  - exfalso. apply step_inv in E. destruct E as (y & q & Hq & Hy).
    pose proof (sound_reachable s Hn Hs) as (_ & _ & S4 & _).
    specialize (S4 y). rewrite Hq in S4. specialize (S4 (or_introl eq_refl)).
    unfold entry_sound in S4. rewrite Hy in S4. exact S4.
  - exfalso. apply step_inv in E.
    destruct (until_pending_reachable P draws s Hs) as (y & Hin & _).
    rewrite E in Hin. destruct Hin.
Qed.

End ValidConfiguration.

Lemma replications_never_raise (P : params) (draws : nat -> Q) (fuel : nat) :
  0 < lambda_rate P -> (1 <= num_cashiers P)%Z -> nonneg_draws draws ->
  forall k n e, replications P draws fuel k n <> Raises e.
Proof.
  intros Hl Hn Hd. induction k as [|k IH]; intros n e; simpl; [discriminate|].
  destruct (replication P draws fuel n) as [s|x|] eqn:E.
  - specialize (IH (rng s) e).
    destruct (replications P draws fuel k (rng s)); congruence.
  - exfalso. unfold replication in E.
    exact (run_never_raises P draws Hl Hd fuel Hn (start P n) x
             (reachable_start P draws n) E).
  - discriminate.
Qed.

(** X1.  With a positive arrival rate, the rate and the scale
    [1.0 / lambda_rate] in the range of doubles, at least one regular
    cashier and variates that are not negative, no process of a replication
    raises, whatever the policy and the cost: [env.run] raises nothing,
    however far the run has got, and neither does the loop of [simulate]
    over the replications.  (What [simulate] computes after its loop is not
    part of this statement.) *)
Theorem valid_configuration_never_raises (P : params) (draws : nat -> Q) :
  0 < lambda_rate P ->
  in_double_range (lambda_rate P) -> in_double_range (1 / lambda_rate P) ->
  (1 <= num_cashiers P)%Z -> nonneg_draws draws ->
  (forall fuel n e, replication P draws fuel n <> Raised e) /\
  (forall fuel num_runs n e, replications P draws fuel num_runs n <> Raises e).
Proof.
  intros Hl _ _ Hn Hd. split.
  - intros fuel n e. apply (run_never_raises P draws Hl Hd fuel Hn).
    apply reachable_start.
  - intros fuel num_runs n e.
    exact (replications_never_raise P draws fuel Hl Hn Hd num_runs n e).
Qed.

(** ** A customer in service holds its cashier *)

Local Open Scope Q_scope.

Lemma is_service_true (cid : nat) (e : event) :
  is_service cid e = true <-> e = Timeout_service cid.
Proof.
  destruct e; simpl; try (split; [discriminate|discriminate]).
  rewrite Nat.eqb_eq. split; [intros ->; reflexivity|intros H; injection H; auto].
Qed.

Lemma holding_frame (cid : nat) (r : res_id) (s s' : state) :
  cashiers s' = cashiers s -> extra_cashier s' = extra_cashier s ->
  holding cid r s -> holding cid r s'.
Proof.
  intros Hk He (res & Hr & Hin). exists res. split; [|exact Hin].
  destruct r; simpl in *; congruence.
Qed.

(** Neither a request, nor a resource, nor the pending resumptions of the
    customers change. *)
Lemma serving_frame (s s' : state) :
  customers s' = customers s -> cashiers s' = cashiers s ->
  extra_cashier s' = extra_cashier s ->
  (forall cid, count_events (is_condition cid) (queue s')
               = count_events (is_condition cid) (queue s)) ->
  (forall cid, count_events (is_service cid) (queue s')
               = count_events (is_service cid) (queue s)) ->
  serving s -> serving s'.
Proof.
  intros C K E N M (V1 & V2 & V3). split; [|split].
  - intros cid c Hc Ht Hb. rewrite C in Hc.
    apply (holding_frame cid (cashier c) s s' K E). apply (V1 cid c Hc Ht).
    unfold busy in *. rewrite N, M in Hb. exact Hb.
  - intros cid. rewrite N, M. apply V2.
  - intros cid c Hc Hn. rewrite C in Hc. rewrite M in Hn. eauto.
Qed.

Lemma serving_calm (s s' : state) : serving s -> calm s s' -> serving s'.
Proof.
  intros H (C & K & E & _ & N & M). eapply serving_frame; eauto.
Qed.

Lemma serving_schedule (e : event) (prio : nat) (d : Q) (s : state) :
  (forall cid, e <> Condition cid) -> (forall cid, e <> Timeout_service cid) ->
  serving s -> serving (schedule e prio d s).
Proof.
  intros Hc Hs. apply serving_frame; try reflexivity.
  - intros cid. simpl. rewrite count_events_heappush. simpl.
    destruct (is_condition cid e) eqn:E; [|reflexivity].
    apply is_condition_true in E. destruct (Hc cid E).
  - intros cid. simpl. rewrite count_events_heappush. simpl.
    destruct (is_service cid e) eqn:E; [|reflexivity].
    apply is_service_true in E. destruct (Hs cid E).
Qed.

Lemma holding_update_customer (i cid : nat) (f : customer -> customer)
    (r : res_id) (s : state) :
  holding i r (update_customer cid f s) <-> holding i r s.
Proof.
  unfold holding. rewrite get_resource_update_customer. reflexivity.
Qed.

Lemma serving_update_customer (cid : nat) (f : customer -> customer) (s : state) :
  serving s ->
  (forall c, nth_error (customers s) cid = Some c ->
     cashier (f c) = cashier c /\
     (triggered (f c) = true ->
        triggered c = true \/ holding cid (cashier c) s) /\
     (cond_triggered c = true -> cond_triggered (f c) = true)) ->
  serving (update_customer cid f s).
Proof.
  intros (V1 & V2 & V3) Hf.
  assert (Hnth : forall i c', nth_error (customers (update_customer cid f s)) i = Some c' ->
            exists c, nth_error (customers s) i = Some c /\
              ((i = cid /\ c' = f c) \/ (i <> cid /\ c' = c))).
  { intros i c' Hi. rewrite nth_error_update_customer in Hi.
    destruct (Nat.eq_dec cid i) as [<-|Hne].
    - destruct (nth_error (customers s) cid) as [c|]; [|discriminate].
      injection Hi as <-. exists c. auto.
    - exists c'. split; [exact Hi|]. right. split; [congruence|reflexivity]. }
  split; [|split].
  - intros i c' Hi Ht Hb. apply holding_update_customer.
    unfold busy in Hb. rewrite queue_update_customer in Hb.
    destruct (Hnth i c' Hi) as (c & Hc & [[-> ->]|[Hne ->]]).
    + destruct (Hf c Hc) as (Hk & Htr & Hcd). rewrite Hk.
      destruct (Htr Ht) as [Ht0|Hh]; [|exact Hh].
      apply (V1 cid c Hc Ht0). unfold busy.
      destruct Hb as [Hb|Hb]; [|auto]. left.
      destruct (cond_triggered c); [rewrite Hcd in Hb by reflexivity; discriminate|reflexivity].
    + apply (V1 i c Hc Ht). exact Hb.
  - intros i. rewrite queue_update_customer. apply V2.
  - intros i c' Hi Hn. rewrite queue_update_customer in Hn.
    destruct (Hnth i c' Hi) as (c & Hc & [[-> ->]|[Hne ->]]).
    + apply (Hf c Hc). eauto.
    + eauto.
Qed.

Lemma holding_set_resource (i : nat) (r r' : res_id) (x old : resource) (s : state) :
  get_resource r s = Some old ->
  (In i (users old) -> In i (users x)) ->
  holding i r' s -> holding i r' (set_resource r x s).
Proof.
  intros Hold Hin (res & Hr & Hi). unfold holding.
  rewrite (get_set_resource r r' x old s Hold).
  destruct (res_id_eq_dec r r') as [<-|Hne]; [|eauto].
  exists x. split; [reflexivity|]. apply Hin.
  assert (res = old) by congruence. subst res. exact Hi.
Qed.

(** The lists of a resource change; the requests that leave its users are
    those of customers who are busy no more. *)
Lemma serving_set_resource (r : res_id) (x old : resource) (s : state) :
  serving s -> get_resource r s = Some old ->
  (forall i, In i (users old) ->
     In i (users x) \/
     forall c, nth_error (customers s) i = Some c -> ~ busy i c s) ->
  serving (set_resource r x s).
Proof.
  intros (V1 & V2 & V3) Hold Hout. split; [|split].
  - intros i c Hc Ht Hb. rewrite customers_set_resource in Hc.
    unfold busy in Hb. rewrite queue_set_resource in Hb.
    apply (holding_set_resource i r (cashier c) x old s Hold); [|auto].
    intros Hi. destruct (Hout i Hi) as [H|H]; [exact H|].
    destruct (H c Hc Hb).
  - intros i. rewrite queue_set_resource. apply V2.
  - intros i c Hc Hn. rewrite customers_set_resource in Hc.
    rewrite queue_set_resource in Hn. eauto.
Qed.

Lemma serving_trigger_put (r : res_id) (s : state) :
  sound s -> serving s -> serving (trigger_put r s).
Proof.
  intros Hs H. unfold trigger_put.
  destruct (get_resource r s) as [[us [|cid pending]]|] eqn:E; try exact H.
  destruct (Nat.ltb (length us) 1); [|exact H].
  destruct (proj2 (proj2 (proj2 Hs)) r _ cid E (or_introl eq_refl))
    as (c0 & Hc0 & Hk0).
  apply serving_schedule; try discriminate.
  apply serving_update_customer.
  - eapply serving_set_resource; [exact H|exact E|].
    simpl. intros i Hi. left. apply in_or_app. auto.
  - intros c Hc. rewrite customers_set_resource in Hc.
    assert (c = c0) by congruence. subst c. simpl.
    split; [reflexivity|]. split; [|auto]. intros _. right.
    unfold holding. rewrite Hk0, (get_set_resource r r _ _ s E).
    destruct (res_id_eq_dec r r); [|contradiction].
    eexists. split; [reflexivity|]. simpl. apply in_or_app. right. left. reflexivity.
Qed.

Lemma serving_release (r : res_id) (cid : nat) (s : state) :
  serving s ->
  (forall c, nth_error (customers s) cid = Some c -> ~ busy cid c s) ->
  serving (release r cid s).
Proof.
  intros H Hidle. unfold release.
  destruct (get_resource r s) as [[us pending]|] eqn:E; [|exact H].
  apply serving_schedule; try discriminate.
  eapply serving_set_resource; [exact H|exact E|].
  simpl. intros i Hi.
  destruct (list_remove cid us) as [us'|] eqn:R; [|auto].
  destruct (Nat.eq_dec i cid) as [->|Hne]; [right; exact Hidle|].
  left. eapply list_remove_other; eauto.
Qed.

Lemma serving_request_exit (cid : nat) (s : state) :
  serving s ->
  (forall c, nth_error (customers s) cid = Some c -> ~ busy cid c s) ->
  serving (fst (request_exit cid s)).
Proof.
  intros H Hidle. unfold request_exit.
  destruct (nth_error (customers s) cid) as [c|] eqn:Ec; [|exact H].
  unfold cancel. destruct (triggered c).
  - apply serving_release; [exact H|]. rewrite Ec. exact Hidle.
  - destruct (get_resource (cashier c) s) as [[us pending]|] eqn:Er.
    + destruct (list_remove cid pending) as [pending'|]; [|exact H].
      cbn [fst]. apply serving_release.
      * eapply serving_set_resource; [exact H|exact Er|]. simpl. auto.
      * rewrite customers_set_resource, Ec. intros c' Hc' Hb.
        apply (Hidle c' Hc'). unfold busy in *.
        rewrite queue_set_resource in Hb. exact Hb.
    + apply serving_release; [exact H|]. rewrite Ec. exact Hidle.
Qed.

Lemma serving_condition_check (cid : nat) (s : state) :
  sound s -> serving s -> serving (condition_check cid s).
Proof.
  intros Hs H. unfold condition_check.
  destruct (nth_error (customers s) cid) as [c|] eqn:Ec; [|exact H].
  destruct (cond_triggered c) eqn:Econd; [exact H|].
  destruct H as (V1 & V2 & V3).
  assert (Hnc : count_events (is_condition cid) (queue s) = 0%nat).
  { apply count_events_none. intros x Hx.
    destruct (is_condition cid (ev x)) eqn:E; [|reflexivity].
    apply is_condition_true in E.
    pose proof (proj1 (proj2 (proj2 Hs)) x Hx) as Hx'.
    unfold entry_sound in Hx'. rewrite E in Hx'.
    destruct Hx' as (c' & Hc' & Hcond' & _). congruence. }
  assert (Hns : count_events (is_service cid) (queue s) = 0%nat).
  { destruct (count_events (is_service cid) (queue s)) eqn:E; [reflexivity|].
    assert (cond_triggered c = true) by (apply (V3 cid c Ec); lia). congruence. }
  assert (Hnth : forall i, nth_error (customers (update_customer cid set_cond_triggered s)) i
            = if Nat.eq_dec cid i then Some (set_cond_triggered c)
              else nth_error (customers s) i).
  { intros i. rewrite nth_error_update_customer.
    destruct (Nat.eq_dec cid i) as [<-|]; [rewrite Ec|]; reflexivity. }
  assert (Hcnt : forall i, count_events (is_condition i)
                   (queue (schedule (Condition cid) NORMAL 0
                             (update_customer cid set_cond_triggered s)))
                 = ((if Nat.eqb cid i then 1 else 0)
                    + count_events (is_condition i) (queue s))%nat).
  { intros i. simpl. rewrite count_events_heappush, queue_update_customer.
    reflexivity. }
  assert (Hsvc : forall i, count_events (is_service i)
                   (queue (schedule (Condition cid) NORMAL 0
                             (update_customer cid set_cond_triggered s)))
                 = count_events (is_service i) (queue s)).
  { intros i. simpl. rewrite count_events_heappush, queue_update_customer.
    reflexivity. }
  split; [|split].
  - intros i c' Hi Ht Hb.
    apply (holding_frame i (cashier c') (update_customer cid set_cond_triggered s));
      [reflexivity..|].
    apply holding_update_customer.
    change (customers (schedule (Condition cid) NORMAL 0
                         (update_customer cid set_cond_triggered s)))
      with (customers (update_customer cid set_cond_triggered s)) in Hi.
    rewrite Hnth in Hi. unfold busy in Hb. rewrite Hcnt, Hsvc in Hb.
    destruct (Nat.eq_dec cid i) as [<-|Hne].
    + injection Hi as <-. simpl in *. apply (V1 cid c Ec Ht). left. exact Econd.
    + apply (V1 i c' Hi Ht). unfold busy.
      apply Nat.eqb_neq in Hne. rewrite Hne in Hb. exact Hb.
  - intros i. rewrite Hcnt, Hsvc. specialize (V2 i).
    destruct (Nat.eqb cid i) eqn:En; [|simpl; lia].
    apply Nat.eqb_eq in En. subst i. rewrite Hnc, Hns. simpl. lia.
  - intros i c' Hi Hn. rewrite Hsvc in Hn.
    change (customers (schedule (Condition cid) NORMAL 0
                         (update_customer cid set_cond_triggered s)))
      with (customers (update_customer cid set_cond_triggered s)) in Hi.
    rewrite Hnth in Hi.
    destruct (Nat.eq_dec cid i) as [<-|Hne]; [injection Hi as <-; reflexivity|].
    eauto.
Qed.

Lemma serving_new_request (a : Q) (r : res_id) (s : state) :
  sound s -> serving s -> serving (fst (new_request a r s)).
Proof.
  intros Hs (V1 & V2 & V3). unfold new_request. cbn [fst].
  set (cid := length (customers s)) in *.
  set (new := Customer a r false false false) in *.
  set (s1 := set_customers (customers s ++ [new]) s) in *.
  assert (Hnew : forall i c, nth_error (customers s1) i = Some c ->
                   nth_error (customers s) i = Some c \/ (i = cid /\ c = new)).
  { intros i c Hi. simpl in Hi.
    destruct (Nat.lt_ge_cases i (length (customers s))) as [Hlt|Hge].
    - rewrite nth_error_app1 in Hi by exact Hlt. auto.
    - rewrite nth_error_app2 in Hi by exact Hge. right.
      destruct (i - length (customers s))%nat as [|k] eqn:E; simpl in Hi.
      + injection Hi as <-. split; [unfold cid; lia|reflexivity].
      + destruct k; discriminate. }
  assert (H1 : serving s1).
  { split; [|split].
    - intros i c Hc Ht Hb. destruct (Hnew i c Hc) as [Ho|[-> ->]]; [|discriminate].
      apply (holding_frame i (cashier c) s s1); [reflexivity..|]. eauto.
    - exact V2.
    - intros i c Hc Hn. destruct (Hnew i c Hc) as [Ho|[-> ->]]; [eauto|].
      exfalso. change (queue s1) with (queue s) in Hn.
      destruct (count_events_pos _ _ Hn) as (x & Hx & Hp).
      apply is_service_true in Hp.
      pose proof (proj1 (proj2 (proj2 Hs)) x Hx) as Hx'.
      unfold entry_sound in Hx'. rewrite Hp in Hx'.
      destruct Hx' as (c' & Hc' & _).
      assert (cid < length (customers s))%nat by (apply nth_error_Some; congruence).
      unfold cid in *. lia. }
  unfold request.
  destruct (get_resource r s1) as [[us pending]|] eqn:Er; [|exact H1].
  apply serving_trigger_put.
  - apply (sound_enqueue a r us pending s Hs). exact Er.
  - eapply serving_set_resource; [exact H1|exact Er|]. simpl. auto.
Qed.

(** The service of the request [cid] starts: its customer was resumed from
    the race and holds the slot. *)
Lemma serving_schedule_service (cid prio : nat) (d : Q) (s : state) :
  serving s ->
  (forall c, nth_error (customers s) cid = Some c ->
     cond_triggered c = true /\
     (triggered c = true -> holding cid (cashier c) s)) ->
  count_events (is_service cid) (queue s) = 0%nat ->
  count_events (is_condition cid) (queue s) = 0%nat ->
  serving (schedule (Timeout_service cid) prio d s).
Proof.
  intros (V1 & V2 & V3) Hc Hns Hnc.
  assert (Hsvc : forall i, count_events (is_service i)
                   (queue (schedule (Timeout_service cid) prio d s))
                 = ((if Nat.eqb cid i then 1 else 0)
                    + count_events (is_service i) (queue s))%nat).
  { intros i. simpl. rewrite count_events_heappush. reflexivity. }
  assert (Hcnt : forall i, count_events (is_condition i)
                   (queue (schedule (Timeout_service cid) prio d s))
                 = count_events (is_condition i) (queue s)).
  { intros i. simpl. rewrite count_events_heappush. reflexivity. }
  split; [|split].
  - intros i c Hi Ht Hb.
    apply (holding_frame i (cashier c) s); [reflexivity..|].
    change (nth_error (customers s) i = Some c) in Hi.
    unfold busy in Hb. rewrite Hcnt, Hsvc in Hb.
    destruct (Nat.eqb cid i) eqn:En.
    + apply Nat.eqb_eq in En. subst i. apply (Hc c Hi). exact Ht.
    + apply (V1 i c Hi Ht). exact Hb.
  - intros i. rewrite Hcnt, Hsvc. specialize (V2 i).
    destruct (Nat.eqb cid i) eqn:En; [|simpl; lia].
    apply Nat.eqb_eq in En. subst i. rewrite Hnc, Hns. simpl. lia.
  - intros i c Hi Hn. change (nth_error (customers s) i = Some c) in Hi.
    rewrite Hsvc in Hn. destruct (Nat.eqb cid i) eqn:En.
    + apply Nat.eqb_eq in En. subst i. apply (Hc c Hi).
    + apply (V3 i c Hi). exact Hn.
Qed.

Lemma serving_pop (s : state) (e : entry) (q : list entry) :
  serving s -> queue s = e :: q ->
  serving (set_history (e :: history s)
             (set_now (at_time e) (set_queue q (next_eid s) s))).
Proof.
  intros (V1 & V2 & V3) Hq. split; [|split]; simpl.
  - intros cid c Hc Ht Hb. 
    apply (holding_frame cid (cashier c) s); [reflexivity..|].
    apply (V1 cid c Hc Ht). unfold busy in *. rewrite Hq, !count_events_cons.
    simpl in Hb. destruct Hb as [Hb|[Hb|Hb]]; [auto|right; left; lia|right; right; lia].
  - intros cid. specialize (V2 cid). rewrite Hq, !count_events_cons in V2. lia.
  - intros cid c Hc Hn. apply (V3 cid c Hc). rewrite Hq, count_events_cons. lia.
Qed.

Section Service.

Variable P : params.

Variable draws : nat -> Q.

Hypothesis rate_positive : 0 < lambda_rate P.

Hypothesis draws_nonneg : nonneg_draws draws.

Lemma serving_resume (body : M status) (s : state) :
  serving (fst (body s)) -> serving (resume body s).
Proof.
  intros H. unfold resume. destruct (body s) as [s' [e|[|]]]; simpl in *.
  - apply serving_schedule; [discriminate..|exact H].
  - exact H.
  - apply serving_schedule; [discriminate..|exact H].
Qed.

Lemma serving_customer_process (a : Q) (s : state) :
  sound s -> serving s -> serving (fst (customer_process P a s)).
Proof.
  intros Hs H. unfold customer_process, bind.
  pose proof (calmM_choose_cashier P s) as Hcalm.
  destruct (choose_cashier P s) as [s1 [e|[r|]]]; simpl in Hcalm.
  - simpl. eapply serving_calm; eauto.
  - assert (Hs1 : sound s1) by (eapply sound_calm; eauto).
    assert (H1 : serving s1) by (eapply serving_calm; eauto).
    pose proof (serving_new_request a r s1 Hs1 H1) as H2.
    unfold new_request in *. cbv beta iota zeta in *. cbn [fst] in H2.
    unfold with_request, timeout, bind, modify, ret.
    change (Qltb 1 0) with false. cbv beta iota. cbn [fst].
    apply serving_schedule; [discriminate..|exact H2].
  - simpl. eapply serving_calm; [exact H|].
    eapply calm_trans; [exact Hcalm|]. apply calm_same; reflexivity.
Qed.

Lemma serving_customer_process_resumed (cid : nat) (s : state) :
  serving s ->
  (forall c, nth_error (customers s) cid = Some c ->
     cond_triggered c = true /\
     (triggered c = true -> holding cid (cashier c) s)) ->
  count_events (is_service cid) (queue s) = 0%nat ->
  count_events (is_condition cid) (queue s) = 0%nat ->
  serving (fst (customer_process_resumed draws cid s)).
Proof.
  intros H Hc Hns Hnc. unfold customer_process_resumed.
  destruct (nth_error (customers s) cid) as [c|] eqn:Ec; [|exact H].
  destruct (processed c) eqn:Ep.
  - unfold with_request, bind, gets, modify, exponential.
    change (Qltb 1 0) with false. cbv beta iota. unfold timeout.
    cbn [rng set_waiting_times set_rng].
    rewrite (Qltb_scaled_nonneg 1 _ ltac:(discriminate) (draws_nonneg (rng s))).
    unfold modify, ret. cbv beta iota. cbn [fst].
    apply serving_schedule_service.
    + eapply serving_calm; [exact H|]. apply calm_same; reflexivity.
    + intros c' Hc'. change (nth_error (customers s) cid = Some c') in Hc'.
      destruct (Hc c' ltac:(congruence)) as [H1 H2]. split; [exact H1|].
      intros Ht. apply (holding_frame cid (cashier c') s); [reflexivity..|]. auto.
    + exact Hns.
    + exact Hnc.
  - unfold with_request, bind, modify, ret. cbv beta iota.
    set (s1 := set_lost_customers (S (lost_customers s)) s).
    assert (H1 : serving s1).
    { eapply serving_calm; [exact H|]. apply calm_same; reflexivity. }
    assert (Hidle : forall c0, nth_error (customers s1) cid = Some c0 ->
              ~ busy cid c0 s1).
    { intros c0 Hc0 Hb. change (nth_error (customers s) cid = Some c0) in Hc0.
      destruct (Hc c0 ltac:(congruence)) as [Hcond _].
      unfold busy in Hb. change (queue s1) with (queue s) in Hb.
      rewrite Hns, Hnc in Hb. destruct Hb as [Hb|[Hb|Hb]]; [congruence|lia|lia]. }
    pose proof (serving_request_exit cid s1 H1 Hidle) as H2.
    destruct (request_exit cid s1) as [s2 [e|u]]; simpl in *; exact H2.
Qed.

Lemma serving_customer_process_served (cid : nat) (s : state) :
  serving s ->
  (forall c, nth_error (customers s) cid = Some c -> cond_triggered c = true) ->
  count_events (is_service cid) (queue s) = 0%nat ->
  count_events (is_condition cid) (queue s) = 0%nat ->
  serving (fst (customer_process_served cid s)).
Proof.
  intros H Hc Hns Hnc.
  unfold customer_process_served, with_request, bind, modify, ret.
  cbv beta iota.
  set (s1 := set_profit (profit s + 10) s).
  assert (H1 : serving s1).
  { eapply serving_calm; [exact H|]. apply calm_same; reflexivity. }
  assert (Hidle : forall c0, nth_error (customers s1) cid = Some c0 ->
            ~ busy cid c0 s1).
  { intros c0 Hc0 Hb. change (nth_error (customers s) cid = Some c0) in Hc0.
    pose proof (Hc c0 Hc0) as Hcond.
    unfold busy in Hb. change (queue s1) with (queue s) in Hb.
    rewrite Hns, Hnc in Hb. destruct Hb as [Hb|[Hb|Hb]]; [congruence|lia|lia]. }
  pose proof (serving_request_exit cid s1 H1 Hidle) as H2.
  destruct (request_exit cid s1) as [s2 [e|u]]; simpl in *; exact H2.
Qed.

Lemma serving_start (n : nat) : serving (start P n).
Proof.
  split; [|split].
  - intros [|cid] c H; discriminate.
  - intros cid.
    change (queue (start P n))
      with [Entry (0 + 0) URGENT 0 Initialize_arrival; Entry (0 + 200) URGENT 1 Until].
    unfold count_events. simpl. lia.
  - intros [|cid] c H; discriminate.
Qed.

Lemma serving_step (s s' : state) :
  sound s -> serving s -> step P draws s = Next s' -> serving s'.
Proof.
  intros Hs H Hstep. apply step_inv in Hstep.
  destruct Hstep as (e & q & Hq & -> & _).
  destruct (sound_pop s e q Hs Hq) as (Hs1 & He & _).
  pose proof (serving_pop s e q H Hq) as H1.
  destruct H as (V1 & V2 & V3).
  set (s1 := set_history (e :: history s)
               (set_now (at_time e) (set_queue q (next_eid s) s))) in *.
  unfold entry_sound in He.
  destruct (ev e) as [|a| | |cid|cid| |cid|r|cid| |x|] eqn:E; cbn [dispatch].
  - apply serving_resume.
    eapply serving_calm; [exact H1|apply calmM_customer_arrival].
  - apply serving_resume. apply serving_customer_process; assumption.
  - apply serving_resume.
    eapply serving_calm; [exact H1|apply calmM_open_extra_cashier_process].
  - apply serving_resume.
    eapply serving_calm; [exact H1|apply calmM_customer_arrival_resumed].
  - apply serving_condition_check; assumption.
  - apply serving_resume. apply serving_customer_process_served; [exact H1| | |].
    + intros c Hc. apply (V3 cid c Hc).
      rewrite Hq, count_events_cons, E. simpl. rewrite Nat.eqb_refl. lia.
    + specialize (V2 cid). rewrite Hq, !count_events_cons, E in V2.
      simpl in V2. rewrite Nat.eqb_refl in V2. simpl. lia.
    + specialize (V2 cid). rewrite Hq, !count_events_cons, E in V2.
      simpl in V2. rewrite Nat.eqb_refl in V2. simpl. lia.
  - apply serving_resume.
    eapply serving_calm; [exact H1|apply calmM_open_extra_cashier_process_resumed].
  - apply serving_condition_check.
    + apply sound_update_customer; [exact Hs1|].
      intros c Hc. destruct He as (c' & Hc' & Ht).
      assert (c' = c) by congruence. subst c'. simpl. auto.
    + apply serving_update_customer; [exact H1|]. intros c Hc. simpl. auto.
  - apply serving_trigger_put; assumption.
  - apply serving_resume. apply serving_customer_process_resumed; [exact H1| | |].
    + intros c Hc. destruct He as (c' & Hc' & Hcond & _).
      assert (c' = c) by congruence. subst c'. split; [exact Hcond|].
      intros Ht. apply (holding_frame cid (cashier c) s); [reflexivity..|].
      apply (V1 cid c Hc Ht). right. left.
      rewrite Hq, count_events_cons, E. simpl. rewrite Nat.eqb_refl. lia.
    + specialize (V2 cid). rewrite Hq, !count_events_cons, E in V2.
      simpl in V2. rewrite Nat.eqb_refl in V2. simpl. lia.
    + specialize (V2 cid). rewrite Hq, !count_events_cons, E in V2.
      simpl in V2. rewrite Nat.eqb_refl in V2. simpl. lia.
  - exact H1.
  - exact H1.
  - exact H1.
Qed.

Lemma serving_reachable (s : state) :
  (1 <= num_cashiers P)%Z -> reachable P draws s -> serving s.
Proof.
  intros Hn. induction 1 as [n|s s' Hs IH H]; [apply serving_start|].
  eapply serving_step; eauto.
  apply (sound_reachable P draws rate_positive draws_nonneg s Hn Hs).
Qed.

End Service.

(** X5.  In a configuration with a positive arrival rate and at least one
    regular cashier, with variates that are not negative, a customer being
    served is the one user of the cashier it chose: no cashier serves two
    customers at a time, and no customer is served without a cashier. *)
Theorem customer_in_service_holds_cashier (P : params) (draws : nat -> Q)
    (n k : nat) (s : state) (x : entry) (cid : nat) :
  0 < lambda_rate P -> (1 <= num_cashiers P)%Z -> nonneg_draws draws ->
  steps P draws k (start P n) = Some s ->
  In x (queue s) -> ev x = Timeout_service cid ->
  exists c res,
    nth_error (customers s) cid = Some c /\
    get_resource (cashier c) s = Some res /\ users res = [cid].
Proof.
  intros Hl Hn Hd Hk Hx Hev.
  assert (Hr : reachable P draws s).
  { eapply steps_reachable; [|exact Hk]. apply reachable_start. }
  pose proof (sound_reachable P draws Hl Hd s Hn Hr) as (_ & _ & S4 & _).
  pose proof (serving_reachable P draws Hl Hd s Hn Hr) as (V1 & _ & _).
  specialize (S4 x Hx). unfold entry_sound in S4. rewrite Hev in S4.
  destruct S4 as (c & Hc & Ht).
  destruct (V1 cid c Hc Ht) as (res & Hres & Hin).
  { right. right. apply (count_events_In _ x); [exact Hx|].
    rewrite Hev. simpl. apply Nat.eqb_refl. }
  exists c, res. split; [exact Hc|]. split; [exact Hres|].
  pose proof (one_at_a_time_reachable P draws s Hr (cashier c) res Hres) as Hlen.
  destruct (users res) as [|u [|v t]]; simpl in *; [destruct Hin| |lia].
  destruct Hin as [->|[]]. reflexivity.
Qed.

(** ** A threshold above the bound of the queues *)

Local Open Scope Q_scope.

(** The shortest queue is a queue of the pool. *)
Lemma shortest_queue_bounded (s : state) (m i : nat) (t : list (nat * nat)) :
  bounded s -> sorted_queues s = (m, i) :: t -> (m <= 5)%nat.
Proof.
  intros Hb E. destruct (sorted_queues_head s m i t E) as [(c & Hc & Hl) _].
  pose proof (Forall_nth_error_elim _ _ _ _ Hb Hc) as Hs.
  unfold short_queue in Hs. lia.
Qed.

Ltac no_trigger Hlow Hb :=
  match goal with
  | H : sorted_queues ?s = (?m, ?i) :: ?t,
    E : (_ <=? Z.of_nat ?m)%Z = true |- _ =>
      rewrite (Hlow m (shortest_queue_bounded s m i t Hb H)) in E; discriminate
  | |- forall x, In x _ -> _ =>
      let x := fresh "x" in
      let Hx := fresh "Hx" in
      intros x Hx; simpl in Hx;
      repeat (apply In_heappush in Hx; destruct Hx as [->|Hx]);
      first [ right; split; discriminate | left; assumption ]
  end.

Section HighPolicy.

Variable P : params.

Variable draws : nat -> Q.

Hypothesis policy_high : (5 < extra_cashier_policy P)%Z.

(** With a threshold above the bound of the queues no customer starts the
    overflow process. *)
Lemma dispatch_no_trigger (e : event) (s : state) :
  bounded s -> e <> Initialize_overflow ->
  forall x, In x (queue (dispatch P draws e s)) ->
    In x (queue s) \/ (ev x <> Initialize_overflow /\ ev x <> Timeout_overflow).
Proof.
  intros Hb He.
  assert (Hlow : forall m, (m <= 5)%nat ->
            (extra_cashier_policy P <=? Z.of_nat m)%Z = false).
  { intros m Hm. apply Z.leb_gt. lia. }
  destruct e; try contradiction; crunch; no_trigger Hlow Hb.
Qed.

Lemma dormant_start (n : nat) : dormant (start P n).
Proof.
  split; [reflexivity|]. split; [|reflexivity].
  change (queue (start P n))
    with [Entry (0 + 0) URGENT 0 Initialize_arrival; Entry (0 + 200) URGENT 1 Until].
  intros x [<-|[<-|[]]]; split; discriminate.
Qed.

Lemma dormant_step (s s' : state) :
  bounded s -> dormant s -> step P draws s = Next s' -> dormant s'.
Proof.
  intros Hb (Hopen & Hq & Hact) Hstep.
  pose proof (step_history P draws s s' Hstep) as (e0 & q0 & Hq0 & Hh & _).
  apply step_inv in Hstep. destruct Hstep as (e & q & Hqe & -> & _).
  assert (e0 = e) by congruence. subst e0. clear Hq0 q0.
  destruct (Hq e) as [He1 He2]; [rewrite Hqe; left; reflexivity|].
  set (s1 := set_history (e :: history s)
               (set_now (at_time e) (set_queue q (next_eid s) s))) in *.
  split; [|split].
  - rewrite dispatch_open. destruct (ev e); try exact Hopen; contradiction.
  - intros x Hx.
    destruct (dispatch_no_trigger (ev e) s1 Hb He1 x Hx) as [Hin|Hne]; [|exact Hne].
    apply Hq. rewrite Hqe. right. exact Hin.
  - unfold activation_count in *. rewrite Hh. simpl.
    unfold is_overflow_timeout at 1.
    destruct (ev e); try exact Hact. contradiction.
Qed.

Lemma dormant_reachable (s : state) : reachable P draws s -> dormant s.
Proof.
  induction 1 as [n|s s' Hs IH H]; [apply dormant_start|].
  eapply dormant_step; eauto. apply (bounded_reachable P draws). exact Hs.
Qed.

End HighPolicy.

(** X18.  With [extra_cashier_policy] above 5, the bound of the regular
    queues, the extra cashier is never opened: at every event of a
    replication the flag is false and no customer is sent to the extra
    cashier, nothing is ever charged, and the final profit is 10 times the
    number of services completed. *)
Theorem policy_above_bound_never_opens (P : params) (draws : nat -> Q) (n : nat) :
  (5 < extra_cashier_policy P)%Z ->
  (forall k s, steps P draws k (start P n) = Some s ->
     open_extra_cashier s = false /\ activation_count s = 0%nat /\
     forall o, snd (choose_cashier P s) = inr (Some o) -> o <> Extra) /\
  (forall fuel s, replication P draws fuel n = Finished s ->
     open_extra_cashier s = false /\ activation_count s = 0%nat /\
     profit s == 10 * Qnat (served_count s)).
Proof.
  intros Hp. split.
  - intros k s Hk.
    assert (Hs : reachable P draws s).
    { eapply steps_reachable; [|exact Hk]. apply reachable_start. }
    destruct (dormant_reachable P draws Hp s Hs) as (Hopen & _ & Hact).
    split; [exact Hopen|]. split; [exact Hact|].
    intros o Ho. pose proof (choose_cashier_cases P s) as Hc.
    destruct (sorted_queues s) as [|[m i] t].
    + rewrite Hc in Ho. discriminate.
    + rewrite Hopen in Hc. rewrite Hc in Ho. simpl in Ho.
      destruct (Nat.ltb m 5); [|discriminate].
      injection Ho as <-. discriminate.
  - intros fuel s H. unfold replication in H.
    apply run_finished in H; [|apply reachable_start].
    destruct H as (s0 & Hs0 & Hstop).
    destruct (dormant_reachable P draws Hp s0 Hs0) as (Hopen & _ & Hact).
    pose proof (accounted_stop P draws s0 s (accounted_reachable P draws s0 Hs0) Hstop)
      as Hacc.
    apply step_inv in Hstop. destruct Hstop as (e & q & Hq & He & ->).
    assert (Hact' : activation_count
              (set_history (e :: history s0)
                 (set_now (at_time e) (set_queue q (next_eid s0) s0))) = 0%nat).
    { unfold activation_count in *. simpl. unfold is_overflow_timeout at 1.
      rewrite He. exact Hact. }
    split; [exact Hopen|]. split; [exact Hact'|].
    unfold accounted in Hacc. rewrite Hacc, Hact'. unfold Qnat at 2. simpl.
    ring.
Qed.

(** ** The statistics of [simulate] *)

Local Open Scope R_scope.

Lemma population_std_nonneg (l : list R) : 0 <= population_std l.
Proof. apply sqrt_pos. Qed.

Lemma half_width_nonneg (xs : list R) :
  0 <= 196 / 100 * population_std xs / sqrt (INR (length xs)).
Proof.
  pose proof (population_std_nonneg xs) as H1.
  pose proof (sqrt_pos (INR (length xs))) as H2.
  destruct (Req_dec_T (sqrt (INR (length xs))) 0) as [->|Hne].
  - unfold Rdiv. rewrite Rinv_0. lra.
  - apply Rmult_le_pos; [lra|]. left. apply Rinv_0_lt_compat. lra.
Qed.

Lemma sum_sq_dev_singleton (x : R) : sum_sq_dev [x] = 0.
Proof. unfold sum_sq_dev, Rmean. simpl. field. Qed.

Lemma population_std_singleton (x : R) : population_std [x] = 0.
Proof.
  unfold population_std. rewrite sum_sq_dev_singleton. simpl.
  unfold Rdiv. rewrite Rmult_0_l. apply sqrt_0.
Qed.

Lemma Rmean_singleton (x : R) : Rmean [x] = x.
Proof. unfold Rmean. simpl. field. Qed.

Lemma waiting_times_dec (runs : list state) :
  (forall s, In s runs -> waiting_times s <> []) \/
  (exists s, In s runs /\ waiting_times s = []).
Proof.
  induction runs as [|a l [IH|(s & Hin & Hs)]].
  - left. intros s [].
  - destruct (waiting_times a) eqn:E.
    + right. exists a. split; [left; reflexivity|exact E].
    + left. intros s [<-|Hin]; [rewrite E; discriminate|auto].
  - right. exists s. split; [right; exact Hin|exact Hs].
Qed.

Lemma avg_waiting_times_Val (runs : list state) :
  (forall s, In s runs -> waiting_times s <> []) ->
  map (fun s => np_mean (map of_Q (waiting_times s))) runs
  = map Val (map mean_wait runs).
Proof.
  intros H. rewrite map_map. apply map_ext_in. intros s Hs.
  unfold mean_wait. rewrite <- np_mean_Val.
  - rewrite map_map. reflexivity.
  - specialize (H s Hs). destruct (waiting_times s); [contradiction|discriminate].
Qed.

(** The profit statistics of a list of final states, one per run. *)
Lemma summarize_profit (num_runs : nat) (runs : list state) :
  length runs = num_runs -> (0 < num_runs)%nat ->
  exists h,
    fst (summarize num_runs runs)
    = (Val (Rmean (map final_profit runs)), Val h) /\ 0 <= h.
Proof.
  intros Hlen Hn.
  assert (Hne : map final_profit runs <> []).
  { destruct runs; [simpl in Hlen; lia|discriminate]. }
  exists (196 / 100 * population_std (map final_profit runs)
          / sqrt (INR (length (map final_profit runs)))).
  split; [|apply half_width_nonneg].
  unfold summarize, aggregate. cbn [fst].
  replace (map (fun s => of_Q (profit s)) runs)
    with (map Val (map final_profit runs)) by (rewrite map_map; reflexivity).
  rewrite (np_mean_Val _ Hne).
  replace num_runs with (length (map final_profit runs))
    by (rewrite length_map; exact Hlen).
  rewrite (half_width_Val _ Hne). rewrite !length_map. reflexivity.
Qed.

Section Reports.

Variable P : params.

Variable draws : nat -> Q.

Variable fuel : nat.

Lemma replications_length (num_runs : nat) :
  forall n runs, replications P draws fuel num_runs n = Returns runs ->
    length runs = num_runs.
Proof.
  induction num_runs as [|k IH]; simpl; intros n runs H.
  - injection H as <-. reflexivity.
  - destruct (replication P draws fuel n) as [s| |]; try discriminate.
    destruct (replications P draws fuel k (rng s)) as [l| |] eqn:E; try discriminate.
    injection H as <-. simpl. f_equal. eapply IH. exact E.
Qed.

Lemma replications_finished (num_runs : nat) :
  forall n runs, replications P draws fuel num_runs n = Returns runs ->
    forall s, In s runs -> exists m, replication P draws fuel m = Finished s.
Proof.
  induction num_runs as [|k IH]; simpl; intros n runs H s Hs.
  - injection H as <-. destruct Hs.
  - destruct (replication P draws fuel n) as [s0| |] eqn:E0; try discriminate.
    destruct (replications P draws fuel k (rng s0)) as [l| |] eqn:E; try discriminate.
    injection H as <-. destruct Hs as [<-|Hs]; [exists n; exact E0|].
    eapply IH; eauto.
Qed.

(** X10.  [simulate] with [num_runs = 0] runs nothing and returns four
    not-a-number statistics, whatever the configuration, even one that
    makes every replication fail. *)
Theorem simulate_without_runs :
  simulate P draws fuel 0 = Returns ((NaN, NaN), (NaN, NaN)).
Proof.
  unfold simulate, summarize, aggregate, half_width, np_std. simpl.
  rewrite np_mean_nil. reflexivity.
Qed.

(** X11.  When the loop of [simulate] has run its [num_runs >= 1]
    replications, and the cost and the final profits are in the range of
    doubles, [simulate] returns, from exactly [num_runs] final states, and
    the profit statistics are numbers: the mean of the replications' final
    profits, and a half-width that is not negative.  (Outside that range
    the mean can be an infinity and the half-width not a number, or
    [np.mean] can fail.) *)
Theorem profit_statistics_defined (num_runs : nat) (runs : list state) :
  (0 < num_runs)%nat ->
  replications P draws fuel num_runs 0 = Returns runs ->
  in_double_range (C P) ->
  (forall s, In s runs -> in_double_range (profit s)) ->
  length runs = num_runs /\
  exists st h,
    simulate P draws fuel num_runs = Returns st /\
    fst st = (Val (Rmean (map final_profit runs)), Val h) /\ 0 <= h.
Proof.
  intros Hn E _ _.
  pose proof (replications_length _ _ _ E) as Hlen.
  split; [exact Hlen|].
  destruct (summarize_profit num_runs runs Hlen Hn) as (h & Hh & Hpos).
  exists (summarize num_runs runs), h.
  unfold simulate. rewrite E. auto.
Qed.

(** X12.  When [simulate] returns from at least one run, the wait statistics
    are numbers exactly when every replication recorded a waiting time;
    the mean is then the mean of the replications' mean waits, each
    replication counting once whatever the number of customers it served. *)
Theorem wait_statistics_defined (num_runs : nat) (st : statistics) :
  (0 < num_runs)%nat ->
  simulate P draws fuel num_runs = Returns st ->
  exists runs,
    replications P draws fuel num_runs 0 = Returns runs /\
    ((forall s, In s runs -> waiting_times s <> []) <->
     (exists h, snd st = (Val (Rmean (map mean_wait runs)), Val h) /\ 0 <= h)) /\
    ((exists s, In s runs /\ waiting_times s = []) <-> snd st = (NaN, NaN)).
Proof.
  intros Hn H. unfold simulate in H.
  destruct (replications P draws fuel num_runs 0) as [runs| |] eqn:E; try discriminate.
  injection H as <-.
  pose proof (replications_length _ _ _ E) as Hlen.
  exists runs. split; [reflexivity|].
  assert (Hall : (forall s, In s runs -> waiting_times s <> []) ->
            exists h, snd (summarize num_runs runs)
                      = (Val (Rmean (map mean_wait runs)), Val h) /\ 0 <= h).
  { intros Hw.
    assert (Hne : map mean_wait runs <> []).
    { destruct runs; [simpl in Hlen; lia|discriminate]. }
    exists (196 / 100 * population_std (map mean_wait runs)
            / sqrt (INR (length (map mean_wait runs)))).
    split; [|apply half_width_nonneg].
    unfold summarize, aggregate. cbn [snd].
    rewrite (avg_waiting_times_Val runs Hw).
    rewrite (np_mean_Val _ Hne).
    replace num_runs with (length (map mean_wait runs))
      by (rewrite length_map; exact Hlen).
    rewrite (half_width_Val _ Hne). rewrite !length_map. reflexivity. }
  assert (Hsome : (exists s, In s runs /\ waiting_times s = []) ->
            snd (summarize num_runs runs) = (NaN, NaN)).
  { intros Hw. apply avg_waiting_times_NaN in Hw.
    unfold summarize, aggregate. cbn [snd].
    rewrite (np_mean_NaN _ Hw), (half_width_NaN _ _ Hw). reflexivity. }
  split; split.
  - exact Hall.
  - intros (h & Hh & _). destruct (waiting_times_dec runs) as [Hw|Hw]; [exact Hw|].
    rewrite (Hsome Hw) in Hh. discriminate.
  - exact Hsome.
  - intros Hnan. destruct (waiting_times_dec runs) as [Hw|Hw]; [|exact Hw].
    destruct (Hall Hw) as (h & Hh & _). rewrite Hh in Hnan. discriminate.
Qed.

(** X13.  With a single run whose cost and final profit are in the range
    of doubles, both half-widths carry no information: the profit's is 0
    and the wait's is 0, or not a number when nobody was served, and the
    means are the run's own values. *)
Theorem single_run_statistics (s : state) :
  replication P draws fuel 0 = Finished s ->
  in_double_range (C P) -> in_double_range (profit s) ->
  simulate P draws fuel 1
  = Returns ((Val (final_profit s), Val 0),
             if match waiting_times s with [] => true | _ => false end
             then (NaN, NaN) else (Val (mean_wait s), Val 0)).
Proof.
  intros E _ _. unfold simulate. cbn [replications]. rewrite E. f_equal.
  assert (H1 : forall x, half_width 1 [Val x] = Val 0).
  { intros x. change (half_width 1 [Val x])
      with (half_width (length [x]) (map Val [x])).
    rewrite (half_width_Val [x]) by discriminate.
    rewrite population_std_singleton. f_equal. simpl.
    rewrite sqrt_1. field. }
  assert (H2 : forall x, np_mean [Val x] = Val x).
  { intros x. change [Val x] with (map Val [x]).
    rewrite (np_mean_Val [x]) by discriminate.
    rewrite Rmean_singleton. reflexivity. }
  rewrite (surjective_pairing (summarize 1 [s])). f_equal.
  - unfold summarize, aggregate. cbn [fst map].
    unfold of_Q. rewrite H1, H2. reflexivity.
  - unfold summarize, aggregate. cbn [snd map].
    destruct (waiting_times s) as [|w ws] eqn:Ew.
    + cbn [map]. rewrite np_mean_nil.
      rewrite np_mean_NaN, half_width_NaN by (left; reflexivity). reflexivity.
    + replace (map of_Q (w :: ws)) with (map Val (map Q2R (w :: ws)))
        by (rewrite map_map; reflexivity).
      rewrite np_mean_Val by discriminate.
      rewrite H1, H2. unfold mean_wait. rewrite Ew. reflexivity.
Qed.

Lemma accounted_finished (n : nat) (s : state) :
  replication P draws fuel n = Finished s -> accounted P s.
Proof.
  intros H. unfold replication in H.
  apply run_finished in H; [|apply reachable_start].
  destruct H as (s0 & Hs0 & Hstop).
  apply accounted_reachable in Hs0.
  exact (accounted_stop P draws s0 s Hs0 Hstop).
Qed.

Lemma final_profit_accounted (s : state) :
  accounted P s ->
  final_profit s
  = 10 * INR (served_count s) - 2 * Q2R (C P) * INR (activation_count s).
Proof.
  unfold accounted, final_profit. intros H. apply Qeq_eqR in H. rewrite H.
  rewrite Q2R_minus, !Q2R_mult. unfold Qnat.
  rewrite !INR_IZR_INZ. unfold Q2R at 1 2 3 5. simpl. field.
Qed.

(** X14.  The mean profit [simulate] reports is 10 times the mean number of
    services completed per replication minus [2 * C] times the mean number
    of overflow windows closed per replication. *)
Theorem mean_profit_decomposition (num_runs : nat) (st : statistics) :
  (0 < num_runs)%nat ->
  simulate P draws fuel num_runs = Returns st ->
  exists runs,
    replications P draws fuel num_runs 0 = Returns runs /\
    fst (fst st)
    = Val (10 * Rmean (map (fun s => INR (served_count s)) runs)
           - 2 * Q2R (C P) * Rmean (map (fun s => INR (activation_count s)) runs)).
Proof.
  intros Hn H. unfold simulate in H.
  destruct (replications P draws fuel num_runs 0) as [runs| |] eqn:E; try discriminate.
  injection H as <-. exists runs. split; [reflexivity|].
  pose proof (replications_length _ _ _ E) as Hlen.
  assert (Hne : map final_profit runs <> []).
  { destruct runs; [simpl in Hlen; lia|discriminate]. }
  unfold summarize, aggregate. cbn [fst].
  replace (map (fun s => of_Q (profit s)) runs)
    with (map Val (map final_profit runs)) by (rewrite map_map; reflexivity).
  rewrite (np_mean_Val _ Hne). f_equal.
  assert (Hacc : forall s, In s runs -> accounted P s).
  { intros s Hs. destruct (replications_finished _ _ _ E s Hs) as [m Hm].
    exact (accounted_finished m s Hm). }
  unfold Rmean. rewrite !length_map.
  assert (Hsum : Rsum (map final_profit runs)
                 = 10 * Rsum (map (fun s => INR (served_count s)) runs)
                   - 2 * Q2R (C P)
                     * Rsum (map (fun s => INR (activation_count s)) runs)).
  { clear E Hlen Hne. induction runs as [|a l IH]; simpl; [ring|].
    rewrite IH by (intros; apply Hacc; right; assumption).
    rewrite (final_profit_accounted a) by (apply Hacc; left; reflexivity).
    ring. }
  rewrite Hsum. unfold Rdiv. ring.
Qed.

End Reports.

(** ** The reported mean wait *)

Local Open Scope R_scope.

Lemma Rsum_bounds (l : list R) :
  (forall x, In x l -> 0 <= x <= 1) -> 0 <= Rsum l <= INR (length l).
Proof.
  induction l as [|a l IH]; intros H.
  - simpl. lra.
  - assert (Ha : 0 <= a <= 1) by (apply H; left; reflexivity).
    assert (Hl : 0 <= Rsum l <= INR (length l)) by (apply IH; intros; apply H; right; assumption).
    change (Rsum (a :: l)) with (a + Rsum l).
    change (length (a :: l)) with (S (length l)). rewrite S_INR. lra.
Qed.

(** The mean of values between 0 and 1 is between 0 and 1. *)
Lemma Rmean_bounds (l : list R) :
  l <> [] -> (forall x, In x l -> 0 <= x <= 1) -> 0 <= Rmean l <= 1.
Proof.
  intros Hne H. pose proof (Rsum_bounds l H) as [H0 H1].
  pose proof (INR_length_pos l Hne) as Hpos.
  unfold Rmean. split.
  - apply Rmult_le_pos; [exact H0|]. left. apply Rinv_0_lt_compat. exact Hpos.
  - apply (Rmult_le_reg_r (INR (length l))); [exact Hpos|].
    unfold Rdiv. rewrite Rmult_assoc, Rinv_l by lra. lra.
Qed.

Section ReportedWait.

Variable P : params.

Variable draws : nat -> Q.

Variable fuel : nat.

(** X15.  The mean waiting time [simulate] reports, when it is a number, is
    between 0 and the patience of one time unit. *)
Theorem reported_wait_within_patience (num_runs : nat) (st : statistics) (m : R) :
  simulate P draws fuel num_runs = Returns st ->
  fst (snd st) = Val m ->
  0 <= m <= 1.
Proof.
  intros H Hm. unfold simulate in H.
  destruct (replications P draws fuel num_runs 0) as [runs| |] eqn:E; try discriminate.
  injection H as <-. unfold summarize, aggregate in Hm. cbn [fst snd] in Hm.
  destruct (waiting_times_dec runs) as [Hw|Hw].
  2:{ apply avg_waiting_times_NaN in Hw. rewrite (np_mean_NaN _ Hw) in Hm.
      discriminate. }
  rewrite (avg_waiting_times_Val runs Hw) in Hm.
  destruct runs as [|r0 runs'] eqn:Er.
  { simpl in Hm. rewrite np_mean_nil in Hm. discriminate. }
  rewrite <- Er in *.
  assert (Hne : map mean_wait runs <> []) by (rewrite Er; discriminate).
  rewrite (np_mean_Val _ Hne) in Hm. injection Hm as <-.
  apply Rmean_bounds; [exact Hne|].
  intros x Hx. apply in_map_iff in Hx. destruct Hx as (s & <- & Hs).
  unfold mean_wait. apply Rmean_bounds.
  - specialize (Hw s Hs). destruct (waiting_times s); [contradiction|discriminate].
  - intros y Hy. apply in_map_iff in Hy. destruct Hy as (w & <- & Hin).
    destruct (replications_finished P draws fuel _ _ _ E s Hs) as (k & Hk).
    destruct (waits_finished P draws fuel k s w Hk Hin) as [H0 H1].
    apply Qle_Rle in H0, H1. rewrite RMicromega.Q2R_0 in H0.
    rewrite RMicromega.Q2R_1 in H1. lra.
Qed.

End ReportedWait.

(** ** The sweep of the script *)

Local Open Scope Q_scope.

Lemma map_fst_combine {A B : Type} (l : list A) :
  forall l' : list B, length l' = length l -> map fst (combine l l') = l.
Proof.
  induction l as [|a l IH]; intros [|b l'] H; try discriminate; [reflexivity|].
  simpl. f_equal. apply IH. simpl in H. congruence.
Qed.

Lemma nth_error_combine {A B : Type} (l : list A) :
  forall (l' : list B) i a b,
    nth_error (combine l l') i = Some (a, b) ->
    nth_error l i = Some a /\ nth_error l' i = Some b.
Proof.
  induction l as [|x l IH]; intros [|y l'] [|i] a b H; try discriminate.
  - injection H as <- <-. auto.
  - simpl in *. auto.
Qed.

Lemma key_eqb_refl (k : key) : key_eqb k k = true.
Proof.
  unfold key_eqb. rewrite Z.eqb_refl. simpl. apply Qeq_bool_iff. reflexivity.
Qed.

Lemma key_eqb_sym (a b : key) : key_eqb a b = key_eqb b a.
Proof.
  unfold key_eqb. rewrite (Z.eqb_sym (fst a)). f_equal.
  destruct (Qeq_bool (snd a) (snd b)) eqn:E1, (Qeq_bool (snd b) (snd a)) eqn:E2;
    try reflexivity.
  - apply Qeq_bool_iff in E1. symmetry in E1. apply Qeq_bool_iff in E1. congruence.
  - apply Qeq_bool_iff in E2. symmetry in E2. apply Qeq_bool_iff in E2. congruence.
Qed.

(** A new key is appended. *)
Lemma dict_set_fresh (k : key) (v : statistics) (d : table) :
  absent k d -> dict_set k v d = d ++ [(k, v)].
Proof.
  induction d as [|[k' v'] t IH]; intros H; [reflexivity|]. simpl.
  pose proof (H (k', v') (or_introl eq_refl)) as E. simpl in E. rewrite E.
  rewrite IH; [reflexivity|].
  intros kv Hin. apply H. right. exact Hin.
Qed.

(** Reading a key that was written gives the value written. *)
Lemma dict_get_set (k : key) (v : statistics) (d : table) :
  dict_get k (dict_set k v d) = Some v.
Proof.
  induction d as [|[k' v'] t IH]; simpl.
  - rewrite key_eqb_refl. reflexivity.
  - destruct (key_eqb k k') eqn:E; simpl; rewrite E; [reflexivity|exact IH].
Qed.

Lemma dict_get_app_fresh (k : key) (d d' : table) :
  absent k d -> dict_get k (d ++ d') = dict_get k d'.
Proof.
  induction d as [|[k' v'] t IH]; intros H; [reflexivity|]. simpl.
  pose proof (H (k', v') (or_introl eq_refl)) as E. simpl in E. rewrite E.
  apply IH. intros kv Hin. apply H. right. exact Hin.
Qed.

Lemma distinct_fresh (k : key) (keys : list key) (vals : list statistics) :
  forallb (fun k' => negb (key_eqb k k')) keys = true ->
  absent k (combine keys vals).
Proof.
  intros H [k' v] Hin. apply in_combine_l in Hin.
  rewrite forallb_forall in H. specialize (H k' Hin).
  simpl. destruct (key_eqb k k'); [discriminate|reflexivity].
Qed.

(** In a table of different keys every key reads its own value. *)
Lemma dict_get_combine (keys : list key) :
  forall vals i k, distinct keys = true -> length vals = length keys ->
    nth_error keys i = Some k ->
    dict_get k (combine keys vals) = nth_error vals i.
Proof.
  induction keys as [|k0 t IH]; intros vals i k Hd Hlen Hi.
  - destruct i; discriminate.
  - destruct vals as [|v vals]; [discriminate|]. simpl in Hd.
    apply andb_true_iff in Hd. destruct Hd as [Hf Hd]. simpl.
    destruct i as [|i]; simpl in Hi |- *.
    + injection Hi as <-. rewrite key_eqb_refl. reflexivity.
    + rewrite forallb_forall in Hf.
      pose proof (Hf k (nth_error_In _ _ Hi)) as Hk.
      rewrite key_eqb_sym. destruct (key_eqb k0 k); [discriminate|].
      apply IH; auto.
Qed.

Section ScriptProofs.

Variable draws : nat -> Q.

Variable fuel : nat.

Lemma sweep_rates_keys (C : Q) (policy : Z) (rates : list Q) :
  forall n d, sweep_rates draws fuel C policy rates n d
              = sweep_keys draws fuel C (map (pair policy) rates) n d.
Proof.
  induction rates as [|lr rest IH]; intros n d; [reflexivity|].
  cbn [sweep_rates sweep_keys map fst snd].
  destruct (simulate_from draws fuel (script_params policy lr C) 30 n)
    as [[st n']| |]; auto.
Qed.

Lemma sweep_keys_app (C : Q) (a b : list key) :
  forall n d, sweep_keys draws fuel C (a ++ b) n d
              = match sweep_keys draws fuel C a n d with
                | Returns (d', n') => sweep_keys draws fuel C b n' d'
                | Raises e => Raises e
                | Unfinished => Unfinished
                end.
Proof.
  induction a as [|k rest IH]; intros n d; [reflexivity|].
  cbn [sweep_keys app].
  destruct (simulate_from draws fuel (script_params (fst k) (snd k) C) 30 n)
    as [[st n']| |]; auto.
Qed.

Lemma sweep_policies_keys (C : Q) (ps : list Z) :
  forall n d, sweep_policies draws fuel C ps n d
              = sweep_keys draws fuel C (list_prod ps lambda_rates) n d.
Proof.
  induction ps as [|p rest IH]; intros n d; [reflexivity|].
  cbn [sweep_policies list_prod]. rewrite sweep_keys_app, sweep_rates_keys.
  change (map (fun y : Q => (p, y)) lambda_rates) with (map (pair p) lambda_rates).
  destruct (sweep_keys draws fuel C (map (pair p) lambda_rates) n d)
    as [[d' n']| |]; auto.
Qed.

(** The table after the loops: one item per key, in loop order, each the
    statistics of a call of [simulate] with the key's parameters. *)
Lemma sweep_keys_spec (C : Q) (keys : list key) :
  forall n d T n',
    distinct keys = true -> (forall k, In k keys -> absent k d) ->
    sweep_keys draws fuel C keys n d = Returns (T, n') ->
    exists vals,
      T = d ++ combine keys vals /\ length vals = length keys /\
      forall i k st, nth_error keys i = Some k -> nth_error vals i = Some st ->
        exists m m',
          simulate_from draws fuel (script_params (fst k) (snd k) C) 30 m
          = Returns (st, m').
Proof.
  induction keys as [|k rest IH]; intros n d T n' Hd Hf H.
  - injection H as <- <-. exists []. rewrite app_nil_r. repeat split.
    intros [|i] k st Hk; discriminate.
  - cbn [sweep_keys distinct] in H, Hd. apply andb_true_iff in Hd. destruct Hd as [Hk Hd].
    destruct (simulate_from draws fuel (script_params (fst k) (snd k) C) 30 n)
      as [[st n1]| |] eqn:E; try discriminate.
    rewrite dict_set_fresh in H by (apply Hf; left; reflexivity).
    destruct (IH n1 (d ++ [(k, st)]) T n' Hd) as (vals & HT & Hlen & Hv);
      [|exact H|].
    { intros k2 Hk2 kv Hin. apply in_app_or in Hin. destruct Hin as [Hin|[<-|[]]].
      - apply (Hf k2 (or_intror Hk2)). exact Hin.
      - simpl. rewrite key_eqb_sym. rewrite forallb_forall in Hk.
        specialize (Hk k2 Hk2). destruct (key_eqb k k2); [discriminate|reflexivity]. }
    exists (st :: vals). split; [|split].
    + rewrite HT, <- app_assoc. reflexivity.
    + simpl. congruence.
    + intros [|i] k2 st2 Hk2 Hst2; cbn [nth_error] in Hk2, Hst2.
      * injection Hk2 as <-. injection Hst2 as <-. exists n, n1. exact E.
      * exact (Hv i k2 st2 Hk2 Hst2).
Qed.

Lemma simulate_from_profit (P : params) (n n' : nat) (st : statistics) :
  simulate_from draws fuel P 30 n = Returns (st, n') ->
  is_number (fst (fst st)) /\ is_error_bar (snd (fst st)).
Proof.
  unfold simulate_from. intros H.
  destruct (replications P draws fuel 30 n) as [runs| |] eqn:E; try discriminate.
  injection H as <- _.
  pose proof (replications_length P draws fuel _ _ _ E) as Hlen.
  destruct (summarize_profit 30 runs Hlen ltac:(lia)) as (h & Hh & Hpos).
  rewrite Hh. cbn [fst snd]. split; [eexists; reflexivity|exists h; auto].
Qed.

Lemma lookups_spec (policy : Z) (T : table) (get : key -> option statistics) :
  (forall k, dict_get k T = get k) ->
  forall rates,
    (forall lr, In lr rates -> exists st, get (policy, lr) = Some st) ->
    exists l, lookups policy rates T = Some l /\ length l = length rates /\
      forall st, In st l -> exists lr, In lr rates /\ get (policy, lr) = Some st.
Proof.
  intros Hget. induction rates as [|lr rest IH]; intros H.
  - exists []. repeat split. intros st [].
  - destruct (H lr (or_introl eq_refl)) as (st & Hst).
    destruct IH as (l & Hl & Hlen & Hin); [intros; apply H; right; assumption|].
    exists (st :: l). cbn [lookups length]. rewrite Hget, Hst, Hl. split; [reflexivity|].
    split; [congruence|]. intros st' [Heq|Hst'].
    + subst st'. exists lr. split; [left; reflexivity|exact Hst].
    + destruct (Hin st' Hst') as (lr' & Hlr' & Hg).
      exists lr'. split; [right; exact Hlr'|exact Hg].
Qed.

End ScriptProofs.

Lemma script_keys_distinct : distinct (list_prod policies lambda_rates) = true.
Proof. vm_compute. reflexivity. Qed.






(** X17.  When the sweep for a cost [C] returns, [results] holds one item
    for each of the 36 pairs of a policy and a rate, in loop order, each
    item the statistics [simulate] returned for these parameters; so no
    lookup of the plot misses its key, and for every policy the 9 profits
    handed to [plt.errorbar] are numbers and the 9 error bars are numbers
    that are not negative. *)
Theorem sweep_table_complete (draws : nat -> Q) (fuel : nat) (C : Q)
    (n n' : nat) (T : table) :
  sweep draws fuel C n = Returns (T, n') ->
  map fst T = list_prod policies lambda_rates /\
  (forall k st, In (k, st) T ->
     exists m m',
       simulate_from draws fuel (script_params (fst k) (snd k) C) 30 m
       = Returns (st, m')) /\
  (forall policy, In policy policies ->
     exists profits errors,
       curve policy T = Some (profits, errors) /\
       length profits = 9%nat /\ length errors = 9%nat /\
       Forall is_number profits /\ Forall is_error_bar errors).
Proof.
  intros H. unfold sweep in H. rewrite sweep_policies_keys in H.
  pose proof script_keys_distinct as Hdist.
  assert (Hmem : forall policy lr, In policy policies -> In lr lambda_rates ->
            In (policy, lr) (list_prod policies lambda_rates))
    by (intros; apply in_prod; assumption).
  remember (list_prod policies lambda_rates) as keys eqn:Hkeys.
  destruct (sweep_keys_spec draws fuel C keys n [] T n' Hdist)
    as (vals & HT & Hlen & Hv); [intros k _ kv []|exact H|].
  change ([] ++ combine keys vals) with (combine keys vals) in HT. subst T.
  assert (Hitem : forall k st, In (k, st) (combine keys vals) ->
            exists m m',
              simulate_from draws fuel (script_params (fst k) (snd k) C) 30 m
              = Returns (st, m')).
  { intros k st Hin. apply In_nth_error in Hin. destruct Hin as [i Hi].
    apply nth_error_combine in Hi. destruct Hi as [Hk Hs].
    exact (Hv i k st Hk Hs). }
  split; [|split].
  - apply map_fst_combine. exact Hlen.
  - exact Hitem.
  - intros policy Hp.
    destruct (lookups_spec policy (combine keys vals)
                (fun k => dict_get k (combine keys vals)) ltac:(reflexivity)
                lambda_rates) as (l & Hl & Hll & Hin).
    { intros lr Hlr.
      assert (Hk : In (policy, lr) keys) by (apply Hmem; assumption).
      apply In_nth_error in Hk. destruct Hk as [i Hi]. cbv beta.
      pose proof (dict_get_combine keys vals i _ Hdist Hlen Hi) as Hget.
      destruct (nth_error vals i) as [st|] eqn:E; [exists st; exact Hget|].
      apply nth_error_None in E.
      assert (Hlt : (i < length keys)%nat) by (apply nth_error_Some; congruence).
      unfold key in *. rewrite Hlen in E. lia. }
    unfold curve. rewrite Hl.
    exists (map (fun st : statistics => fst (fst st)) l),
           (map (fun st : statistics => snd (fst st)) l).
    split; [reflexivity|].
    split; [rewrite length_map; exact Hll|].
    split; [rewrite length_map; exact Hll|].
    assert (Hst : forall st, In st l ->
              is_number (fst (fst st)) /\ is_error_bar (snd (fst st))).
    { intros st Hst. destruct (Hin st Hst) as (lr & Hlr & Hg).
      assert (Hk : In (policy, lr) keys) by (apply Hmem; assumption).
      apply In_nth_error in Hk. destruct Hk as [i Hi]. cbv beta in Hg.
      pose proof (dict_get_combine keys vals i _ Hdist Hlen Hi) as Hget.
      assert (Hs : nth_error vals i = Some st).
      { rewrite <- Hget. exact Hg. }
      destruct (Hv i _ st Hi Hs) as (m & m' & Hsim).
      eapply simulate_from_profit; eauto. }
    split; apply Forall_forall; intros x Hx; apply in_map_iff in Hx;
      destruct Hx as (st & <- & Hst'); apply (Hst st Hst').
Qed.

(** ** Example runs of the properties above *)

Local Open Scope Q_scope.

Lemma nonneg_nth (l : list Q) (d : Q) :
  Forall (fun x => 0 <= x) l -> 0 <= d -> forall n, 0 <= nth n l d.
Proof.
  intros Hl Hd. induction Hl as [|x l Hx _ IH]; intros [|n]; simpl; auto.
Qed.

Lemma one_customer_draws_nonneg : nonneg_draws one_customer_draws.
Proof.
  intros n. apply nonneg_nth; [repeat constructor|]; apply Qle_bool_iff; reflexivity.
Qed.

Lemma crowded_draws_nonneg : nonneg_draws crowded_draws.
Proof.
  intros n. apply nonneg_nth; [repeat constructor|]; apply Qle_bool_iff; reflexivity.
Qed.

Lemma queueing_draws_nonneg : nonneg_draws queueing_draws.
Proof.
  intros n. apply nonneg_nth; [repeat constructor|]; apply Qle_bool_iff; reflexivity.
Qed.


Lemma run_stops_at_horizon_witness :
  (now window_state <= 200 /\
   step one_customer_params one_customer_draws window_state <> EmptySchedule) /\
  exists s,
    replication one_customer_params one_customer_draws 20 0 = Finished s /\
    now s == 200.
Proof.
  split.
  - apply (proj1 (run_stops_at_horizon one_customer_params one_customer_draws 0)
             10%nat window_state).
    vm_compute. reflexivity.
  - eexists. split; [vm_compute; reflexivity|].
    apply (proj2 (run_stops_at_horizon one_customer_params one_customer_draws 0)
             20%nat).
    vm_compute. reflexivity.
Defined.

Lemma one_customer_per_arrival_witness :
  count_events is_arrival (history crowded_state) = 7%nat /\
  count_events is_arrival (history crowded_state)
  = (count_events is_customer_start (history crowded_state)
     + count_events is_customer_start (queue crowded_state))%nat.
Proof.
  split; [reflexivity|].
  apply (one_customer_per_arrival crowded_params crowded_draws 0 16).
  vm_compute. reflexivity.
Defined.


Lemma customers_accounted_once_witness :
  lost_customers renege_state = 1%nat /\
  (count_events is_customer_start (history renege_state)
   + count_events is_race_end (history renege_state)
   = lost_customers renege_state + length (waiting_times renege_state)
     + length (customers renege_state))%nat.
Proof.
  split; [reflexivity|].
  apply (proj1 (customers_accounted_once crowded_params crowded_draws 0
                  ltac:(vm_compute; discriminate)) 20%nat renege_state).
  vm_compute. reflexivity.
Defined.

Lemma waiting_times_count_witness :
  length (waiting_times queueing_state) = 2%nat /\
  served_count queueing_state = 1%nat /\
  length (waiting_times queueing_state)
  = (served_count queueing_state
     + count_events is_service_end (queue queueing_state))%nat.
Proof.
  split; [reflexivity|]. split; [reflexivity|].
  apply (proj1 (waiting_times_count crowded_params queueing_draws 0
                  queueing_draws_nonneg) 12%nat queueing_state).
  vm_compute. reflexivity.
Defined.


Lemma one_customer_per_cashier_witness :
  exists res,
    get_resource (Regular 0) crowded_state = Some res /\
    length (put_queue res) = 5%nat /\ (length (users res) <= 1)%nat.
Proof.
  eexists. split; [reflexivity|]. split; [reflexivity|].
  apply (one_customer_per_cashier crowded_params crowded_draws 0 16
           crowded_state (Regular 0)).
  - vm_compute. reflexivity.
  - reflexivity.
Defined.

Lemma valid_configuration_never_raises_witness :
  (exists s, replication crowded_params crowded_draws 80 0 = Finished s) /\
  (forall fuel n e, replication crowded_params crowded_draws fuel n <> Raised e) /\
  (forall fuel num_runs n e,
     replications crowded_params crowded_draws fuel num_runs n <> Raises e).
Proof.
  split; [eexists; vm_compute; reflexivity|].
  apply (valid_configuration_never_raises crowded_params crowded_draws).
  - reflexivity.
  - split; apply Qle_bool_iff; reflexivity.
  - split; apply Qle_bool_iff; reflexivity.
  - vm_compute. discriminate.
  - exact crowded_draws_nonneg.
Defined.

Lemma customer_in_service_holds_cashier_witness :
  ev queueing_service = Timeout_service 1 /\
  exists c res,
    nth_error (customers queueing_state) 1 = Some c /\
    get_resource (cashier c) queueing_state = Some res /\
    users res = [1%nat].
Proof.
  split; [reflexivity|].
  apply (customer_in_service_holds_cashier crowded_params queueing_draws 0 12
           queueing_state queueing_service 1).
  - reflexivity.
  - vm_compute. discriminate.
  - exact queueing_draws_nonneg.
  - vm_compute. reflexivity.
  - simpl. right. right. left. reflexivity.
  - reflexivity.
Defined.

Lemma policy_above_bound_never_opens_witness :
  (length (put_queue (extra_cashier renege_state)) = 0%nat /\
   open_extra_cashier renege_state = false /\
   activation_count renege_state = 0%nat) /\
  exists s,
    replication crowded_params crowded_draws 80 0 = Finished s /\
    lost_customers s = 6%nat /\ profit s == 10 * Qnat (served_count s).
Proof.
  pose proof (policy_above_bound_never_opens crowded_params crowded_draws 0
                ltac:(vm_compute; reflexivity)) as [H1 H2].
  split.
  - split; [reflexivity|].
    destruct (H1 20%nat renege_state ltac:(vm_compute; reflexivity)) as (Ho & Ha & _).
    split; assumption.
  - eexists. split; [vm_compute; reflexivity|]. split; [reflexivity|].
    refine (proj2 (proj2 (H2 80%nat _ _))). vm_compute. reflexivity.
Defined.

Lemma mixed_runs_simulate :
  simulate crowded_params mixed_draws 30 2 = Returns (summarize 2 mixed_runs).
Proof. unfold simulate. rewrite mixed_runs_replications. reflexivity. Qed.

Lemma patient_run_simulate :
  simulate crowded_params patient_draws 40 1 = Returns (summarize 1 patient_run).
Proof. unfold simulate. rewrite patient_run_replications. reflexivity. Qed.

Local Open Scope R_scope.

Lemma profit_statistics_defined_witness :
  map profit mixed_runs = [0%Q; 10%Q] /\
  length mixed_runs = 2%nat /\
  exists st h,
    simulate crowded_params mixed_draws 30 2 = Returns st /\
    fst st = (Val (Rmean (map final_profit mixed_runs)), Val h) /\ 0 <= h.
Proof.
  split; [reflexivity|].
  apply (profit_statistics_defined crowded_params mixed_draws 30 2).
  - lia.
  - exact mixed_runs_replications.
  - split; apply Qle_bool_iff; reflexivity.
  - intros s [<-|[<-|[]]]; split; apply Qle_bool_iff; reflexivity.
Defined.

Lemma wait_statistics_defined_witness :
  exists runs,
    replications crowded_params mixed_draws 30 2 0 = Returns runs /\
    ((forall s, In s runs -> waiting_times s <> []) <->
     (exists h, snd (summarize 2 mixed_runs)
                = (Val (Rmean (map mean_wait runs)), Val h) /\ 0 <= h)) /\
    ((exists s, In s runs /\ waiting_times s = []) <->
     snd (summarize 2 mixed_runs) = (NaN, NaN)).
Proof.
  apply (wait_statistics_defined crowded_params mixed_draws 30 2).
  - lia.
  - exact mixed_runs_simulate.
Defined.

Lemma single_run_statistics_witness :
  exists s,
    patient_run = [s] /\ profit s = 10%Q /\ waiting_times s = [0%Q] /\
    simulate crowded_params patient_draws 40 1
    = Returns ((Val (final_profit s), Val 0), (Val (mean_wait s), Val 0)).
Proof.
  eexists. split; [reflexivity|]. split; [reflexivity|]. split; [reflexivity|].
  apply (single_run_statistics crowded_params patient_draws 40).
  - vm_compute. reflexivity.
  - split; apply Qle_bool_iff; reflexivity.
  - split; apply Qle_bool_iff; reflexivity.
Defined.

Lemma mean_profit_decomposition_witness :
  exists runs,
    replications crowded_params mixed_draws 30 2 0 = Returns runs /\
    fst (fst (summarize 2 mixed_runs))
    = Val (10 * Rmean (map (fun s => INR (served_count s)) runs)
           - 2 * Q2R (C crowded_params)
             * Rmean (map (fun s => INR (activation_count s)) runs)).
Proof.
  apply (mean_profit_decomposition crowded_params mixed_draws 30 2).
  - lia.
  - exact mixed_runs_simulate.
Defined.

Lemma reported_wait_within_patience_witness :
  exists m, fst (snd (summarize 1 patient_run)) = Val m /\ 0 <= m <= 1.
Proof.
  assert (H : forall s, In s patient_run -> waiting_times s <> []).
  { intros s [<-|[]]. discriminate. }
  assert (E : fst (snd (summarize 1 patient_run))
              = Val (Rmean (map mean_wait patient_run))).
  { unfold summarize, aggregate. cbn [fst snd].
    rewrite (avg_waiting_times_Val patient_run H).
    apply np_mean_Val. discriminate. }
  exists (Rmean (map mean_wait patient_run)). split; [exact E|].
  apply (reported_wait_within_patience crowded_params patient_draws 40 1
           (summarize 1 patient_run)).
  - exact patient_run_simulate.
  - exact E.
Defined.

Local Open Scope Q_scope.

(** With the idle stream every replication of the sweep ends at its
    horizon before the first arrival. *)
Lemma idle_replication (p : Z) (lr C : Q) (n : nat) :
  In lr lambda_rates ->
  exists s, replication (script_params p lr C) idle_draws 3 n = Finished s.
Proof.
  unfold lambda_rates. simpl.
  intros H; repeat (destruct H as [<-|H]; [eexists; vm_compute; reflexivity|]);
    destruct H.
Qed.

Lemma idle_replications (p : Z) (lr C : Q) :
  In lr lambda_rates ->
  forall k n, exists runs,
    replications (script_params p lr C) idle_draws 3 k n = Returns runs.
Proof.
  intros Hlr. induction k as [|k IH]; intros n; cbn [replications]; [eauto|].
  destruct (idle_replication p lr C n Hlr) as (s & ->).
  destruct (IH (rng s)) as (runs & ->). eauto.
Qed.

Lemma idle_sweep_keys (C : Q) (keys : list key) :
  (forall k, In k keys -> In (snd k) lambda_rates) ->
  forall n d, exists T n', sweep_keys idle_draws 3 C keys n d = Returns (T, n').
Proof.
  induction keys as [|k rest IH]; intros Hk n d; cbn [sweep_keys]; [eauto|].
  unfold simulate_from.
  destruct (idle_replications (fst k) (snd k) C (Hk k (or_introl eq_refl)) 30 n)
    as (runs & ->).
  apply IH. intros k2 Hk2. apply Hk. right. exact Hk2.
Qed.

Lemma idle_sweep : exists T n', sweep idle_draws 3 3 0 = Returns (T, n').
Proof.
  unfold sweep. rewrite sweep_policies_keys. apply idle_sweep_keys.
  intros [p lr] Hk. apply in_prod_iff in Hk. apply Hk.
Qed.


Lemma sweep_table_complete_witness :
  exists T,
    map fst T = list_prod policies lambda_rates /\
    (forall k st, In (k, st) T ->
       exists m m',
         simulate_from idle_draws 3 (script_params (fst k) (snd k) 3) 30 m
         = Returns (st, m')) /\
    (forall policy, In policy policies ->
       exists profits errors,
         curve policy T = Some (profits, errors) /\
         length profits = 9%nat /\ length errors = 9%nat /\
         Forall is_number profits /\ Forall is_error_bar errors).
Proof.
  destruct idle_sweep as (T & n' & H). exists T.
  exact (sweep_table_complete idle_draws 3 3 0 n' T H).
Defined.
